(** * HKDS / QSC: queue, thread pool and Keccak constructions

    A shallow embedding of the QSC utility containers (queue.c,
    threadpool.h) and of the Keccak interface declared in sha3.h.

    C data is modelled as follows.
    - [size_t] and [uint64_t] are 64-bit unsigned integers: a [Z] in
      [0, 2^64), with the wrap-around of [++], [--] and [-] written out.
    - A byte array is a [list Z] of bytes; a pointer that may be NULL is
      an [option]; an array that has been released is tracked as freed.
    - A C function that can run into undefined behaviour (NULL
      dereference, access outside an array, double free) returns an
      [outcome]: either [Ret v] or [Undef f]. *)

From Stdlib Require Import ZArith Lia Bool.
From stdpp Require Import base tactics option list vector.

Local Open Scope Z_scope.

(** ** Machine integers *)

Definition SIZE_MAX : Z := 2 ^ 64 - 1.

(** Reduction of an integer result to [size_t]. *)
Definition size_wrap (z : Z) : Z := z mod 2 ^ 64.

(** [sizeof(uint8_t* )] and [sizeof(uint64_t)] on the 64-bit targets the
    library is built for. *)
Definition SIZEOF_PTR : Z := 8.
Definition SIZEOF_U64 : Z := 8.

(** ** Outcomes of C functions *)

Inductive fault : Set :=
| NullDeref      (* dereference of a NULL pointer *)
| OutOfBounds    (* read or write outside the array *)
| BadFree.       (* use or release of freed memory *)

Inductive outcome (A : Type) : Type :=
| Ret (a : A)
| Undef (f : fault).
Arguments Ret {A} a.
Arguments Undef {A} f.

#[global] Instance outcome_ret : MRet outcome := fun A a => Ret a.
#[global] Instance outcome_bind : MBind outcome := fun A B k m =>
  match m with
  | Ret a => k a
  | Undef f => Undef f
  end.

(** [for (i ...) body] over the index list [idx], threading the state. *)
Fixpoint for_each {S : Type} (body : nat -> S -> outcome S)
    (idx : list nat) (s : S) : outcome S :=
  match idx with
  | [] => Ret s
  | i :: idx' => s' ← body i s; for_each body idx' s'
  end.

(** ** Shifting an array down

    [shift_range j m l]: the [m] elements after index [j] are moved one
    place down, over the elements from index [j] on; the element at
    [j + m] and the elements after it stay. *)
Definition shift_range {A : Type} (j m : nat) (l : list A) : list A :=
  take j l ++ take m (drop (S j) l) ++ drop (j + m) l.

(** [shift_down n z l]: the first of the [n] leading elements is dropped,
    the others move one place down and [z] takes the place of the
    last. *)
Definition shift_down {A : Type} (n : nat) (z : A) (l : list A) : list A :=
  take (n - 1) (drop 1 l) ++ z :: drop n l.

(** ** Memory helpers (memutils) *)

Module Memutils.

(** Modelled from the spec: [qsc_memutils_clear] (memutils.c is not part
    of the sources): the first [len] bytes of the buffer are zero-wiped.
    Clearing more bytes than the buffer holds is outside the array. *)
Definition qsc_memutils_clear (buf : list Z) (len : Z) : outcome (list Z) :=
  if len <=? Z.of_nat (length buf)
  then Ret (replicate (Z.to_nat len) 0 ++ drop (Z.to_nat len) buf)
  else Undef OutOfBounds.

(** Modelled from the spec: [qsc_memutils_copy] (memutils.c is not part
    of the sources): copies [len] bytes of [src] over the first [len]
    bytes of [dst]. *)
Definition qsc_memutils_copy (dst src : list Z) (len : Z) : outcome (list Z) :=
  if (len <=? Z.of_nat (length dst)) && (len <=? Z.of_nat (length src))
  then Ret (take (Z.to_nat len) src ++ drop (Z.to_nat len) dst)
  else Undef OutOfBounds.

(** The same copy into [dst + off]. *)
Definition qsc_memutils_copy_at (dst : list Z) (off : Z) (src : list Z) (len : Z)
    : outcome (list Z) :=
  if (off + len <=? Z.of_nat (length dst)) && (len <=? Z.of_nat (length src))
  then Ret (take (Z.to_nat off) dst ++ take (Z.to_nat len) src
              ++ drop (Z.to_nat (off + len)) dst)
  else Undef OutOfBounds.

(** Zero-wipe of the first [nbytes] bytes of an array of [uint64_t]
    (little-endian): whole words first, then the low bytes of the next
    word. *)
Definition clear_u64_bytes (a : list Z) (nbytes : Z) : outcome (list Z) :=
  if nbytes <=? SIZEOF_U64 * Z.of_nat (length a)
  then
    let q := Z.to_nat (nbytes / SIZEOF_U64) in
    let r := nbytes mod SIZEOF_U64 in
    Ret (replicate q 0 ++
         match drop q a with
         | [] => []
         | w :: rest => (if r =? 0 then w else Z.shiftl (Z.shiftr w (8 * r)) (8 * r)) :: rest
         end)
  else Undef OutOfBounds.

(** Element load and store of a C array. *)
Definition array_load {A : Type} (a : list A) (i : Z) : outcome A :=
  match a !! Z.to_nat i with
  | Some x => Ret x
  | None => Undef OutOfBounds
  end.

Definition array_store {A : Type} (a : list A) (i : Z) (x : A) : outcome (list A) :=
  if i <? Z.of_nat (length a)
  then Ret (<[Z.to_nat i := x]> a)
  else Undef OutOfBounds.

End Memutils.
Import Memutils.

(** ** The queue (queue.c)

    The [assert]s of queue.c are compiled out of release builds and are
    not modelled; passing NULL for [ctx], [input] or [output] is the
    caller's error. *)

Module Queue.

(** [uint8_t** queue]: NULL, released, or an array of slot pointers, each
    NULL or pointing to the bytes of the slot. *)
Inductive qarray : Type :=
| QNull
| QFreed
| QMem (slots : list (option (list Z))).

Record qsc_queue_state : Type := mk_queue {
  queue : qarray;        (* uint8_t** queue *)
  tags : list Z;         (* uint64_t tags[QSC_QUEUE_MAX_DEPTH] *)
  count : Z;             (* size_t count *)
  depth : Z;             (* size_t depth *)
  position : Z;          (* size_t position *)
  width : Z              (* size_t width *)
}.

Definition set_queue (q : qarray) (ctx : qsc_queue_state) : qsc_queue_state :=
  mk_queue q (tags ctx) (count ctx) (depth ctx) (position ctx) (width ctx).

(** [ctx->queue[i]] read as a pointer. *)
Definition slot_ptr (q : qarray) (i : Z) : outcome (option (list Z)) :=
  match q with
  | QNull => Undef NullDeref
  | QFreed => Undef BadFree
  | QMem slots => array_load slots i
  end.

(** The bytes [ctx->queue[i]] points to. *)
Definition slot_mem (q : qarray) (i : Z) : outcome (list Z) :=
  p ← slot_ptr q i;
  match p with
  | Some b => Ret b
  | None => Undef NullDeref
  end.

(** Write-back of the bytes of slot [i]. *)
Definition slot_store (q : qarray) (i : Z) (b : list Z) : outcome qarray :=
  match q with
  | QNull => Undef NullDeref
  | QFreed => Undef BadFree
  | QMem slots => slots' ← array_store slots i (Some b); Ret (QMem slots')
  end.

(** Outcome of the allocations made by one call of
    [qsc_queue_initialize]: whether the array of slot pointers was
    obtained, and for each slot whether its buffer was. *)
Record alloc : Type := mk_alloc {
  outer_ok : bool;
  slot_ok : nat -> bool
}.

Section WithMaxDepth.

(** [QSC_QUEUE_MAX_DEPTH] is defined in queue.h, which is not part of the
    sources: the length of the tag array is a parameter. *)
Variable QSC_QUEUE_MAX_DEPTH : Z.

(** [sizeof(ctx->tags)] *)
Definition sizeof_tags : Z := SIZEOF_U64 * QSC_QUEUE_MAX_DEPTH.

Definition qsc_queue_destroy (ctx : qsc_queue_state) : outcome qsc_queue_state :=
  _ ← for_each (fun i (_ : unit) =>
         p ← slot_ptr (queue ctx) (Z.of_nat i);
         match p with
         | Some b => _ ← qsc_memutils_clear b (width ctx); Ret tt
         | None => Ret tt
         end) (seq 0 (Z.to_nat (depth ctx))) tt;
  q ← match queue ctx with
      | QNull => Ret QNull
      | QFreed => Undef BadFree
      | QMem _ => Ret QFreed
      end;
  t ← clear_u64_bytes (tags ctx) sizeof_tags;
  Ret (mk_queue q t 0 0 0 0).

Definition qsc_queue_flush (ctx : qsc_queue_state) (output : list Z)
    : outcome (qsc_queue_state * list Z) :=
  match queue ctx with
  | QNull => Ret (ctx, output)
  | _ =>
    '(q, out) ← for_each (fun i '(q, out) =>
         p ← slot_ptr q (Z.of_nat i);
         match p with
         | Some b =>
             out' ← qsc_memutils_copy_at out (size_wrap (Z.of_nat i * width ctx)) b (width ctx);
             b' ← qsc_memutils_clear b (width ctx);
             q' ← slot_store q (Z.of_nat i) b';
             Ret (q', out')
         | None => Ret (q, out)
         end) (seq 0 (Z.to_nat (position ctx))) (queue ctx, output);
    t ← clear_u64_bytes (tags ctx) sizeof_tags;
    Ret (mk_queue q t 0 (depth ctx) 0 (width ctx), out)
  end.

Definition qsc_queue_initialize (a : alloc) (ctx : qsc_queue_state)
    (depth width : Z) : outcome qsc_queue_state :=
  if outer_ok a then
    (* the block holds (depth * sizeof(uint8_t* )) mod 2^64 bytes *)
    if depth <=? size_wrap (depth * SIZEOF_PTR) / SIZEOF_PTR then
      let slots := (fun i => if slot_ok a i
                             then Some (replicate (Z.to_nat width) 0)
                             else None) <$> seq 0 (Z.to_nat depth) in
      t ← clear_u64_bytes (tags ctx) QSC_QUEUE_MAX_DEPTH;
      Ret (mk_queue (QMem slots) t 0 depth 0 width)
    else Undef OutOfBounds
  else Ret (set_queue QNull ctx).

Definition qsc_queue_items (ctx : qsc_queue_state) : Z := count ctx.

Definition qsc_queue_isfull (ctx : qsc_queue_state) : bool :=
  count ctx =? depth ctx.

Definition qsc_queue_isempty (ctx : qsc_queue_state) : bool :=
  count ctx =? 0.

(** The body of the loop of [qsc_queue_pop]: slot [i] is copied over
    slot [i - 1] and tag [i] over tag [i - 1]. *)
Definition pop_shift (w : Z) (i : nat) (st : qarray * list Z)
    : outcome (qarray * list Z) :=
  let '(q, t) := st in
  src ← slot_mem q (Z.of_nat i);
  dst ← slot_mem q (Z.of_nat i - 1);
  dst' ← qsc_memutils_copy dst src w;
  q' ← slot_store q (Z.of_nat i - 1) dst';
  x ← array_load t (Z.of_nat i);
  t' ← array_store t (Z.of_nat i - 1) x;
  Ret (q', t').

(** Returns the new state, the output buffer and the tag. *)
Definition qsc_queue_pop (ctx : qsc_queue_state) (output : list Z) (outlen : Z)
    : outcome (qsc_queue_state * list Z * Z) :=
  if negb (qsc_queue_isempty ctx) && (outlen <=? width ctx) then
    b0 ← slot_mem (queue ctx) 0;
    out ← qsc_memutils_copy output b0 outlen;
    b0' ← qsc_memutils_clear b0 (width ctx);
    q ← slot_store (queue ctx) 0 b0';
    tag ← array_load (tags ctx) (size_wrap (position ctx - 1));
    '(q, t) ←
      (if count ctx >? 1 then
         for_each (pop_shift (width ctx)) (seq 1 (Z.to_nat (count ctx) - 1)) (q, tags ctx)
       else Ret (q, tags ctx));
    bl ← slot_mem q (size_wrap (position ctx - 1));
    bl' ← qsc_memutils_clear bl (width ctx);
    q ← slot_store q (size_wrap (position ctx - 1)) bl';
    t ← array_store t (size_wrap (position ctx - 1)) 0;
    Ret (mk_queue q t (size_wrap (count ctx - 1)) (depth ctx)
           (size_wrap (position ctx - 1)) (width ctx), out, tag)
  else Ret (ctx, output, 0).

Definition qsc_queue_push (ctx : qsc_queue_state) (input : list Z) (inlen : Z)
    (tag : Z) : outcome qsc_queue_state :=
  if negb (qsc_queue_isfull ctx) && (inlen <=? width ctx) then
    b ← slot_mem (queue ctx) (position ctx);
    b' ← qsc_memutils_copy b input inlen;
    q ← slot_store (queue ctx) (position ctx) b';
    t ← array_store (tags ctx) (position ctx) tag;
    Ret (mk_queue q t (size_wrap (count ctx + 1)) (depth ctx)
           (size_wrap (position ctx + 1)) (width ctx))
  else Ret ctx.

(** *** Well-formed queues

    The states for which every operation is defined: the slot array has
    [depth] slots, every slot is allocated with [width] bytes, the tag
    array has room for every slot, and all fields are in the range of
    [size_t]. *)
Definition slot_wf (w : Z) (s : option (list Z)) : bool :=
  match s with
  | Some b => Z.of_nat (length b) =? w
  | None => false
  end.

Definition queue_ok (ctx : qsc_queue_state) : bool :=
  match queue ctx with
  | QMem slots =>
      (Z.of_nat (length slots) =? depth ctx) && forallb (slot_wf (width ctx)) slots
  | _ => false
  end
  && (Z.of_nat (length (tags ctx)) =? QSC_QUEUE_MAX_DEPTH)
  && (depth ctx <=? QSC_QUEUE_MAX_DEPTH)
  && (depth ctx <=? SIZE_MAX)
  && (width ctx <=? SIZE_MAX)
  && (0 <=? width ctx)
  && (0 <=? count ctx)
  && (count ctx <=? depth ctx)
  && (count ctx =? position ctx).

(** *** The items of a queue

    The bytes and the tag of the [count] slots in use, oldest first. *)
Definition items (ctx : qsc_queue_state) : list (list Z * Z) :=
  match queue ctx with
  | QMem slots =>
      zip (default [] <$> take (Z.to_nat (count ctx)) slots)
          (take (Z.to_nat (count ctx)) (tags ctx))
  | _ => []
  end.

(** *** Reachable states

    [queue_step ctx ctx']: one call of a queue operation, which did not
    run into undefined behaviour, takes [ctx] to [ctx']. *)
Inductive queue_step : qsc_queue_state -> qsc_queue_state -> Prop :=
| step_initialize a ctx d w ctx' :
    qsc_queue_initialize a ctx d w = Ret ctx' ->
    queue_step ctx ctx'
| step_push ctx input inlen tag ctx' :
    qsc_queue_push ctx input inlen tag = Ret ctx' ->
    queue_step ctx ctx'
| step_pop ctx output outlen ctx' out tag :
    qsc_queue_pop ctx output outlen = Ret (ctx', out, tag) ->
    queue_step ctx ctx'
| step_flush ctx output ctx' out :
    qsc_queue_flush ctx output = Ret (ctx', out) ->
    queue_step ctx ctx'
| step_destroy ctx ctx' :
    qsc_queue_destroy ctx = Ret ctx' ->
    queue_step ctx ctx'.

(** [reachable_from init ctx]: [ctx] is obtained from a state accepted by
    [init] by any sequence of queue operations. *)
Inductive reachable_from (init : qsc_queue_state -> Prop) : qsc_queue_state -> Prop :=
| reach_start ctx :
    init ctx -> reachable_from init ctx
| reach_step ctx ctx' :
    reachable_from init ctx -> queue_step ctx ctx' -> reachable_from init ctx'.

(** The result of any call of [qsc_queue_initialize] on the caller's
    (so far unassigned) state object. *)
Definition initialized (ctx : qsc_queue_state) : Prop :=
  exists a ctx0 d w, qsc_queue_initialize a ctx0 d w = Ret ctx.

(** The result of a call whose allocation of the slot-pointer array
    succeeded. *)
Definition initialized_alloc (ctx : qsc_queue_state) : Prop :=
  exists a ctx0 d w, outer_ok a = true /\ qsc_queue_initialize a ctx0 d w = Ret ctx.

(** *** The self test *)

(** Modelled from the spec: [qsc_intutils_are_equal8] (intutils is not
    part of the sources): equality of the first [len] bytes. *)
Definition qsc_intutils_are_equal8 (a b : list Z) (len : Z) : bool :=
  bool_decide (take (Z.to_nat len) a = take (Z.to_nat len) b).

(** [exp[i][j] = (uint8_t)(i + j)] *)
Definition self_test_exp (i : nat) : list Z :=
  (fun j => (Z.of_nat i + Z.of_nat j) mod 256) <$> seq 0 16.

(** [for (i = 0; i < 64; ++i) qsc_queue_push(&ctx, exp[i], 16, i);] *)
Definition self_test_push (ctx : qsc_queue_state) : outcome qsc_queue_state :=
  for_each (fun i c => qsc_queue_push c (self_test_exp i) 16 (Z.of_nat i))
    (seq 0 64) ctx.

(** [for (i = 0; i < 64; ++i) qsc_queue_pop(&ctx, otp2[i], 16);]
    collecting, for each call, the bytes written to [otp2[i]] and the
    returned tag. *)
Definition self_test_pop (ctx : qsc_queue_state)
    : outcome (qsc_queue_state * list (list Z * Z)) :=
  for_each (fun _ '(c, popped) =>
      '(c', out, tag) ← qsc_queue_pop c (replicate 16 0) 16;
      Ret (c', popped ++ [(out, tag)]))
    (seq 0 64) (ctx, []).

(** [qsc_queue_self_test], from the state object [ctx] on the stack. *)
Definition qsc_queue_self_test (a : alloc) (ctx : qsc_queue_state) : outcome bool :=
  let res := true in
  ctx ← qsc_queue_initialize a ctx 64 16;
  ctx ← self_test_push ctx;
  let res := if qsc_queue_isfull ctx then res else false in
  '(ctx, popped) ← self_test_pop ctx;
  let res := if qsc_queue_isempty ctx then res else false in
  let res := if qsc_queue_items ctx =? 0 then res else false in
  let res := if forallb (fun i => qsc_intutils_are_equal8 (self_test_exp i)
                                    (default [] (fst <$> popped !! i)) 16) (seq 0 64)
             then res else false in
  ctx ← self_test_push ctx;
  let res := if qsc_queue_items ctx =? 64 then res else false in
  '(ctx, otp1) ← qsc_queue_flush ctx (replicate (64 * 16) 0);
  let res := if forallb (fun i => qsc_intutils_are_equal8 (self_test_exp i)
                                    (drop (i * 16) otp1) 16) (seq 0 64)
             then res else false in
  _ ← qsc_queue_destroy ctx;
  Ret res.

End WithMaxDepth.

(** *** Concrete queues *)

(** The state object before initialization: whatever the memory held. *)
Definition stack_garbage : qsc_queue_state :=
  mk_queue QFreed (replicate 64 0xDEADBEEF) 5 7 3 9.

Definition alloc_all : alloc := mk_alloc true (fun _ => true).
Definition alloc_none : alloc := mk_alloc false (fun _ => false).

(** Three slots of four bytes holding two items. *)
Definition two_items : qsc_queue_state :=
  mk_queue (QMem [Some [1; 2; 3; 4]; Some [5; 6; 0; 0]; Some [0; 0; 0; 0]])
    (10 :: 20 :: replicate 62 0) 2 3 2 4.

Definition no_items : qsc_queue_state :=
  mk_queue (QMem [Some [0; 0; 0; 0]; Some [0; 0; 0; 0]; Some [0; 0; 0; 0]])
    (replicate 64 0) 0 3 0 4.

(** *** Unused slots

    [wiped ctx]: every allocated slot from index [count] on holds zero
    bytes only. *)
Definition slot_zero (s : option (list Z)) : bool :=
  match s with
  | Some b => forallb (Z.eqb 0) b
  | None => true
  end.

Definition wiped (ctx : qsc_queue_state) : bool :=
  match queue ctx with
  | QMem slots => forallb slot_zero (drop (Z.to_nat (count ctx)) slots)
  | _ => true
  end.

(** The bytes [b] followed by zeros, up to [w] bytes: what a slot of
    [w] zero bytes holds after [b] is copied into it. *)
Definition zero_padded (w : Z) (b : list Z) : list Z :=
  b ++ replicate (Z.to_nat w - length b) 0.

(** *** Callers *)

(** A caller that pushes the items [xs], each whole and with its tag,
    one after the other. *)
Fixpoint push_all (ctx : qsc_queue_state) (xs : list (list Z * Z))
    : outcome qsc_queue_state :=
  match xs with
  | [] => Ret ctx
  | (b, tag) :: xs' =>
      ctx' ← qsc_queue_push ctx b (Z.of_nat (length b)) tag;
      push_all ctx' xs'
  end.

(** A caller that pops [n] times, each time into a zeroed buffer of
    [width] bytes, and collects the buffers and the returned tags. *)
Fixpoint pop_all (n : nat) (ctx : qsc_queue_state)
    : outcome (qsc_queue_state * list (list Z * Z)) :=
  match n with
  | O => Ret (ctx, [])
  | S n' =>
      '(ctx', out, tag) ← qsc_queue_pop ctx (replicate (Z.to_nat (width ctx)) 0) (width ctx);
      '(ctx'', popped) ← pop_all n' ctx';
      Ret (ctx'', (out, tag) :: popped)
  end.

End Queue.

(** ** The thread pool (threadpool.h) *)

Module Threadpool.

Definition QSC_THREADPOOL_THREADS_MAX : Z := 1024.

(** A task: the function pointer and the context pointer handed to the
    new thread. *)
Record task : Type := mk_task {
  thd_func : Z;
  state : Z
}.

Record qsc_threadpool_state : Type := mk_pool {
  tpool : list Z;       (* pthread_t tpool[QSC_THREADPOOL_THREADS_MAX] *)
  tcount : Z            (* size_t tcount *)
}.

(** The threads started so far: the operating system's side of
    [_beginthread] / [p_thread_create]. *)
Definition threads : Type := list task.

(** [qsc_threadpool_add_task]; [handle] is the handle the operating
    system gives to the new thread.  The thread is started first, then
    its handle is stored at [tpool[tcount]]. *)
Definition qsc_threadpool_add_task (ctx : qsc_threadpool_state) (os : threads)
    (t : task) (handle : Z) : outcome (qsc_threadpool_state * threads * bool) :=
  let res := false in
  if tcount ctx <=? QSC_THREADPOOL_THREADS_MAX then
    let os := os ++ [t] in
    p ← array_store (tpool ctx) (tcount ctx) handle;
    Ret (mk_pool p (size_wrap (tcount ctx + 1)), os, true)
  else Ret (ctx, os, res).

(** A pool object as declared: the handle array has
    [QSC_THREADPOOL_THREADS_MAX] entries and [tcount] is a [size_t]. *)
Definition pool_ok (ctx : qsc_threadpool_state) : bool :=
  (Z.of_nat (length (tpool ctx)) =? QSC_THREADPOOL_THREADS_MAX)
  && (0 <=? tcount ctx) && (tcount ctx <=? SIZE_MAX).

(** A registry that holds [QSC_THREADPOOL_THREADS_MAX] handles. *)
Definition full_pool : qsc_threadpool_state :=
  mk_pool (replicate 1024 0) 1024.

(** *** Clearing, initializing and removing

    The calls that end a thread are modelled by the POSIX branch,
    [pthread_cancel(handle)]. *)

(** The handles handed to [pthread_cancel], in the order of the
    calls. *)
Definition cancelled : Type := list Z.

(** [memset(ctx->tpool, 0x00, QSC_THREADPOOL_THREADS_MAX * sizeof(int))];
    the header defines [pthread_t] as [int], so these are the bytes of
    the first [QSC_THREADPOOL_THREADS_MAX] entries. *)
Definition memset_tpool (p : list Z) : outcome (list Z) :=
  if QSC_THREADPOOL_THREADS_MAX <=? Z.of_nat (length p)
  then Ret (replicate (Z.to_nat QSC_THREADPOOL_THREADS_MAX) 0
              ++ drop (Z.to_nat QSC_THREADPOOL_THREADS_MAX) p)
  else Undef OutOfBounds.

(** [qsc_threadpool_clear]: the threads of the entries below [tcount]
    are cancelled, the handle array is zeroed and [tcount] is reset. *)
Definition qsc_threadpool_clear (ctx : qsc_threadpool_state) (log : cancelled)
    : outcome (qsc_threadpool_state * cancelled) :=
  log ← (if negb (tcount ctx =? 0) then
           for_each (fun i log =>
               h ← array_load (tpool ctx) (Z.of_nat i);
               Ret (log ++ [h]))
             (seq 0 (Z.to_nat (tcount ctx))) log
         else Ret log);
  p ← memset_tpool (tpool ctx);
  Ret (mk_pool p 0, log).

(** [qsc_threadpool_initialize]: the handle array is zeroed; [tcount] is
    not assigned. *)
Definition qsc_threadpool_initialize (ctx : qsc_threadpool_state)
    : outcome qsc_threadpool_state :=
  p ← memset_tpool (tpool ctx);
  Ret (mk_pool p (tcount ctx)).

(** [qsc_threadpool_remove_task]: the thread of entry [index] is
    cancelled and [tcount] is decremented; the handle array is not
    written. *)
Definition qsc_threadpool_remove_task (ctx : qsc_threadpool_state) (log : cancelled)
    (index : Z) : outcome (qsc_threadpool_state * cancelled) :=
  if negb (tcount ctx =? 0) && (index <=? tcount ctx) then
    h ← array_load (tpool ctx) index;
    Ret (mk_pool (tpool ctx) (size_wrap (tcount ctx - 1)), log ++ [h])
  else Ret (ctx, log).

(** A caller that adds the tasks [ts] one after the other, the
    operating system giving each new thread the handle beside it, and
    does not look at the results. *)
Fixpoint add_tasks (ctx : qsc_threadpool_state) (os : threads) (ts : list (task * Z))
    : outcome (qsc_threadpool_state * threads) :=
  match ts with
  | [] => Ret (ctx, os)
  | (t, handle) :: ts' =>
      '(ctx', os', _) ← qsc_threadpool_add_task ctx os t handle;
      add_tasks ctx' os' ts'
  end.

(** A registry of four handles, in an array that held other values
    before. *)
Definition four_tasks : qsc_threadpool_state :=
  mk_pool ([11; 12; 13; 14] ++ replicate 1020 99) 4.

End Threadpool.
(** ** The test timer (HKDSTest/timer.c) *)

Module Timer.

Section WithClock.

(** [CLOCKS_PER_SEC] of the C library's [<time.h>]. *)
Variable CLOCKS_PER_SEC : Z.

(** [hkdstest_timer_start]; [now] is the reading of [clock()]. *)
Definition hkdstest_timer_start (now : Z) : Z := now.

(** [hkdstest_timer_elapsed]; [now] is the reading of [clock()].  The
    difference is converted to [uint64_t], multiplied by 1000 in
    [uint64_t] and divided by [CLOCKS_PER_SEC]. *)
Definition hkdstest_timer_elapsed (now start : Z) : Z :=
  let diff := now - start in
  let msec := size_wrap (size_wrap diff * 1000) / CLOCKS_PER_SEC in
  msec.

End WithClock.

End Timer.


(** ** Keccak: constants and types (sha3.h) *)

Module Sha3.

Definition QSC_KECCAK_CSHAKE_DOMAIN_ID : Z := 0x04.
Definition QSC_KECCAK_KMAC_DOMAIN_ID : Z := 0x04.
Definition QSC_KECCAK_KPA_DOMAIN_ID : Z := 0x41.
Definition QSC_KECCAK_PERMUTATION_ROUNDS : Z := 24.
Definition QSC_KECCAK_PERMUTATION_MAX_ROUNDS : Z := 48.
Definition QSC_KECCAK_PERMUTATION_MIN_ROUNDS : Z := 12.
Definition QSC_KECCAK_SHA3_DOMAIN_ID : Z := 0x06.
Definition QSC_KECCAK_SHAKE_DOMAIN_ID : Z := 0x1F.
Definition QSC_KECCAK_STATE_BYTE_SIZE : Z := 200.
Definition QSC_KECCAK_128_RATE : Z := 168.
Definition QSC_KECCAK_256_RATE : Z := 136.
Definition QSC_KECCAK_512_RATE : Z := 72.
Definition QSC_KECCAK_STATE_SIZE : Z := 25.
Definition QSC_SHA3_128_HASH_SIZE : Z := 16.
Definition QSC_SHA3_256_HASH_SIZE : Z := 32.
Definition QSC_SHA3_512_HASH_SIZE : Z := 64.
Definition QSC_KPA_ROUNDS : Z := 12.
Definition QSC_KPA_PARALLELISM : Z := 8.

(** [enum qsc_keccak_rate] *)
Inductive qsc_keccak_rate : Set :=
| qsc_keccak_rate_128
| qsc_keccak_rate_256
| qsc_keccak_rate_512.

(** The value of an enumerator. *)
Definition rate_bytes (rate : qsc_keccak_rate) : Z :=
  match rate with
  | qsc_keccak_rate_128 => QSC_KECCAK_128_RATE
  | qsc_keccak_rate_256 => QSC_KECCAK_256_RATE
  | qsc_keccak_rate_512 => QSC_KECCAK_512_RATE
  end.

(** The security level, in bits, an enumerator is named after. *)
Definition rate_security (rate : qsc_keccak_rate) : Z :=
  match rate with
  | qsc_keccak_rate_128 => 128
  | qsc_keccak_rate_256 => 256
  | qsc_keccak_rate_512 => 512
  end.

(** The capacity: the state bytes that are not part of the rate. *)
Definition capacity_bytes (rate : qsc_keccak_rate) : Z :=
  QSC_KECCAK_STATE_BYTE_SIZE - rate_bytes rate.

(** [struct qsc_keccak_state] *)
Record qsc_keccak_state : Type := mk_keccak {
  state : list Z;       (* uint64_t state[QSC_KECCAK_STATE_SIZE] *)
  buffer : list Z;      (* uint8_t buffer[QSC_KECCAK_STATE_BYTE_SIZE] *)
  position : Z          (* size_t position *)
}.

(** *** Lanes

    sha3.h declares the functions below; their bodies are in sha3.c,
    which is not part of the sources.  From here to the end of the
    module the definitions are modelled from the spec, and each says
    so. *)

(** Modelled from the spec: the operations the permutation applies to a
    lane of the state (sha3.c is not part of the sources).  A lane is a
    [uint64_t] in the single-lane functions, and a vector of four
    ([__m256i]) or eight ([__m512i]) of them in the x4 and x8 functions,
    where every operation acts on all elements at once. *)
Class Lane (W : Type) : Type := {
  lxor : W -> W -> W;       (* a ^ b *)
  landn : W -> W -> W;      (* (~a) & b *)
  lrotl : W -> Z -> W;      (* rotation to the left *)
  lconst : Z -> W           (* a 64-bit constant *)
}.

(** Modelled from the spec: the 64 one bits of a lane. *)
Definition U64_MAX : Z := 0xFFFFFFFFFFFFFFFF.

(** Modelled from the spec: the lane operations on a [uint64_t]. *)
#[global] Instance lane_u64 : Lane Z := {|
  lxor := Z.lxor;
  landn a b := Z.land (Z.lxor a U64_MAX) b;
  lrotl x n := Z.lor (Z.land (Z.shiftl x n) U64_MAX) (Z.shiftr x (64 - n));
  lconst c := c
|}.

(** Modelled from the spec: the lane operations on a vector of [n]
    words, element by element. *)
#[global] Instance lane_vec (n : nat) : Lane (vec Z n) := {|
  lxor := vzip_with (lxor (W := Z));
  landn := vzip_with (landn (W := Z));
  lrotl v r := vmap (fun x => lrotl (W := Z) x r) v;
  lconst c := vreplicate n c
|}.

(** *** Tables *)

(** Modelled from the spec: the round constants of sha3.c, which is not
    part of the sources.  They are those of FIPS 202, which sha3.h
    refers to; FIPS 202 has 24 round constants, and the constants the
    library would use for rounds 25 to
    [QSC_KECCAK_PERMUTATION_MAX_ROUNDS] are given nowhere. *)
Definition KECCAK_ROUND_CONSTANTS : list Z :=
  [ 0x0000000000000001; 0x0000000000008082; 0x800000000000808A; 0x8000000080008000;
    0x000000000000808B; 0x0000000080000001; 0x8000000080008081; 0x8000000000008009;
    0x000000000000008A; 0x0000000000000088; 0x0000000080008009; 0x000000008000000A;
    0x000000008000808B; 0x800000000000008B; 0x8000000000008089; 0x8000000000008003;
    0x8000000000008002; 0x8000000000000080; 0x000000000000800A; 0x800000008000000A;
    0x8000000080008081; 0x8000000000008080; 0x0000000080000001; 0x8000000080008008 ].

(** Modelled from the spec: the rotation offsets of the rho step, in
    the order of the lanes of the pi step (FIPS 202). *)
Definition KECCAK_RHO_OFFSETS : list Z :=
  [ 1; 3; 6; 10; 15; 21; 28; 36; 45; 55; 2; 14;
    27; 41; 56; 8; 25; 43; 62; 18; 39; 61; 20; 44 ].

(** Modelled from the spec: the lanes visited by the pi step
    (FIPS 202). *)
Definition KECCAK_PI_LANES : list nat :=
  [ 10; 7; 11; 17; 18; 3; 5; 16; 8; 21; 24; 4;
    15; 23; 19; 13; 12; 2; 20; 14; 22; 9; 6; 1 ]%nat.

Section Permutation.

Context {W : Type} `{Lane W}.

(** Modelled from the spec: [st[i]] in the steps below. *)
Definition lane (st : list W) (i : nat) : W := nth i st (lconst 0).

(** Modelled from the spec: the theta step of the compact permutation
    (sha3.c is not part of the sources): column parities, then every
    lane of a column is combined with the parities of its neighbours. *)
Definition theta (st : list W) : list W :=
  let bc := (fun i =>
      lxor (lxor (lxor (lxor (lane st i) (lane st (i + 5))) (lane st (i + 10)))
              (lane st (i + 15))) (lane st (i + 20))) <$> seq 0 5 in
  foldl (fun st i =>
      let t := lxor (lane bc ((i + 4) mod 5)) (lrotl (lane bc ((i + 1) mod 5)) 1) in
      foldl (fun st j => <[(j + i)%nat := lxor (lane st (j + i)) t]> st)
        st [0; 5; 10; 15; 20]%nat)
    st (seq 0 5).

(** Modelled from the spec: the rho and pi steps: the lanes are rotated
    and moved along the cycle of [KECCAK_PI_LANES]. *)
Definition rho_pi (st : list W) : list W :=
  fst (foldl (fun '(st, t) '(j, r) => (<[j := lrotl t r]> st, lane st j))
         (st, lane st 1) (zip KECCAK_PI_LANES KECCAK_RHO_OFFSETS)).

(** Modelled from the spec: the chi step, row by row. *)
Definition chi (st : list W) : list W :=
  foldl (fun st j =>
      let bc := (fun i => lane st (j + i)) <$> seq 0 5 in
      foldl (fun st i =>
          <[(j + i)%nat := lxor (lane st (j + i))
                             (landn (lane bc ((i + 1) mod 5)) (lane bc ((i + 2) mod 5)))]> st)
        st (seq 0 5))
    st [0; 5; 10; 15; 20]%nat.

(** Modelled from the spec: the iota step. *)
Definition iota (rc : W) (st : list W) : list W :=
  <[0%nat := lxor (lane st 0) rc]> st.

(** Modelled from the spec: one round of the compact permutation, the
    five steps in turn. *)
Definition keccak_round (rc : W) (st : list W) : list W :=
  iota rc (chi (rho_pi (theta st))).

(** Modelled from the spec: [qsc_keccak_permute_p1600c], the compact,
    table-driven permutation, whose body (sha3.c) is not part of the
    sources: the round function is applied [rounds] times, round [i]
    with the [i]-th round constant.  The table ends after 24 rounds. *)
Definition qsc_keccak_permute_p1600c (st : list W) (rounds : Z) : list W :=
  foldl (fun st rc => keccak_round (lconst rc) st) st
    (take (Z.to_nat rounds) KECCAK_ROUND_CONSTANTS).

End Permutation.

Section Unrolled.

Context {W : Type} `{Lane W}.

(** Modelled from the spec: one round of the unrolled permutation
    (sha3.c is not part of the sources).  The 25 lanes are held in the
    variables [Aba] to [Asu] and every step is written out, without
    loops or tables. *)
Definition round_unrolled (rc : W) (st : list W) : list W :=
  match st with
  | [Aba; Abe; Abi; Abo; Abu; Aga; Age; Agi; Ago; Agu; Aka; Ake; Aki; Ako; Aku;
     Ama; Ame; Ami; Amo; Amu; Asa; Ase; Asi; Aso; Asu] =>
      let BCa := lxor (lxor (lxor (lxor Aba Aga) Aka) Ama) Asa in
      let BCe := lxor (lxor (lxor (lxor Abe Age) Ake) Ame) Ase in
      let BCi := lxor (lxor (lxor (lxor Abi Agi) Aki) Ami) Asi in
      let BCo := lxor (lxor (lxor (lxor Abo Ago) Ako) Amo) Aso in
      let BCu := lxor (lxor (lxor (lxor Abu Agu) Aku) Amu) Asu in
      let Da := lxor BCu (lrotl BCe 1) in
      let De := lxor BCa (lrotl BCi 1) in
      let Di := lxor BCe (lrotl BCo 1) in
      let Do := lxor BCi (lrotl BCu 1) in
      let Du := lxor BCo (lrotl BCa 1) in

      let Bba := lxor Aba Da in
      let Bbe := lrotl (lxor Age De) 44 in
      let Bbi := lrotl (lxor Aki Di) 43 in
      let Bbo := lrotl (lxor Amo Do) 21 in
      let Bbu := lrotl (lxor Asu Du) 14 in
      let Eba := lxor (lxor Bba (landn Bbe Bbi)) rc in
      let Ebe := lxor Bbe (landn Bbi Bbo) in
      let Ebi := lxor Bbi (landn Bbo Bbu) in
      let Ebo := lxor Bbo (landn Bbu Bba) in
      let Ebu := lxor Bbu (landn Bba Bbe) in

      let Bga := lrotl (lxor Abo Do) 28 in
      let Bge := lrotl (lxor Agu Du) 20 in
      let Bgi := lrotl (lxor Aka Da) 3 in
      let Bgo := lrotl (lxor Ame De) 45 in
      let Bgu := lrotl (lxor Asi Di) 61 in
      let Ega := lxor Bga (landn Bge Bgi) in
      let Ege := lxor Bge (landn Bgi Bgo) in
      let Egi := lxor Bgi (landn Bgo Bgu) in
      let Ego := lxor Bgo (landn Bgu Bga) in
      let Egu := lxor Bgu (landn Bga Bge) in

      let Bka := lrotl (lxor Abe De) 1 in
      let Bke := lrotl (lxor Agi Di) 6 in
      let Bki := lrotl (lxor Ako Do) 25 in
      let Bko := lrotl (lxor Amu Du) 8 in
      let Bku := lrotl (lxor Asa Da) 18 in
      let Eka := lxor Bka (landn Bke Bki) in
      let Eke := lxor Bke (landn Bki Bko) in
      let Eki := lxor Bki (landn Bko Bku) in
      let Eko := lxor Bko (landn Bku Bka) in
      let Eku := lxor Bku (landn Bka Bke) in

      let Bma := lrotl (lxor Abu Du) 27 in
      let Bme := lrotl (lxor Aga Da) 36 in
      let Bmi := lrotl (lxor Ake De) 10 in
      let Bmo := lrotl (lxor Ami Di) 15 in
      let Bmu := lrotl (lxor Aso Do) 56 in
      let Ema := lxor Bma (landn Bme Bmi) in
      let Eme := lxor Bme (landn Bmi Bmo) in
      let Emi := lxor Bmi (landn Bmo Bmu) in
      let Emo := lxor Bmo (landn Bmu Bma) in
      let Emu := lxor Bmu (landn Bma Bme) in

      let Bsa := lrotl (lxor Abi Di) 62 in
      let Bse := lrotl (lxor Ago Do) 55 in
      let Bsi := lrotl (lxor Aku Du) 39 in
      let Bso := lrotl (lxor Ama Da) 41 in
      let Bsu := lrotl (lxor Ase De) 2 in
      let Esa := lxor Bsa (landn Bse Bsi) in
      let Ese := lxor Bse (landn Bsi Bso) in
      let Esi := lxor Bsi (landn Bso Bsu) in
      let Eso := lxor Bso (landn Bsu Bsa) in
      let Esu := lxor Bsu (landn Bsa Bse) in

      [Eba; Ebe; Ebi; Ebo; Ebu; Ega; Ege; Egi; Ego; Egu; Eka; Eke; Eki; Eko; Eku;
       Ema; Eme; Emi; Emo; Emu; Esa; Ese; Esi; Eso; Esu]
  | _ => st
  end.

(** Modelled from the spec: [qsc_keccak_permute_p1600u], the unrolled
    permutation, whose body (sha3.c) is not part of the sources.  Its
    declaration in sha3.h takes the state only: the number of rounds is
    not an argument, and the 24 rounds of the standard permutation are
    written out one after the other, each with its constant. *)
Definition qsc_keccak_permute_p1600u (st : list W) : list W :=
  let st := round_unrolled (lconst 0x0000000000000001) st in
  let st := round_unrolled (lconst 0x0000000000008082) st in
  let st := round_unrolled (lconst 0x800000000000808A) st in
  let st := round_unrolled (lconst 0x8000000080008000) st in
  let st := round_unrolled (lconst 0x000000000000808B) st in
  let st := round_unrolled (lconst 0x0000000080000001) st in
  let st := round_unrolled (lconst 0x8000000080008081) st in
  let st := round_unrolled (lconst 0x8000000000008009) st in
  let st := round_unrolled (lconst 0x000000000000008A) st in
  let st := round_unrolled (lconst 0x0000000000000088) st in
  let st := round_unrolled (lconst 0x0000000080008009) st in
  let st := round_unrolled (lconst 0x000000008000000A) st in
  let st := round_unrolled (lconst 0x000000008000808B) st in
  let st := round_unrolled (lconst 0x800000000000008B) st in
  let st := round_unrolled (lconst 0x8000000000008089) st in
  let st := round_unrolled (lconst 0x8000000000008003) st in
  let st := round_unrolled (lconst 0x8000000000008002) st in
  let st := round_unrolled (lconst 0x8000000000000080) st in
  let st := round_unrolled (lconst 0x000000000000800A) st in
  let st := round_unrolled (lconst 0x800000008000000A) st in
  let st := round_unrolled (lconst 0x8000000080008081) st in
  let st := round_unrolled (lconst 0x8000000000008080) st in
  let st := round_unrolled (lconst 0x0000000080000001) st in
  let st := round_unrolled (lconst 0x8000000080008008) st in
  st.

End Unrolled.

(** *** Bytes and lanes *)

(** Modelled from the spec: the 64-bit word of the first eight bytes,
    little-endian (the byte order of the lanes in FIPS 202). *)
Definition le8to64 (b : list Z) : Z :=
  foldr (fun x acc => x + 256 * acc) 0 (take 8 b).

(** Modelled from the spec: the eight bytes of a 64-bit word,
    little-endian. *)
Definition le64to8 (w : Z) : list Z :=
  (fun i => Z.land (Z.shiftr w (8 * Z.of_nat i)) 0xFF) <$> seq 0 8.

(** Modelled from the spec: the words of a block of bytes. *)
Definition block_words (blk : list Z) : list Z :=
  (fun i => le8to64 (drop (8 * i) blk)) <$> seq 0 (length blk / 8).

(** Modelled from the spec: the bytes of a block of words. *)
Definition words_bytes (ws : list Z) : list Z :=
  mjoin (le64to8 <$> ws).

(** Modelled from the spec: the [k]-th block of [rate] bytes of a
    message. *)
Definition full_block (rate : nat) (msg : list Z) (k : nat) : list Z :=
  take rate (drop (k * rate) msg).

(** Modelled from the spec: the last block of an absorbed message
    (sha3.c is not part of the sources): the bytes left after the full
    blocks, then the domain byte, then zeros, with [0x80] set in the
    last byte of the block. *)
Definition final_block (rate : nat) (msg : list Z) (domain : Z) : list Z :=
  let rest := drop ((length msg / rate) * rate) msg in
  let blk := rest ++ [domain] ++ replicate (rate - length rest - 1) 0 in
  <[(rate - 1)%nat := Z.lor (nth (rate - 1) blk 0) 0x80]> blk.

(** *** The sponge, over any kind of lane *)

Section Sponge.

Context {W : Type} `{Lane W}.

(** Modelled from the spec: the zeroed state, before anything is
    absorbed. *)
Definition zero_state : list W := replicate 25 (lconst 0).

(** Modelled from the spec: [state[i] ^= block[i]] for the lanes of the
    block. *)
Fixpoint xor_block (st blk : list W) : list W :=
  match st, blk with
  | s :: st', b :: blk' => lxor s b :: xor_block st' blk'
  | _, _ => st
  end.

(** Modelled from the spec: absorption of blocks (sha3.c is not part of
    the sources): each block is combined into the state, and the state
    is permuted after it. *)
Definition absorb_blocks (st : list W) (blocks : list (list W)) (rounds : Z) : list W :=
  foldl (fun st blk => qsc_keccak_permute_p1600c (xor_block st blk) rounds) st blocks.

(** Modelled from the spec: extraction of [nblocks] blocks of [nwords]
    lanes from a state that has been permuted (sha3.c is not part of the
    sources); the state is permuted once before every block after the
    first.  Returns the blocks and the state. *)
Fixpoint squeeze_next (st : list W) (more : nat) (nwords : nat) (rounds : Z)
    : list (list W) * list W :=
  match more with
  | O => ([], st)
  | S more' =>
      let st' := qsc_keccak_permute_p1600c st rounds in
      let '(blocks, st'') := squeeze_next st' more' nwords rounds in
      (take nwords st' :: blocks, st'')
  end.

(** Modelled from the spec: the first block is taken from the state as
    it is, the others by [squeeze_next]. *)
Definition squeeze_blocks (st : list W) (nblocks : nat) (nwords : nat) (rounds : Z)
    : list (list W) * list W :=
  match nblocks with
  | O => ([], st)
  | S more =>
      let '(blocks, st') := squeeze_next st more nwords rounds in
      (take nwords st :: blocks, st')
  end.

End Sponge.

(** *** Single-lane functions

    A C array and its length are one list. *)

(** Modelled from the spec: the rate as a number of bytes. *)
Definition rate_nat (rate : qsc_keccak_rate) : nat := Z.to_nat (rate_bytes rate).

(** Modelled from the spec: the full blocks of a message, as words. *)
Definition full_blocks (rate : qsc_keccak_rate) (msg : list Z) : list (list Z) :=
  (fun k => block_words (full_block (rate_nat rate) msg k))
    <$> seq 0 (length msg / rate_nat rate).

(** Modelled from the spec: [qsc_keccak_initialize_state] (sha3.c is not
    part of the sources): the state is zeroed before first use. *)
Definition qsc_keccak_initialize_state (ctx : qsc_keccak_state) : qsc_keccak_state :=
  mk_keccak zero_state (replicate (Z.to_nat QSC_KECCAK_STATE_BYTE_SIZE) 0) 0.

(** Modelled from the spec: [qsc_keccak_absorb] (sha3.c is not part of
    the sources): the full blocks are absorbed, then the last block with
    the domain byte and the padding, each followed by a permutation. *)
Definition qsc_keccak_absorb (ctx : qsc_keccak_state) (rate : qsc_keccak_rate)
    (message : list Z) (domain : Z) (rounds : Z) : qsc_keccak_state :=
  let blocks := full_blocks rate message
                ++ [block_words (final_block (rate_nat rate) message domain)] in
  mk_keccak (absorb_blocks (state ctx) blocks rounds) (buffer ctx) (position ctx).

(** Modelled from the spec: [qsc_keccak_squeezeblocks] (sha3.c is not
    part of the sources).  Returns the state and the output bytes. *)
Definition qsc_keccak_squeezeblocks (ctx : qsc_keccak_state) (nblocks : Z)
    (rate : qsc_keccak_rate) (rounds : Z) : qsc_keccak_state * list Z :=
  let '(blocks, st) := squeeze_blocks (state ctx) (Z.to_nat nblocks)
                         (rate_nat rate / 8) rounds in
  (mk_keccak st (buffer ctx) (position ctx), mjoin (words_bytes <$> blocks)).

(** **** Encodings of NIST SP 800-185 *)

(** Modelled from the spec: the big-endian bytes of [x], at least
    one. *)
Definition be_bytes (x : Z) : list Z :=
  let n := Z.to_nat (Z.max 1 ((Z.log2 x) / 8 + 1)) in
  (fun i => Z.land (Z.shiftr x (8 * Z.of_nat (n - 1 - i))) 0xFF) <$> seq 0 n.

(** Modelled from the spec: [left_encode] of NIST SP 800-185, the
    number of bytes before the bytes. *)
Definition left_encode (x : Z) : list Z :=
  Z.of_nat (length (be_bytes x)) :: be_bytes x.

(** Modelled from the spec: [right_encode] of NIST SP 800-185, the
    number of bytes after the bytes. *)
Definition right_encode (x : Z) : list Z :=
  be_bytes x ++ [Z.of_nat (length (be_bytes x))].

(** Modelled from the spec: [encode_string] of NIST SP 800-185, a
    string after its left-encoded length in bits. *)
Definition encode_string (s : list Z) : list Z :=
  left_encode (8 * Z.of_nat (length s)) ++ s.

(** Modelled from the spec: [bytepad] of NIST SP 800-185,
    [left_encode(w) || x] filled with zeros to a multiple of [w]. *)
Definition bytepad (x : list Z) (w : nat) : list Z :=
  let z := left_encode (Z.of_nat w) ++ x in
  z ++ replicate ((w - length z mod w) mod w) 0.

(** **** SHA3 *)

(** Modelled from the spec: [qsc_sha3_compute256] (sha3.c is not part
    of the sources): the message is absorbed with the SHA3 domain byte
    and the 32 bytes of the hash are taken from the first block. *)
Definition qsc_sha3_compute256 (message : list Z) : list Z :=
  let ctx := qsc_keccak_initialize_state (mk_keccak [] [] 0) in
  let ctx := qsc_keccak_absorb ctx qsc_keccak_rate_256 message
               QSC_KECCAK_SHA3_DOMAIN_ID QSC_KECCAK_PERMUTATION_ROUNDS in
  take (Z.to_nat QSC_SHA3_256_HASH_SIZE)
    (snd (qsc_keccak_squeezeblocks ctx 1 qsc_keccak_rate_256 QSC_KECCAK_PERMUTATION_ROUNDS)).

(** **** SHAKE *)

(** Modelled from the spec: [qsc_shake_initialize] (sha3.c is not part
    of the sources): the state is zeroed and the key is absorbed with
    the SHAKE domain byte and the padding. *)
Definition qsc_shake_initialize (ctx : qsc_keccak_state) (rate : qsc_keccak_rate)
    (key : list Z) : qsc_keccak_state :=
  qsc_keccak_absorb (qsc_keccak_initialize_state ctx) rate key
    QSC_KECCAK_SHAKE_DOMAIN_ID QSC_KECCAK_PERMUTATION_ROUNDS.

(** Modelled from the spec: [qsc_shake_squeezeblocks] (sha3.c is not
    part of the sources). *)
Definition qsc_shake_squeezeblocks (ctx : qsc_keccak_state) (rate : qsc_keccak_rate)
    (nblocks : Z) : qsc_keccak_state * list Z :=
  qsc_keccak_squeezeblocks ctx nblocks rate QSC_KECCAK_PERMUTATION_ROUNDS.

(** Modelled from the spec: the number of blocks that hold [outlen]
    bytes. *)
Definition blocks_for (rate : qsc_keccak_rate) (outlen : Z) : Z :=
  (outlen + rate_bytes rate - 1) / rate_bytes rate.

(** Modelled from the spec: [qsc_shake128_compute],
    [qsc_shake256_compute] and [qsc_shake512_compute] (sha3.c is not
    part of the sources), for the rate of each: the key is absorbed,
    the blocks are extracted and the output is cut to [outlen] bytes. *)
Definition qsc_shake_compute (rate : qsc_keccak_rate) (outlen : Z) (key : list Z)
    : list Z :=
  let ctx := qsc_shake_initialize (mk_keccak [] [] 0) rate key in
  take (Z.to_nat outlen) (snd (qsc_shake_squeezeblocks ctx rate (blocks_for rate outlen))).

(** Modelled from the spec: [qsc_shake128_compute]. *)
Definition qsc_shake128_compute := qsc_shake_compute qsc_keccak_rate_128.

(** Modelled from the spec: [qsc_shake256_compute]. *)
Definition qsc_shake256_compute := qsc_shake_compute qsc_keccak_rate_256.

(** Modelled from the spec: [qsc_shake512_compute]. *)
Definition qsc_shake512_compute := qsc_shake_compute qsc_keccak_rate_512.

(** **** cSHAKE *)

(** Modelled from the spec: [qsc_keccak_absorb_custom] (sha3.c is not
    part of the sources): the function name and the customization
    string, each with its left-encoded length, filled to whole blocks
    and absorbed. *)
Definition qsc_keccak_absorb_custom (ctx : qsc_keccak_state) (rate : qsc_keccak_rate)
    (custom name : list Z) (rounds : Z) : qsc_keccak_state :=
  let prefix := bytepad (encode_string name ++ encode_string custom) (rate_nat rate) in
  mk_keccak (absorb_blocks (state ctx) (full_blocks rate prefix) rounds)
    (buffer ctx) (position ctx).

(** Modelled from the spec: [qsc_cshake_initialize] (sha3.c is not part
    of the sources): like SHAKE, with the name and the customization
    string absorbed before the key, and plain SHAKE when both are
    empty. *)
Definition qsc_cshake_initialize (ctx : qsc_keccak_state) (rate : qsc_keccak_rate)
    (key name custom : list Z) : qsc_keccak_state :=
  if (length name + length custom =? 0)%nat
  then qsc_shake_initialize ctx rate key
  else
    let ctx := qsc_keccak_initialize_state ctx in
    let ctx := qsc_keccak_absorb_custom ctx rate custom name
                 QSC_KECCAK_PERMUTATION_ROUNDS in
    qsc_keccak_absorb ctx rate key QSC_KECCAK_CSHAKE_DOMAIN_ID
      QSC_KECCAK_PERMUTATION_ROUNDS.

(** Modelled from the spec: [qsc_cshake_squeezeblocks] (sha3.c is not
    part of the sources). *)
Definition qsc_cshake_squeezeblocks (ctx : qsc_keccak_state) (rate : qsc_keccak_rate)
    (nblocks : Z) : qsc_keccak_state * list Z :=
  qsc_keccak_squeezeblocks ctx nblocks rate QSC_KECCAK_PERMUTATION_ROUNDS.

(** Modelled from the spec: [qsc_cshake128_compute],
    [qsc_cshake256_compute] and [qsc_cshake512_compute] (sha3.c is not
    part of the sources), for the rate of each. *)
Definition qsc_cshake_compute (rate : qsc_keccak_rate) (outlen : Z)
    (key name custom : list Z) : list Z :=
  let ctx := qsc_cshake_initialize (mk_keccak [] [] 0) rate key name custom in
  take (Z.to_nat outlen) (snd (qsc_cshake_squeezeblocks ctx rate (blocks_for rate outlen))).

(** Modelled from the spec: [qsc_cshake128_compute]. *)
Definition qsc_cshake128_compute := qsc_cshake_compute qsc_keccak_rate_128.

(** Modelled from the spec: [qsc_cshake256_compute]. *)
Definition qsc_cshake256_compute := qsc_cshake_compute qsc_keccak_rate_256.

(** Modelled from the spec: [qsc_cshake512_compute]. *)
Definition qsc_cshake512_compute := qsc_cshake_compute qsc_keccak_rate_512.

(** **** KMAC *)

(** Modelled from the spec: the function name of KMAC, the bytes of
    KMAC (NIST SP 800-185). *)
Definition KMAC_NAME : list Z := [0x4B; 0x4D; 0x41; 0x43].

(** Modelled from the spec: [qsc_kmac128_compute], [qsc_kmac256_compute]
    and [qsc_kmac512_compute] (sha3.c is not part of the sources), for
    the rate of each: the name and the customization string are
    absorbed, then the key block, then the message followed by the
    right-encoded output length in bits, with the KMAC domain byte. *)
Definition qsc_kmac_compute (rate : qsc_keccak_rate) (outlen : Z)
    (message key custom : list Z) : list Z :=
  let ctx := qsc_keccak_initialize_state (mk_keccak [] [] 0) in
  let ctx := qsc_keccak_absorb_custom ctx rate custom KMAC_NAME
               QSC_KECCAK_PERMUTATION_ROUNDS in
  let keyblock := bytepad (encode_string key) (rate_nat rate) in
  let ctx := mk_keccak (absorb_blocks (state ctx) (full_blocks rate keyblock)
                          QSC_KECCAK_PERMUTATION_ROUNDS)
               (buffer ctx) (position ctx) in
  let ctx := qsc_keccak_absorb ctx rate (message ++ right_encode (8 * outlen))
               QSC_KECCAK_KMAC_DOMAIN_ID QSC_KECCAK_PERMUTATION_ROUNDS in
  take (Z.to_nat outlen)
    (snd (qsc_keccak_squeezeblocks ctx (blocks_for rate outlen) rate
            QSC_KECCAK_PERMUTATION_ROUNDS)).

(** Modelled from the spec: [qsc_kmac128_compute]. *)
Definition qsc_kmac128_compute := qsc_kmac_compute qsc_keccak_rate_128.

(** Modelled from the spec: [qsc_kmac256_compute]. *)
Definition qsc_kmac256_compute := qsc_kmac_compute qsc_keccak_rate_256.

(** Modelled from the spec: [qsc_kmac512_compute]. *)
Definition qsc_kmac512_compute := qsc_kmac_compute qsc_keccak_rate_512.

(** The customization string of the first cSHAKE sample of NIST
    SP 800-185, "Email Signature". *)
Definition sample_custom : list Z :=
  [0x45; 0x6d; 0x61; 0x69; 0x6c; 0x20; 0x53; 0x69; 0x67; 0x6e; 0x61; 0x74; 0x75; 0x72; 0x65].

(** *** Multi-lane functions (x4 and x8)

    The state of [n] simultaneous instances is an array of 25 vector
    lanes; element [j] of every vector belongs to instance [j].  The
    arrays of the instances have a common length, passed once. *)

Section MultiLane.

Context {n : nat}.

(** Modelled from the spec: the vector lanes of a block: lane [i] holds,
    for each instance, the [i]-th word of its block. *)
Definition pack_words (ws : vec (list Z) n) (nwords : nat) : list (vec Z n) :=
  (fun i => vmap (fun w => nth i w 0) ws) <$> seq 0 nwords.

(** Modelled from the spec: the output bytes of instance [j]. *)
Definition unpack_bytes (blocks : list (list (vec Z n))) (j : fin n) : list Z :=
  mjoin ((fun blk => words_bytes ((fun v => v !!! j) <$> blk)) <$> blocks).

(** Modelled from the spec: the full blocks of [len] bytes of every
    instance. *)
Definition full_blocks_xn (rate : qsc_keccak_rate) (msgs : vec (list Z) n) (len : nat)
    : list (list (vec Z n)) :=
  (fun k => pack_words (vmap (fun m => block_words (full_block (rate_nat rate) m k)) msgs)
              (rate_nat rate / 8))
    <$> seq 0 (len / rate_nat rate).

(** Modelled from the spec: [qsc_keccakx4_absorb] and
    [qsc_keccakx8_absorb] (sha3.c is not part of the sources): the
    instances absorb their inputs in lock-step, one permutation of the
    vector state after each block. *)
Definition qsc_keccakxn_absorb (st : list (vec Z n)) (rate : qsc_keccak_rate)
    (inp : vec (list Z) n) (inplen : Z) (domain : Z) : list (vec Z n) :=
  let msgs := vmap (take (Z.to_nat inplen)) inp in
  let last := vmap (fun m => block_words (final_block (rate_nat rate) m domain)) msgs in
  absorb_blocks st
    (full_blocks_xn rate msgs (Z.to_nat inplen) ++ [pack_words last (rate_nat rate / 8)])
    QSC_KECCAK_PERMUTATION_ROUNDS.

(** Modelled from the spec: [qsc_keccakx4_squeezeblocks] and
    [qsc_keccakx8_squeezeblocks] (sha3.c is not part of the sources).
    Returns the state and the output of every instance. *)
Definition qsc_keccakxn_squeezeblocks (st : list (vec Z n)) (rate : qsc_keccak_rate)
    (nblocks : Z) : list (vec Z n) * vec (list Z) n :=
  let '(blocks, st') := squeeze_blocks st (Z.to_nat nblocks) (rate_nat rate / 8)
                          QSC_KECCAK_PERMUTATION_ROUNDS in
  (st', fun_to_vec (unpack_bytes blocks)).

(** Modelled from the spec: the multi-lane SHAKE functions (sha3.c is
    not part of the sources). *)
Definition shake_xn (rate : qsc_keccak_rate) (outlen : Z)
    (inp : vec (list Z) n) (inplen : Z) : vec (list Z) n :=
  let st := qsc_keccakxn_absorb zero_state rate inp inplen QSC_KECCAK_SHAKE_DOMAIN_ID in
  vmap (take (Z.to_nat outlen))
    (snd (qsc_keccakxn_squeezeblocks st rate (blocks_for rate outlen))).

(** Modelled from the spec: the lengths of the encodings, which depend
    on the lengths of the strings only. *)
Definition encode_string_len (slen : nat) : nat :=
  (length (left_encode (8 * Z.of_nat slen)) + slen)%nat.

(** Modelled from the spec: the length of [bytepad] of [xlen] bytes. *)
Definition bytepad_len (xlen w : nat) : nat :=
  let z := (length (left_encode (Z.of_nat w)) + xlen)%nat in
  (z + (w - z mod w) mod w)%nat.

(** Modelled from the spec: the multi-lane KMAC functions (sha3.c is
    not part of the sources): name and customization strings, key
    blocks, then messages and output length, all in lock-step. *)
Definition kmac_xn (rate : qsc_keccak_rate) (outlen : Z)
    (key : vec (list Z) n) (keylen : Z) (cst : vec (list Z) n) (cstlen : Z)
    (msg : vec (list Z) n) (msglen : Z) : vec (list Z) n :=
  let w := rate_nat rate in
  let prefix := vmap (fun c => bytepad (encode_string KMAC_NAME
                                          ++ encode_string (take (Z.to_nat cstlen) c)) w) cst in
  let st := absorb_blocks zero_state
              (full_blocks_xn rate prefix
                 (bytepad_len (encode_string_len (length KMAC_NAME)
                               + encode_string_len (Z.to_nat cstlen)) w))
              QSC_KECCAK_PERMUTATION_ROUNDS in
  let keyblock := vmap (fun k => bytepad (encode_string (take (Z.to_nat keylen) k)) w) key in
  let st := absorb_blocks st
              (full_blocks_xn rate keyblock
                 (bytepad_len (encode_string_len (Z.to_nat keylen)) w))
              QSC_KECCAK_PERMUTATION_ROUNDS in
  let tail := vmap (fun m => take (Z.to_nat msglen) m ++ right_encode (8 * outlen)) msg in
  let st := qsc_keccakxn_absorb st rate tail
              (Z.of_nat (Z.to_nat msglen + length (right_encode (8 * outlen))))
              QSC_KECCAK_KMAC_DOMAIN_ID in
  vmap (take (Z.to_nat outlen))
    (snd (qsc_keccakxn_squeezeblocks st rate (blocks_for rate outlen))).

End MultiLane.

(** **** The functions declared in sha3.h

    Their bodies, in sha3.c, are not part of the sources.  The outputs
    [out0], [out1], ... are returned as a vector; the x8 KMAC functions
    take their eight keys, customization strings and messages as
    vectors. *)

(** Modelled from the spec: [shake128x4], four instances of SHAKE-128. *)
Definition shake128x4 (outlen : Z) (inp0 inp1 inp2 inp3 : list Z) (inplen : Z) :=
  shake_xn qsc_keccak_rate_128 outlen [# inp0; inp1; inp2; inp3] inplen.

(** Modelled from the spec: [shake256x4], four instances of SHAKE-256. *)
Definition shake256x4 (outlen : Z) (inp0 inp1 inp2 inp3 : list Z) (inplen : Z) :=
  shake_xn qsc_keccak_rate_256 outlen [# inp0; inp1; inp2; inp3] inplen.

(** Modelled from the spec: [shake512x4], four instances of SHAKE-512. *)
Definition shake512x4 (outlen : Z) (inp0 inp1 inp2 inp3 : list Z) (inplen : Z) :=
  shake_xn qsc_keccak_rate_512 outlen [# inp0; inp1; inp2; inp3] inplen.

(** Modelled from the spec: [shake128x8], eight instances of SHAKE-128. *)
Definition shake128x8 (outlen : Z) (inp0 inp1 inp2 inp3 inp4 inp5 inp6 inp7 : list Z)
    (inplen : Z) :=
  shake_xn qsc_keccak_rate_128 outlen
    [# inp0; inp1; inp2; inp3; inp4; inp5; inp6; inp7] inplen.

(** Modelled from the spec: [shake256x8], eight instances of SHAKE-256. *)
Definition shake256x8 (outlen : Z) (inp0 inp1 inp2 inp3 inp4 inp5 inp6 inp7 : list Z)
    (inplen : Z) :=
  shake_xn qsc_keccak_rate_256 outlen
    [# inp0; inp1; inp2; inp3; inp4; inp5; inp6; inp7] inplen.

(** Modelled from the spec: [shake512x8], eight instances of SHAKE-512. *)
Definition shake512x8 (outlen : Z) (inp0 inp1 inp2 inp3 inp4 inp5 inp6 inp7 : list Z)
    (inplen : Z) :=
  shake_xn qsc_keccak_rate_512 outlen
    [# inp0; inp1; inp2; inp3; inp4; inp5; inp6; inp7] inplen.

(** Modelled from the spec: [kmac128x4], four instances of KMAC-128. *)
Definition kmac128x4 (outlen : Z) (key0 key1 key2 key3 : list Z) (keylen : Z)
    (cst0 cst1 cst2 cst3 : list Z) (cstlen : Z)
    (msg0 msg1 msg2 msg3 : list Z) (msglen : Z) :=
  kmac_xn qsc_keccak_rate_128 outlen [# key0; key1; key2; key3] keylen
    [# cst0; cst1; cst2; cst3] cstlen [# msg0; msg1; msg2; msg3] msglen.

(** Modelled from the spec: [kmac256x4], four instances of KMAC-256. *)
Definition kmac256x4 (outlen : Z) (key0 key1 key2 key3 : list Z) (keylen : Z)
    (cst0 cst1 cst2 cst3 : list Z) (cstlen : Z)
    (msg0 msg1 msg2 msg3 : list Z) (msglen : Z) :=
  kmac_xn qsc_keccak_rate_256 outlen [# key0; key1; key2; key3] keylen
    [# cst0; cst1; cst2; cst3] cstlen [# msg0; msg1; msg2; msg3] msglen.

(** Modelled from the spec: [kmac512x4], four instances of KMAC-512. *)
Definition kmac512x4 (outlen : Z) (key0 key1 key2 key3 : list Z) (keylen : Z)
    (cst0 cst1 cst2 cst3 : list Z) (cstlen : Z)
    (msg0 msg1 msg2 msg3 : list Z) (msglen : Z) :=
  kmac_xn qsc_keccak_rate_512 outlen [# key0; key1; key2; key3] keylen
    [# cst0; cst1; cst2; cst3] cstlen [# msg0; msg1; msg2; msg3] msglen.

(** Modelled from the spec: [kmac128x8], eight instances of KMAC-128. *)
Definition kmac128x8 (outlen : Z) (key cst msg : vec (list Z) 8) (keylen cstlen msglen : Z) :=
  kmac_xn qsc_keccak_rate_128 outlen key keylen cst cstlen msg msglen.

(** Modelled from the spec: [kmac256x8], eight instances of KMAC-256. *)
Definition kmac256x8 (outlen : Z) (key cst msg : vec (list Z) 8) (keylen cstlen msglen : Z) :=
  kmac_xn qsc_keccak_rate_256 outlen key keylen cst cstlen msg msglen.

(** Modelled from the spec: [kmac512x8], eight instances of KMAC-512. *)
Definition kmac512x8 (outlen : Z) (key cst msg : vec (list Z) 8) (keylen cstlen msglen : Z) :=
  kmac_xn qsc_keccak_rate_512 outlen key keylen cst cstlen msg msglen.
(** *** Key sizes (sha3.h) *)

Definition QSC_KMAC_256_KEY_SIZE : Z := 32.
Definition QSC_KMAC_512_KEY_SIZE : Z := 64.
Definition QSC_SHAKE_256_KEY_SIZE : Z := 32.
Definition QSC_SHAKE512_KEY_SIZE : Z := 64.
Definition QSC_KPA_128_KEY_SIZE : Z := 16.
Definition QSC_KPA_256_KEY_SIZE : Z := 32.
Definition QSC_KPA_512_KEY_SIZE : Z := 64.

(** The size of the message buffer of [qsc_kpa_state]:
    [QSC_KPA_PARALLELISM * QSC_KECCAK_STATE_BYTE_SIZE]. *)
Definition kpa_buffer_size : Z := QSC_KPA_PARALLELISM * QSC_KECCAK_STATE_BYTE_SIZE.


End Sha3.

(** * Properties *)

(** ** The outcome monad *)

Lemma bind_Ret {A B : Type} (a : A) (k : A -> outcome B) :
  (Ret a ≫= k) = k a.
Proof. reflexivity. Qed.

Lemma bind_Undef {A B : Type} (f : fault) (k : A -> outcome B) :
  (Undef f ≫= k) = Undef f.
Proof. reflexivity. Qed.

Lemma bind_Ret_inv {A B : Type} (m : outcome A) (k : A -> outcome B) (b : B) :
  (m ≫= k) = Ret b -> exists a, m = Ret a /\ k a = Ret b.
Proof. destruct m as [a|f]; [eauto | discriminate]. Qed.

(** Splits a hypothesis [x ← m; k x = Ret b] into [m = Ret a] and
    [k a = Ret b], repeatedly. *)
Ltac bind_inv H :=
  repeat match type of H with
  | (mbind _ _) = Ret _ =>
      let a := fresh "a" in
      let Ha := fresh "Ha" in
      apply bind_Ret_inv in H; destruct H as (a & Ha & H)
  | (let '(_, _) := ?p in _) = Ret _ => destruct p
  end.

Lemma for_each_app {S : Type} (body : nat -> S -> outcome S) (l1 l2 : list nat) (s : S) :
  for_each body (l1 ++ l2) s = (for_each body l1 s ≫= for_each body l2).
Proof.
  revert s; induction l1 as [|i l1 IH]; intros s; simpl; [reflexivity|].
  destruct (body i s) as [s'|f]; simpl; [apply IH | reflexivity].
Qed.

(** A property kept by every iteration is kept by the loop. *)
Lemma for_each_invariant {S : Type} (P : S -> Prop) (body : nat -> S -> outcome S)
    (idx : list nat) (s s' : S) :
  (forall i x y, P x -> body i x = Ret y -> P y) ->
  P s -> for_each body idx s = Ret s' -> P s'.
Proof.
  intros Hstep. revert s. induction idx as [|i idx IH]; simpl; intros s Hs H.
  - congruence.
  - apply bind_Ret_inv in H as (y & Hy & H). eauto.
Qed.

(** ** Memory helpers *)

Lemma size_wrap_small (z : Z) : 0 <= z <= SIZE_MAX -> size_wrap z = z.
Proof. unfold size_wrap, SIZE_MAX. intros H. apply Z.mod_small. lia. Qed.

Lemma array_store_Ret {A : Type} (a : list A) (i : Z) (x : A) :
  0 <= i < Z.of_nat (length a) ->
  array_store a i x = Ret (<[Z.to_nat i := x]> a).
Proof.
  intros H. unfold array_store.
  destruct (i <? Z.of_nat (length a)) eqn:E; [reflexivity | lia].
Qed.

Lemma array_store_length {A : Type} (a a' : list A) (i : Z) (x : A) :
  array_store a i x = Ret a' -> length a' = length a.
Proof.
  unfold array_store. destruct (i <? _); [|discriminate].
  intros [= <-]. apply length_insert.
Qed.

Lemma array_load_Ret {A : Type} (a : list A) (i : Z) (x : A) :
  a !! Z.to_nat i = Some x -> array_load a i = Ret x.
Proof. intros H. unfold array_load. rewrite H. reflexivity. Qed.

Lemma qsc_memutils_copy_Ret (dst src : list Z) (len : Z) :
  len <= Z.of_nat (length dst) -> len <= Z.of_nat (length src) ->
  qsc_memutils_copy dst src len
  = Ret (take (Z.to_nat len) src ++ drop (Z.to_nat len) dst).
Proof.
  intros H1 H2. unfold qsc_memutils_copy.
  destruct (len <=? Z.of_nat (length dst)) eqn:E1; [|lia].
  destruct (len <=? Z.of_nat (length src)) eqn:E2; [reflexivity | lia].
Qed.

Lemma qsc_memutils_copy_length (dst src out : list Z) (len : Z) :
  qsc_memutils_copy dst src len = Ret out -> length out = length dst.
Proof.
  unfold qsc_memutils_copy.
  destruct (len <=? Z.of_nat (length dst)) eqn:E1; [|discriminate].
  destruct (len <=? Z.of_nat (length src)) eqn:E2; [|discriminate].
  simpl. intros [= <-].
  rewrite length_app, length_take, length_drop. lia.
Qed.

Lemma qsc_memutils_clear_length (buf out : list Z) (len : Z) :
  qsc_memutils_clear buf len = Ret out -> length out = length buf.
Proof.
  unfold qsc_memutils_clear.
  destruct (len <=? Z.of_nat (length buf)) eqn:E1; [|discriminate].
  intros [= <-].
  rewrite length_app, length_replicate, length_drop. lia.
Qed.

(** Clearing a whole buffer leaves zeros only. *)
Lemma qsc_memutils_clear_all (buf : list Z) :
  qsc_memutils_clear buf (Z.of_nat (length buf))
  = Ret (replicate (length buf) 0).
Proof.
  unfold qsc_memutils_clear.
  destruct (_ <=? _) eqn:E; [|lia].
  rewrite Nat2Z.id, drop_all, app_nil_r. reflexivity.
Qed.

(** ** Shifting an array down *)

Section Shift.

Context {A : Type}.
Implicit Types l p r : list A.

Lemma shift_range_0 (j : nat) l : shift_range j 0 l = l.
Proof. unfold shift_range. simpl. rewrite Nat.add_0_r. apply take_drop. Qed.

Lemma shift_range_length (j m : nat) l :
  (S j + m <= length l)%nat -> length (shift_range j m l) = length l.
Proof.
  intros H. unfold shift_range.
  rewrite !length_app, !length_take, !length_drop. lia.
Qed.

(** One iteration of the loop: after [l[j] = l[j + 1]], moving the [m]
    elements after [j + 1] is moving the [m + 1] elements after [j]. *)
Lemma shift_range_step (j m : nat) l (a b : A) :
  l !! j = Some a -> l !! S j = Some b ->
  shift_range (S j) m (<[j := b]> l) = shift_range j (S m) l.
Proof.
  intros Ha Hb.
  assert (Hj : (j < length l)%nat) by (eapply lookup_lt_Some; eassumption).
  assert (Hl : l = take j l ++ a :: b :: drop (S (S j)) l).
  { rewrite <- (take_drop_middle l j a Ha) at 1.
    rewrite (drop_S l b (S j) Hb). reflexivity. }
  assert (Hp : length (take j l) = j) by (rewrite length_take; lia).
  revert Hl Hp. generalize (take j l) (drop (S (S j)) l). intros p r -> <-.
  unfold shift_range.
  replace (<[length p := b]> (p ++ a :: b :: r)) with (p ++ b :: b :: r)
    by (rewrite <- (Nat.add_0_r (length p)) at 1; rewrite insert_app_r; reflexivity).
  replace (S (length p)) with (length p + 1)%nat by lia.
  replace (S (length p + 1)) with (length p + 2)%nat by lia.
  replace (length p + 1 + m)%nat with (length p + S m)%nat by lia.
  rewrite !take_app_add, !drop_app_add, take_app_length. simpl.
  rewrite <- !app_assoc. reflexivity.
Qed.

(** The whole of [qsc_queue_pop] on an array: the first element is
    overwritten, the other elements are moved down, and the last of the
    [n] places is overwritten. *)
Lemma shift_down_range (n : nat) (z0 z : A) l :
  (1 <= n <= length l)%nat ->
  <[(n - 1)%nat := z]> (shift_range 0 (n - 1) (<[0%nat := z0]> l)) = shift_down n z l.
Proof.
  intros Hn. unfold shift_range, shift_down.
  destruct l as [|x l]; [simpl in Hn; lia|].
  destruct n as [|[|n]]; [lia | reflexivity |].
  simpl in *. rewrite !drop_0.
  assert (Hlen : length (take (S n) l) = S n) by (rewrite length_take; lia).
  rewrite <- Hlen at 1.
  rewrite <- (Nat.add_0_r (length (take (S n) l))).
  rewrite insert_app_r. f_equal.
  destruct (drop n l) as [|y k] eqn:E.
  - apply (f_equal length) in E. rewrite length_drop in E. simpl in E. lia.
  - simpl. f_equal.
    replace (S n) with (n + 1)%nat by lia.
    rewrite <- drop_drop, E. reflexivity.
Qed.

Lemma shift_down_length (n : nat) (z : A) l :
  (1 <= n <= length l)%nat -> length (shift_down n z l) = length l.
Proof.
  intros H. unfold shift_down.
  rewrite length_app, length_take, length_drop. simpl. rewrite length_drop. lia.
Qed.

(** Where the elements end up. *)
Lemma shift_down_lookup (n : nat) (z : A) l (i : nat) :
  (1 <= n <= length l)%nat ->
  shift_down n z l !! i
  = if decide (i < n - 1)%nat then l !! S i
    else if decide (i = n - 1)%nat then Some z
    else l !! i.
Proof.
  intros H. unfold shift_down.
  assert (Hlen : length (take (n - 1) (drop 1 l)) = (n - 1)%nat).
  { rewrite length_take, length_drop. lia. }
  destruct (decide (i < n - 1)%nat) as [Hi|Hi].
  - rewrite lookup_app_l by lia.
    rewrite lookup_take_lt, lookup_drop by lia. reflexivity.
  - rewrite lookup_app_r by lia. rewrite Hlen.
    destruct (decide (i = n - 1)%nat) as [->|Hne].
    + rewrite Nat.sub_diag. reflexivity.
    + destruct (i - (n - 1))%nat as [|k] eqn:E; [lia|]. simpl.
      rewrite lookup_drop. f_equal. lia.
Qed.

End Shift.

(** ** The queue *)

Module QueueFacts.
Import Queue.

Section WithMaxDepth.

Variable QSC_QUEUE_MAX_DEPTH : Z.

Local Abbreviation queue_ok := (queue_ok QSC_QUEUE_MAX_DEPTH).
Local Abbreviation qsc_queue_initialize := (qsc_queue_initialize QSC_QUEUE_MAX_DEPTH).
Local Abbreviation qsc_queue_flush := (qsc_queue_flush QSC_QUEUE_MAX_DEPTH).
Local Abbreviation qsc_queue_destroy := (qsc_queue_destroy QSC_QUEUE_MAX_DEPTH).
Local Abbreviation reachable_from := (reachable_from QSC_QUEUE_MAX_DEPTH).
Local Abbreviation queue_step := (queue_step QSC_QUEUE_MAX_DEPTH).

(** Slot access on an allocated array. *)
Lemma slot_mem_Ret (slots : list (option (list Z))) (i : Z) (b : list Z) :
  slots !! Z.to_nat i = Some (Some b) -> slot_mem (QMem slots) i = Ret b.
Proof.
  intros H. unfold slot_mem, slot_ptr.
  rewrite (array_load_Ret _ _ _ H). reflexivity.
Qed.

Lemma slot_store_Ret (slots : list (option (list Z))) (i : Z) (b : list Z) :
  0 <= i < Z.of_nat (length slots) ->
  slot_store (QMem slots) i b = Ret (QMem (<[Z.to_nat i := Some b]> slots)).
Proof.
  intros H. unfold slot_store. rewrite array_store_Ret by assumption. reflexivity.
Qed.

(** What [queue_ok] says, as propositions. *)
Lemma queue_ok_spec (ctx : qsc_queue_state) :
  queue_ok ctx = true ->
  exists slots,
    queue ctx = QMem slots
    /\ Z.of_nat (length slots) = depth ctx
    /\ (forall i s, slots !! i = Some s ->
          exists b, s = Some b /\ Z.of_nat (length b) = width ctx)
    /\ Z.of_nat (length (tags ctx)) = QSC_QUEUE_MAX_DEPTH
    /\ depth ctx <= QSC_QUEUE_MAX_DEPTH
    /\ depth ctx <= SIZE_MAX
    /\ 0 <= width ctx <= SIZE_MAX
    /\ 0 <= count ctx <= depth ctx
    /\ count ctx = position ctx.
Proof.
  unfold Queue.queue_ok. intros H.
  repeat (apply andb_prop in H as [H ?]).
  destruct (queue ctx) as [| |slots]; try discriminate.
  apply andb_prop in H as [Hlen Hall].
  exists slots. repeat split; try lia.
  intros i s Hi.
  rewrite forallb_forall in Hall.
  assert (Hin : In s slots) by (apply list_elem_of_In, list_elem_of_lookup; eauto).
  specialize (Hall s Hin). destruct s as [b|]; [|discriminate].
  exists b. split; [reflexivity|]. simpl in Hall. lia.
Qed.

(** *** Rejected calls *)

Lemma qsc_queue_push_rejected (ctx : qsc_queue_state) (input : list Z) (inlen tag : Z) :
  qsc_queue_isfull ctx = true \/ width ctx < inlen ->
  qsc_queue_push ctx input inlen tag = Ret ctx.
Proof.
  intros [H|H]; unfold qsc_queue_push.
  - rewrite H. reflexivity.
  - destruct (inlen <=? width ctx) eqn:E; [lia|].
    rewrite andb_false_r. reflexivity.
Qed.

(** *** Accepted push *)

Lemma qsc_queue_push_accepted (ctx : qsc_queue_state) (input : list Z) (inlen tag : Z) :
  queue_ok ctx = true ->
  qsc_queue_isfull ctx = false ->
  inlen <= width ctx ->
  0 <= inlen <= Z.of_nat (length input) ->
  exists slots b,
    queue ctx = QMem slots
    /\ slots !! Z.to_nat (position ctx) = Some (Some b)
    /\ qsc_queue_push ctx input inlen tag
       = Ret (mk_queue
                (QMem (<[Z.to_nat (position ctx) :=
                           Some (take (Z.to_nat inlen) input ++ drop (Z.to_nat inlen) b)]> slots))
                (<[Z.to_nat (position ctx) := tag]> (tags ctx))
                (count ctx + 1) (depth ctx) (position ctx + 1) (width ctx)).
Proof.
  intros Hok Hfull Hw Hin.
  destruct (queue_ok_spec ctx Hok)
    as (slots & Hq & Hlen & Hslots & Htags & Hd & Hmax & Hwidth & Hcount & Hpos).
  unfold qsc_queue_isfull in Hfull. apply Z.eqb_neq in Hfull.
  assert (Hlt : (Z.to_nat (position ctx) < length slots)%nat) by lia.
  destruct (lookup_lt_is_Some_2 slots _ Hlt) as [s Hs].
  destruct (Hslots _ _ Hs) as (b & -> & Hb).
  exists slots, b. split; [assumption|]. split; [assumption|].
  unfold qsc_queue_push, qsc_queue_isfull.
  destruct (count ctx =? depth ctx) eqn:E1; [lia|].
  destruct (inlen <=? width ctx) eqn:E2; [|lia]. simpl.
  rewrite Hq, (slot_mem_Ret _ _ _ Hs), bind_Ret.
  rewrite qsc_memutils_copy_Ret, bind_Ret by lia.
  rewrite slot_store_Ret, bind_Ret by lia.
  rewrite array_store_Ret, bind_Ret by lia.
  rewrite !size_wrap_small by lia. reflexivity.
Qed.

(** When the guard of [qsc_queue_pop] fails nothing is done. *)
Lemma qsc_queue_pop_skipped (ctx : qsc_queue_state) (output : list Z) (outlen : Z) :
  negb (qsc_queue_isempty ctx) && (outlen <=? width ctx) = false ->
  qsc_queue_pop ctx output outlen = Ret (ctx, output, 0).
Proof. intros H. unfold qsc_queue_pop. rewrite H. reflexivity. Qed.

(** *** Accepted pop *)

(** Every slot is allocated and has [w] bytes. *)
Local Abbreviation slots_wf w :=
  (Forall (fun s : option (list Z) => exists b, s = Some b /\ Z.of_nat (length b) = w)).

Lemma queue_ok_slots_wf (ctx : qsc_queue_state) (slots : list (option (list Z))) :
  queue_ok ctx = true -> queue ctx = QMem slots -> slots_wf (width ctx) slots.
Proof.
  intros Hok Hq. destruct (queue_ok_spec ctx Hok) as (slots' & Hq' & _ & Hs & _).
  rewrite Hq in Hq'. injection Hq' as <-.
  apply Forall_lookup. exact Hs.
Qed.

(** One iteration of the loop of [qsc_queue_pop]. *)
Lemma pop_shift_step (w : Z) (slots : list (option (list Z))) (t : list Z)
    (j : nat) (b : list Z) (x : Z) :
  slots_wf w slots -> 0 <= w ->
  slots !! S j = Some (Some b) -> t !! S j = Some x ->
  pop_shift w (S j) (QMem slots, t)
  = Ret (QMem (<[j := Some b]> slots), <[j := x]> t).
Proof.
  intros Hwf Hw Hb Hx.
  assert (Hjs : (S j < length slots)%nat) by (eapply lookup_lt_Some; eassumption).
  assert (Hjt : (S j < length t)%nat) by (eapply lookup_lt_Some; eassumption).
  destruct (lookup_lt_is_Some_2 slots j) as [s Hs]; [lia|].
  destruct (proj1 (Forall_lookup _ _) Hwf _ _ Hs) as (a & -> & Ha).
  destruct (proj1 (Forall_lookup _ _) Hwf _ _ Hb) as (b' & [= <-] & Hlb).
  unfold pop_shift.
  replace (Z.of_nat (S j) - 1) with (Z.of_nat j) by lia.
  rewrite (slot_mem_Ret slots (Z.of_nat (S j)) b), bind_Ret
    by (rewrite Nat2Z.id; assumption).
  rewrite (slot_mem_Ret slots (Z.of_nat j) a), bind_Ret
    by (rewrite Nat2Z.id; assumption).
  rewrite qsc_memutils_copy_Ret, bind_Ret by lia.
  rewrite slot_store_Ret, bind_Ret by lia.
  rewrite (array_load_Ret t (Z.of_nat (S j)) x), bind_Ret
    by (rewrite Nat2Z.id; assumption).
  rewrite array_store_Ret, bind_Ret by lia.
  rewrite Nat2Z.id, take_ge, drop_ge, app_nil_r by lia.
  reflexivity.
Qed.

(** The loop moves the slots and the tags after index [j] down. *)
Lemma pop_shift_loop (w : Z) (m : nat) :
  forall (j : nat) (slots : list (option (list Z))) (t : list Z),
  slots_wf w slots -> 0 <= w ->
  (S j + m <= length slots)%nat -> (S j + m <= length t)%nat ->
  for_each (pop_shift w) (seq (S j) m) (QMem slots, t)
  = Ret (QMem (shift_range j m slots), shift_range j m t).
Proof.
  induction m as [|m IH]; intros j slots t Hwf Hw Hs Ht.
  - simpl. rewrite !shift_range_0. reflexivity.
  - destruct (lookup_lt_is_Some_2 slots (S j)) as [s Hsj]; [lia|].
    destruct (proj1 (Forall_lookup _ _) Hwf _ _ Hsj) as (b & -> & Hlb).
    destruct (lookup_lt_is_Some_2 slots j) as [a Ha]; [lia|].
    destruct (lookup_lt_is_Some_2 t (S j)) as [x Hx]; [lia|].
    destruct (lookup_lt_is_Some_2 t j) as [y Hy]; [lia|].
    cbn [seq for_each].
    rewrite (pop_shift_step w slots t j b x) by assumption.
    rewrite bind_Ret, IH.
    + rewrite (shift_range_step j m slots a (Some b)) by assumption.
      rewrite (shift_range_step j m t y x) by assumption.
      reflexivity.
    + apply Forall_insert; [assumption|]. exists b. split; [reflexivity | assumption].
    + assumption.
    + rewrite length_insert. lia.
    + rewrite length_insert. lia.
Qed.

(** On a well-formed queue that is not empty, [qsc_queue_pop] writes the
    first [outlen] bytes of slot 0, the oldest item, to the output;
    moves the other items and their tags one place down; zeroes the
    slot and the tag that become free; takes one from [count] and
    [position]; and returns the tag found at [position - 1], the tag of
    the newest item. *)
Lemma qsc_queue_pop_accepted (ctx : qsc_queue_state) (output : list Z) (outlen : Z) :
  queue_ok ctx = true ->
  qsc_queue_isempty ctx = false ->
  0 <= outlen <= width ctx ->
  outlen <= Z.of_nat (length output) ->
  exists slots b0 newest,
    queue ctx = QMem slots
    /\ slots !! 0%nat = Some (Some b0)
    /\ tags ctx !! Z.to_nat (position ctx - 1) = Some newest
    /\ qsc_queue_pop ctx output outlen
       = Ret (mk_queue
                (QMem (shift_down (Z.to_nat (count ctx))
                         (Some (replicate (Z.to_nat (width ctx)) 0)) slots))
                (shift_down (Z.to_nat (count ctx)) 0 (tags ctx))
                (count ctx - 1) (depth ctx) (position ctx - 1) (width ctx),
              take (Z.to_nat outlen) b0 ++ drop (Z.to_nat outlen) output,
              newest).
Proof.
  intros Hok Hne Hout Hbuf.
  destruct (queue_ok_spec ctx Hok)
    as (slots & Hq & Hlen & Hslots & Htags & Hd & Hmax & Hwidth & Hcount & Hpos).
  pose proof (queue_ok_slots_wf ctx slots Hok Hq) as Hwf.
  unfold qsc_queue_isempty in Hne. apply Z.eqb_neq in Hne.
  set (n := Z.to_nat (count ctx)).
  assert (Hn : (1 <= n <= length slots)%nat) by lia.
  assert (Hnt : (n <= length (tags ctx))%nat) by lia.
  destruct (lookup_lt_is_Some_2 slots 0) as [s0 Hs0]; [lia|].
  destruct (Hslots _ _ Hs0) as (b0 & -> & Hb0).
  destruct (lookup_lt_is_Some_2 (tags ctx) (n - 1)) as [newest Hnew]; [lia|].
  destruct (lookup_lt_is_Some_2 (tags ctx) 0) as [t0 Ht0]; [lia|].
  exists slots, b0, newest.
  split; [assumption|]. split; [assumption|].
  assert (Hidx : Z.to_nat (position ctx - 1) = (n - 1)%nat) by lia.
  split; [rewrite Hidx; assumption|].
  unfold qsc_queue_pop, qsc_queue_isempty.
  destruct (count ctx =? 0) eqn:E0; [lia|].
  destruct (outlen <=? width ctx) eqn:E1; [|lia]. simpl negb. simpl andb. cbv iota.
  rewrite Hq, (slot_mem_Ret slots 0 b0 Hs0), bind_Ret.
  rewrite qsc_memutils_copy_Ret, bind_Ret by lia.
  rewrite <- Hb0, qsc_memutils_clear_all, bind_Ret.
  rewrite slot_store_Ret, bind_Ret by lia. change (Z.to_nat 0) with 0%nat.
  rewrite !size_wrap_small by lia.
  rewrite (array_load_Ret (tags ctx) (position ctx - 1) newest), bind_Ret
    by (rewrite Hidx; assumption).
  set (zeros := replicate (length b0) 0).
  assert (Hwf1 : slots_wf (Z.of_nat (length b0)) (<[0%nat := Some zeros]> slots)).
  { apply Forall_insert; [rewrite Hb0; assumption|].
    exists zeros. split; [reflexivity|]. unfold zeros. rewrite length_replicate. lia. }
  assert (Hloop :
    (if count ctx >? 1
     then for_each (pop_shift (Z.of_nat (length b0))) (seq 1 (Z.to_nat (count ctx) - 1))
            (QMem (<[0%nat := Some zeros]> slots), tags ctx)
     else Ret (QMem (<[0%nat := Some zeros]> slots), tags ctx))
    = Ret (QMem (shift_range 0 (n - 1) (<[0%nat := Some zeros]> slots)),
           shift_range 0 (n - 1) (tags ctx))).
  { destruct (count ctx >? 1) eqn:E2.
    - apply pop_shift_loop; rewrite ?length_insert; (assumption || lia).
    - replace (n - 1)%nat with 0%nat by lia. rewrite !shift_range_0. reflexivity. }
  rewrite Hloop, bind_Ret. clear Hloop. cbv beta iota.
  assert (Hwf2 : slots_wf (Z.of_nat (length b0))
                   (shift_range 0 (n - 1) (<[0%nat := Some zeros]> slots))).
  { unfold shift_range. repeat apply Forall_app_2;
      auto using Forall_take, Forall_drop. }
  destruct (lookup_lt_is_Some_2
              (shift_range 0 (n - 1) (<[0%nat := Some zeros]> slots)) (n - 1))
    as [sl Hsl]; [rewrite shift_range_length, length_insert; rewrite ?length_insert; lia|].
  destruct (proj1 (Forall_lookup _ _) Hwf2 _ _ Hsl) as (bl & -> & Hbl).
  rewrite (slot_mem_Ret _ (position ctx - 1) bl), bind_Ret by (rewrite Hidx; assumption).
  rewrite <- Hbl, qsc_memutils_clear_all, bind_Ret.
  rewrite slot_store_Ret, bind_Ret
    by (rewrite shift_range_length, length_insert; rewrite ?length_insert; lia).
  rewrite array_store_Ret, bind_Ret by (rewrite shift_range_length; lia).
  rewrite Hidx.
  replace (replicate (length bl) 0) with zeros
    by (unfold zeros; f_equal; lia).
  rewrite (shift_down_range n (Some zeros) (Some zeros) slots) by assumption.
  rewrite <- (list_insert_id (tags ctx) 0 t0 Ht0) at 1.
  rewrite (shift_down_range n t0 0 (tags ctx)) by lia.
  subst zeros. rewrite !Nat2Z.id.
  replace (length bl) with (length b0) by lia. reflexivity.
Qed.

(** *** Well-formed queues are kept well-formed *)

Lemma queue_ok_intro (ctx : qsc_queue_state) (slots : list (option (list Z))) :
  queue ctx = QMem slots ->
  Z.of_nat (length slots) = depth ctx ->
  slots_wf (width ctx) slots ->
  Z.of_nat (length (tags ctx)) = QSC_QUEUE_MAX_DEPTH ->
  depth ctx <= QSC_QUEUE_MAX_DEPTH ->
  depth ctx <= SIZE_MAX ->
  0 <= width ctx <= SIZE_MAX ->
  0 <= count ctx <= depth ctx ->
  count ctx = position ctx ->
  queue_ok ctx = true.
Proof.
  intros Hq Hlen Hwf Htags Hd Hmax Hw Hc Hpos. unfold Queue.queue_ok. rewrite Hq.
  repeat (apply andb_true_intro; split); try lia.
  apply forallb_forall. intros s Hin.
  apply list_elem_of_In in Hin.
  destruct (proj1 (Forall_forall _ _) Hwf s Hin) as (b & -> & Hb).
  simpl. lia.
Qed.

Lemma clear_u64_bytes_length (a out : list Z) (nbytes : Z) :
  clear_u64_bytes a nbytes = Ret out -> length out = length a.
Proof.
  unfold clear_u64_bytes, SIZEOF_U64.
  destruct (nbytes <=? 8 * Z.of_nat (length a)) eqn:E; [|discriminate].
  intros [= <-]. rewrite length_app, length_replicate.
  assert (Hq : (Z.to_nat (nbytes / 8) <= length a)%nat).
  { destruct (Z_lt_le_dec nbytes 0) as [Hneg|Hpos].
    - assert (nbytes / 8 < 0) by (apply Z.div_lt_upper_bound; lia). lia.
    - assert (nbytes / 8 <= Z.of_nat (length a))
        by (apply Z.div_le_upper_bound; lia). lia. }
  pose proof (length_drop a (Z.to_nat (nbytes / 8))) as Hdrop.
  destruct (drop (Z.to_nat (nbytes / 8)) a); simpl in *; lia.
Qed.

(** With enough memory, [qsc_queue_initialize] makes a well-formed,
    empty queue out of any state object. *)
Lemma qsc_queue_initialize_ok (a : alloc) (ctx0 : qsc_queue_state) (d w : Z) :
  outer_ok a = true -> (forall i, slot_ok a i = true) ->
  0 <= d <= QSC_QUEUE_MAX_DEPTH -> d * SIZEOF_PTR <= SIZE_MAX ->
  0 <= w <= SIZE_MAX ->
  Z.of_nat (length (tags ctx0)) = QSC_QUEUE_MAX_DEPTH ->
  exists ctx,
    qsc_queue_initialize a ctx0 d w = Ret ctx
    /\ queue_ok ctx = true /\ count ctx = 0 /\ depth ctx = d /\ width ctx = w.
Proof.
  intros Ha Hslot Hd Hptr Hw Htags. unfold Queue.qsc_queue_initialize.
  rewrite Ha. unfold SIZEOF_PTR in *.
  rewrite size_wrap_small by lia.
  replace (d * 8 / 8) with d by (symmetry; apply Z.div_mul; lia).
  rewrite Z.leb_refl.
  destruct (clear_u64_bytes (tags ctx0) QSC_QUEUE_MAX_DEPTH) as [t|f] eqn:Et.
  2:{ unfold clear_u64_bytes, SIZEOF_U64 in Et.
      destruct (QSC_QUEUE_MAX_DEPTH <=? _) eqn:E; [discriminate | lia]. }
  rewrite bind_Ret. eexists. split; [reflexivity|].
  split; [|auto].
  eapply queue_ok_intro; simpl; try reflexivity; try lia.
  - rewrite length_fmap, length_seq. lia.
  - apply Forall_fmap, Forall_forall. intros i _. simpl.
    rewrite Hslot. eexists. split; [reflexivity|].
    rewrite length_replicate. lia.
  - rewrite (clear_u64_bytes_length _ _ _ Et). assumption.
Qed.

(** On a well-formed queue [qsc_queue_push] is defined and gives a
    well-formed queue. *)
Lemma qsc_queue_push_ok (ctx : qsc_queue_state) (input : list Z) (inlen tag : Z) :
  queue_ok ctx = true ->
  0 <= inlen <= Z.of_nat (length input) ->
  exists ctx',
    qsc_queue_push ctx input inlen tag = Ret ctx' /\ queue_ok ctx' = true.
Proof.
  intros Hok Hin.
  destruct (qsc_queue_isfull ctx) eqn:Hfull.
  { exists ctx. split; [|assumption]. apply qsc_queue_push_rejected. auto. }
  destruct (Z_lt_le_dec (width ctx) inlen) as [Hlong|Hfit].
  { exists ctx. split; [|assumption]. apply qsc_queue_push_rejected. auto. }
  destruct (qsc_queue_push_accepted ctx input inlen tag Hok Hfull Hfit Hin)
    as (slots & b & Hq & Hb & ->).
  eexists. split; [reflexivity|].
  destruct (queue_ok_spec ctx Hok)
    as (slots' & Hq' & Hlen & Hslots & Htags & Hd & Hmax & Hwidth & Hcount & Hpos).
  rewrite Hq in Hq'. injection Hq' as <-.
  unfold qsc_queue_isfull in Hfull. apply Z.eqb_neq in Hfull.
  destruct (Hslots _ _ Hb) as (b' & [= <-] & Hlb).
  eapply queue_ok_intro; simpl; try reflexivity; rewrite ?length_insert; try lia.
  apply Forall_insert; [apply (queue_ok_slots_wf ctx); assumption|].
  eexists. split; [reflexivity|].
  rewrite length_app, length_take, length_drop. lia.
Qed.

(** On a well-formed queue [qsc_queue_pop] is defined and gives a
    well-formed queue. *)
Lemma qsc_queue_pop_ok (ctx : qsc_queue_state) (output : list Z) (outlen : Z) :
  queue_ok ctx = true ->
  0 <= outlen <= Z.of_nat (length output) ->
  exists ctx' out tag,
    qsc_queue_pop ctx output outlen = Ret (ctx', out, tag) /\ queue_ok ctx' = true.
Proof.
  intros Hok Hout.
  destruct (qsc_queue_isempty ctx) eqn:Hempty.
  { exists ctx, output, 0. split; [|assumption].
    apply qsc_queue_pop_skipped. rewrite Hempty. reflexivity. }
  destruct (Z_lt_le_dec (width ctx) outlen) as [Hlong|Hfit].
  { exists ctx, output, 0. split; [|assumption].
    apply qsc_queue_pop_skipped. apply andb_false_intro2. lia. }
  destruct (qsc_queue_pop_accepted ctx output outlen Hok Hempty)
    as (slots & b0 & newest & Hq & Hb0 & Hnew & ->); [lia | lia |].
  eexists _, _, _. split; [reflexivity|].
  destruct (queue_ok_spec ctx Hok)
    as (slots' & Hq' & Hlen & Hslots & Htags & Hd & Hmax & Hwidth & Hcount & Hpos).
  rewrite Hq in Hq'. injection Hq' as <-.
  unfold qsc_queue_isempty in Hempty. apply Z.eqb_neq in Hempty.
  pose proof (queue_ok_slots_wf ctx slots Hok Hq) as Hwf.
  eapply queue_ok_intro; simpl; try reflexivity;
    rewrite ?shift_down_length by lia; try lia.
  unfold shift_down. apply Forall_app_2; [auto using Forall_take, Forall_drop|].
  apply Forall_cons_2; [|auto using Forall_drop].
  eexists. split; [reflexivity|]. rewrite length_replicate. lia.
Qed.

(** *** First in, first out *)

(** An accepted push adds the item, with its tag, after the items
    held. *)
Lemma qsc_queue_push_items (ctx ctx' : qsc_queue_state) (input : list Z) (inlen tag : Z) :
  queue_ok ctx = true ->
  qsc_queue_isfull ctx = false ->
  inlen <= width ctx ->
  0 <= inlen <= Z.of_nat (length input) ->
  qsc_queue_push ctx input inlen tag = Ret ctx' ->
  exists b,
    items ctx' = items ctx ++ [(take (Z.to_nat inlen) input ++ drop (Z.to_nat inlen) b, tag)].
Proof.
  intros Hok Hfull Hfit Hin Hpush.
  destruct (qsc_queue_push_accepted ctx input inlen tag Hok Hfull Hfit Hin)
    as (slots & b & Hq & Hb & Heq).
  rewrite Heq in Hpush. injection Hpush as <-.
  destruct (queue_ok_spec ctx Hok)
    as (slots' & Hq' & Hlen & Hslots & Htags & Hd & Hmax & Hwidth & Hcount & Hpos).
  rewrite Hq in Hq'. injection Hq' as <-.
  unfold qsc_queue_isfull in Hfull. apply Z.eqb_neq in Hfull.
  exists b. unfold items. simpl. rewrite Hq, <- Hpos.
  replace (Z.to_nat (count ctx + 1)) with (S (Z.to_nat (count ctx))) by lia.
  assert (Hns : (Z.to_nat (count ctx) < length slots)%nat) by lia.
  assert (Hnt : (Z.to_nat (count ctx) < length (tags ctx))%nat) by lia.
  rewrite (take_S_r _ _ _ (list_lookup_insert_eq slots _ _ Hns)).
  rewrite (take_S_r _ _ _ (list_lookup_insert_eq (tags ctx) _ _ Hnt)).
  rewrite !take_insert_ge by lia.
  rewrite fmap_app. simpl.
  rewrite zip_with_app; [reflexivity|].
  rewrite length_fmap, !length_take. lia.
Qed.

(** An accepted pop writes the oldest item and removes it, together
    with its tag, from the items held; the tag it returns is the tag of
    the newest item. *)
Lemma qsc_queue_pop_items (ctx ctx' : qsc_queue_state) (output out : list Z)
    (outlen tag : Z) :
  queue_ok ctx = true ->
  qsc_queue_isempty ctx = false ->
  0 <= outlen <= width ctx ->
  outlen <= Z.of_nat (length output) ->
  qsc_queue_pop ctx output outlen = Ret (ctx', out, tag) ->
  exists b0 t0 rest,
    items ctx = (b0, t0) :: rest
    /\ out = take (Z.to_nat outlen) b0 ++ drop (Z.to_nat outlen) output
    /\ items ctx' = rest
    /\ last (snd <$> items ctx) = Some tag.
Proof.
  intros Hok Hempty Hfit Hbuf Hpop.
  destruct (qsc_queue_pop_accepted ctx output outlen Hok Hempty Hfit Hbuf)
    as (slots & b0 & newest & Hq & Hb0 & Hnew & Heq).
  rewrite Heq in Hpop. injection Hpop as <- <- <-.
  destruct (queue_ok_spec ctx Hok)
    as (slots' & Hq' & Hlen & Hslots & Htags & Hd & Hmax & Hwidth & Hcount & Hpos).
  rewrite Hq in Hq'. injection Hq' as <-.
  unfold qsc_queue_isempty in Hempty. apply Z.eqb_neq in Hempty.
  unfold items. simpl. rewrite Hq.
  replace (Z.to_nat (count ctx - 1)) with (Z.to_nat (count ctx) - 1)%nat by lia.
  rewrite <- Hpos in Hnew.
  replace (Z.to_nat (count ctx - 1)) with (Z.to_nat (count ctx) - 1)%nat in Hnew by lia.
  assert (Hns : (1 <= Z.to_nat (count ctx) <= length slots)%nat) by lia.
  assert (Hnt : (Z.to_nat (count ctx) <= length (tags ctx))%nat) by lia.
  destruct (Z.to_nat (count ctx)) as [|n]; [lia|].
  destruct slots as [|s0 slots]; [simpl in Hns; lia|].
  destruct (tags ctx) as [|t0 ts]; [simpl in Hnt; lia|].
  injection Hb0 as ->.
  exists b0, t0, (zip (default [] <$> take n slots) (take n ts)).
  simpl in Hns, Hnt.
  split; [reflexivity|]. split; [reflexivity|]. split.
  - unfold shift_down. simpl. rewrite Nat.sub_0_r, !drop_0.
    rewrite !take_app_length' by (rewrite length_take; lia). reflexivity.
  - rewrite snd_zip by (rewrite length_fmap, !length_take; simpl; lia).
    rewrite last_lookup, length_take.
    simpl in Hnew. rewrite Nat.sub_0_r in Hnew.
    replace (Init.Nat.pred (S n `min` length (t0 :: ts))) with n by (simpl; lia).
    rewrite lookup_take_lt by lia. assumption.
Qed.

(** *** count and position *)

Lemma qsc_queue_initialize_alloc (a : alloc) (ctx0 ctx : qsc_queue_state) (d w : Z) :
  outer_ok a = true ->
  qsc_queue_initialize a ctx0 d w = Ret ctx ->
  count ctx = 0 /\ position ctx = 0 /\ depth ctx = d /\ width ctx = w.
Proof.
  unfold Queue.qsc_queue_initialize. intros -> H.
  destruct (d <=? _); [|discriminate].
  bind_inv H. injection H as <-. auto.
Qed.

(** When the slot-pointer array cannot be allocated nothing but the
    pointer is assigned. *)
Lemma qsc_queue_initialize_no_alloc (a : alloc) (ctx0 : qsc_queue_state) (d w : Z) :
  outer_ok a = false ->
  qsc_queue_initialize a ctx0 d w = Ret (set_queue QNull ctx0).
Proof. unfold Queue.qsc_queue_initialize. intros ->. reflexivity. Qed.

Lemma qsc_queue_initialize_keeps (a : alloc) (ctx0 ctx : qsc_queue_state) (d w : Z) :
  count ctx0 = position ctx0 ->
  qsc_queue_initialize a ctx0 d w = Ret ctx ->
  count ctx = position ctx.
Proof.
  intros Heq H. destruct (outer_ok a) eqn:Ha.
  - destruct (qsc_queue_initialize_alloc _ _ _ _ _ Ha H) as (-> & -> & _). reflexivity.
  - rewrite qsc_queue_initialize_no_alloc in H by assumption.
    injection H as <-. exact Heq.
Qed.

Lemma qsc_queue_push_keeps (ctx ctx' : qsc_queue_state) (input : list Z) (inlen tag : Z) :
  count ctx = position ctx ->
  qsc_queue_push ctx input inlen tag = Ret ctx' ->
  count ctx' = position ctx'.
Proof.
  intros Heq H. unfold qsc_queue_push in H.
  destruct (_ && _).
  - bind_inv H. injection H as <-. simpl. rewrite Heq. reflexivity.
  - injection H as <-. exact Heq.
Qed.

Lemma qsc_queue_pop_keeps (ctx ctx' : qsc_queue_state) (output out : list Z) (outlen tag : Z) :
  count ctx = position ctx ->
  qsc_queue_pop ctx output outlen = Ret (ctx', out, tag) ->
  count ctx' = position ctx'.
Proof.
  intros Heq H. unfold qsc_queue_pop in H.
  destruct (_ && _).
  - bind_inv H. injection H as <- _ _. simpl. rewrite Heq. reflexivity.
  - injection H as <- _ _. exact Heq.
Qed.

Lemma qsc_queue_flush_keeps (ctx ctx' : qsc_queue_state) (output out : list Z) :
  count ctx = position ctx ->
  qsc_queue_flush ctx output = Ret (ctx', out) ->
  count ctx' = position ctx'.
Proof.
  intros Heq H. unfold Queue.qsc_queue_flush in H.
  destruct (queue ctx).
  - injection H as <- _. exact Heq.
  - bind_inv H. injection H as <- _. reflexivity.
  - bind_inv H. injection H as <- _. reflexivity.
Qed.

Lemma qsc_queue_destroy_zero (ctx ctx' : qsc_queue_state) :
  qsc_queue_destroy ctx = Ret ctx' ->
  count ctx' = 0 /\ position ctx' = 0 /\ depth ctx' = 0 /\ width ctx' = 0.
Proof.
  intros H. unfold Queue.qsc_queue_destroy in H.
  bind_inv H. injection H as <-. auto.
Qed.

(** Every operation keeps [count = position]. *)
Lemma queue_step_keeps (ctx ctx' : qsc_queue_state) :
  queue_step ctx ctx' ->
  count ctx = position ctx -> count ctx' = position ctx'.
Proof.
  intros [a c d w c' H | c input inlen tag c' H | c output outlen c' out tag H
         | c output c' out H | c c' H] Heq.
  - eapply qsc_queue_initialize_keeps; eauto.
  - eapply qsc_queue_push_keeps; eauto.
  - eapply qsc_queue_pop_keeps; eauto.
  - eapply qsc_queue_flush_keeps; eauto.
  - destruct (qsc_queue_destroy_zero _ _ H) as (-> & -> & _). reflexivity.
Qed.

(** Whatever the starting states, if they have [count = position] so
    have all the states reached from them. *)
Lemma reachable_count_position (init : qsc_queue_state -> Prop) :
  (forall ctx, init ctx -> count ctx = position ctx) ->
  forall ctx, reachable_from init ctx -> count ctx = position ctx.
Proof.
  intros Hinit ctx Hr.
  induction Hr as [ctx Hi | ctx ctx' _ IH Hstep].
  - auto.
  - eapply queue_step_keeps; eauto.
Qed.

(** *** The claims about push, pop and the invariant *)

(** C10. When the queue is empty, or the requested output length exceeds
    the slot width, [qsc_queue_pop] returns the tag 0, leaves the output
    buffer as it was and leaves the whole queue state (slots, tags,
    count, position) unchanged. *)
Theorem qsc_queue_pop_rejected (ctx : qsc_queue_state) (output : list Z) (outlen : Z) :
  qsc_queue_isempty ctx = true \/ width ctx < outlen ->
  qsc_queue_pop ctx output outlen = Ret (ctx, output, 0).
Proof.
  intros Hguard. apply qsc_queue_pop_skipped.
  destruct Hguard as [Hempty|Hlong].
  - rewrite Hempty. reflexivity.
  - apply andb_false_intro2, Z.leb_gt, Hlong.
Qed.

(** C8. [qsc_queue_push] is a silently ignored no-op when the queue is
    full or the input is longer than a slot: the state is returned as it
    was.  Otherwise, on a well-formed queue, it copies the [inlen] input
    bytes to the start of the slot at [position], stores the tag at the
    same index, and adds exactly one to [count] and to [position];
    nothing else changes. *)
Theorem qsc_queue_push_spec (ctx : qsc_queue_state) (input : list Z) (inlen tag : Z) :
  (qsc_queue_isfull ctx = true \/ width ctx < inlen ->
   qsc_queue_push ctx input inlen tag = Ret ctx)
  /\ (queue_ok ctx = true ->
      qsc_queue_isfull ctx = false ->
      inlen <= width ctx ->
      0 <= inlen <= Z.of_nat (length input) ->
      exists slots b,
        queue ctx = QMem slots
        /\ slots !! Z.to_nat (position ctx) = Some (Some b)
        /\ qsc_queue_push ctx input inlen tag
           = Ret (mk_queue
                    (QMem (<[Z.to_nat (position ctx) :=
                               Some (take (Z.to_nat inlen) input
                                       ++ drop (Z.to_nat inlen) b)]> slots))
                    (<[Z.to_nat (position ctx) := tag]> (tags ctx))
                    (count ctx + 1) (depth ctx) (position ctx + 1) (width ctx))).
Proof.
  split.
  - apply qsc_queue_push_rejected.
  - apply qsc_queue_push_accepted.
Qed.

(** C9, as amended.  Every queue operation (initialize, push, pop,
    flush, destroy) keeps [count = position]; and in every state
    reachable, by any sequence of these operations, from a call of
    [qsc_queue_initialize] whose allocation of the slot-pointer array
    succeeded, [count = position]. *)
Theorem queue_count_eq_position :
  (forall ctx ctx',
     queue_step ctx ctx' ->
     count ctx = position ctx -> count ctx' = position ctx')
  /\ (forall ctx,
       reachable_from (initialized_alloc QSC_QUEUE_MAX_DEPTH) ctx ->
       count ctx = position ctx).
Proof.
  split.
  - apply queue_step_keeps.
  - apply reachable_count_position.
    intros c (a & ctx0 & d & w & Ha & H).
    destruct (qsc_queue_initialize_alloc _ _ _ _ _ Ha H) as (-> & -> & _).
    reflexivity.
Qed.

End WithMaxDepth.

(** *** Concrete queues *)

Lemma qsc_queue_pop_rejected_witness :
  qsc_queue_pop no_items [9; 9; 9] 3 = Ret (no_items, [9; 9; 9], 0).
Proof. apply qsc_queue_pop_rejected. left. reflexivity. Defined.

Lemma qsc_queue_push_spec_witness :
  queue_ok 64 two_items = true
  /\ qsc_queue_push two_items [7; 8; 9] 3 30
     = Ret (mk_queue
              (QMem [Some [1; 2; 3; 4]; Some [5; 6; 0; 0]; Some [7; 8; 9; 0]])
              (10 :: 20 :: 30 :: replicate 61 0) 3 3 3 4)
  /\ qsc_queue_push two_items [7; 8; 9; 10; 11] 5 30 = Ret two_items.
Proof.
  split; [reflexivity|].
  destruct (qsc_queue_push_spec 64 two_items [7; 8; 9] 3 30) as [_ Hacc].
  destruct (qsc_queue_push_spec 64 two_items [7; 8; 9; 10; 11] 5 30) as [Hrej _].
  split.
  - destruct Hacc as (slots & b & Hq & Hb & ->);
      [reflexivity | reflexivity | simpl; lia | simpl; lia |].
    injection Hq as <-. injection Hb as <-. reflexivity.
  - apply Hrej. right. simpl. lia.
Defined.

Lemma queue_count_eq_position_witness :
  exists ctx ctx',
    qsc_queue_initialize 64 alloc_all stack_garbage 64 16 = Ret ctx
    /\ qsc_queue_push ctx [1; 2; 3] 3 7 = Ret ctx'
    /\ count ctx = position ctx
    /\ count ctx' = position ctx'.
Proof.
  eexists _, _. split; [reflexivity|]. split; [reflexivity|].
  destruct (queue_count_eq_position 64) as [Hstep Hreach].
  assert (Hinit : count (mk_queue (QMem (replicate 64 (Some (replicate 16 0))))
                           (replicate 8 0 ++ replicate 56 0xDEADBEEF) 0 64 0 16)
                  = position (mk_queue (QMem (replicate 64 (Some (replicate 16 0))))
                                (replicate 8 0 ++ replicate 56 0xDEADBEEF) 0 64 0 16)).
  { apply Hreach, reach_start.
    exists alloc_all, stack_garbage, 64, 16. split; reflexivity. }
  split; [exact Hinit|].
  refine (Hstep _ _ _ Hinit).
  eapply (step_push 64 _ [1; 2; 3] 3 7). reflexivity.
Defined.

(** C9, as stated, fails: when the slot-pointer array cannot be
    allocated, [qsc_queue_initialize] assigns neither [count] nor
    [position], which keep whatever the state object held. *)
Lemma queue_count_eq_position_unallocated :
  ~ (forall ctx, reachable_from 64 (initialized 64) ctx -> count ctx = position ctx).
Proof.
  intros Hall.
  assert (Hr : reachable_from 64 (initialized 64) (set_queue QNull stack_garbage)).
  { apply reach_start. exists alloc_none, stack_garbage, 64, 16. reflexivity. }
  apply Hall in Hr. discriminate Hr.
Qed.

(** The self test, up to the pops: the items come back in the order
    they were pushed, every pop returns the tag 63, and the queue ends
    empty with all slots and tags zeroed. *)
Lemma self_test_pops (ctx0 : qsc_queue_state) :
  length (tags ctx0) = 64%nat ->
  exists c0 c1 c2 popped,
    qsc_queue_initialize 64 alloc_all ctx0 64 16 = Ret c0
    /\ self_test_push c0 = Ret c1
    /\ self_test_pop c1 = Ret (c2, popped)
    /\ fst <$> popped = self_test_exp <$> seq 0 64
    /\ snd <$> popped = replicate 64 63
    /\ c2 = mk_queue (QMem (replicate 64 (Some (replicate 16 0))))
              (replicate 64 0) 0 64 0 16.
Proof.
  destruct ctx0 as [q t c d p w]. simpl. intros Hlen.
  do 64 (destruct t as [|? t]; [discriminate|]).
  destruct t; [|discriminate]. clear Hlen.
  eexists _, _, _, _.
  split; [vm_compute; reflexivity|].
  split; [vm_compute; reflexivity|].
  split; [vm_compute; reflexivity|].
  split; [vm_compute; reflexivity|].
  split; vm_compute; reflexivity.
Qed.

(** C1, where the code departs from it.  On every well-formed queue
    that is not empty, [qsc_queue_pop] writes the oldest item (first in,
    first out) and removes it, with its tag, from the items held,
    moving the others down; but the tag it returns is the tag of the
    newest item, read at [position - 1], not the tag pushed with the
    item it writes.  So after [qsc_queue_initialize(&ctx, 64, 16)] on
    any state object and the 64 pushes of the self test with the tags 0
    to 63, the 64 pops write the items in the order they were pushed and
    leave the queue empty with all slots and tags zeroed, and every one
    of them returns the tag 63. *)
Theorem qsc_queue_pop_returns_last_tag :
  (forall max_depth ctx ctx' output out outlen tag,
     queue_ok max_depth ctx = true ->
     qsc_queue_isempty ctx = false ->
     0 <= outlen <= width ctx ->
     outlen <= Z.of_nat (length output) ->
     qsc_queue_pop ctx output outlen = Ret (ctx', out, tag) ->
     exists b0 t0 rest,
       items ctx = (b0, t0) :: rest
       /\ out = take (Z.to_nat outlen) b0 ++ drop (Z.to_nat outlen) output
       /\ items ctx' = rest
       /\ last (snd <$> items ctx) = Some tag)
  /\ (forall ctx0,
       length (tags ctx0) = 64%nat ->
       exists c0 c1 c2 popped,
         qsc_queue_initialize 64 alloc_all ctx0 64 16 = Ret c0
         /\ self_test_push c0 = Ret c1
         /\ self_test_pop c1 = Ret (c2, popped)
         /\ fst <$> popped = self_test_exp <$> seq 0 64
         /\ snd <$> popped = replicate 64 63
         /\ snd <$> popped <> Z.of_nat <$> seq 0 64
         /\ c2 = mk_queue (QMem (replicate 64 (Some (replicate 16 0))))
                   (replicate 64 0) 0 64 0 16).
Proof.
  split.
  - intros max_depth ctx ctx' output out outlen tag.
    apply qsc_queue_pop_items.
  - intros ctx0 Hlen.
    destruct (self_test_pops ctx0 Hlen)
      as (c0 & c1 & c2 & popped & H0 & H1 & H2 & Hitems & Htags & Hc2).
    exists c0, c1, c2, popped. repeat (split; [assumption|]).
    split; [|assumption].
    rewrite Htags. vm_compute. discriminate.
Qed.

Lemma qsc_queue_pop_returns_last_tag_witness :
  (exists ctx' rest,
     qsc_queue_pop two_items [9; 9; 9; 9] 4 = Ret (ctx', [1; 2; 3; 4], 20)
     /\ items two_items = ([1; 2; 3; 4], 10) :: rest
     /\ items ctx' = rest
     /\ last (snd <$> items two_items) = Some 20)
  /\ (exists c0 c1 c2 popped,
        qsc_queue_initialize 64 alloc_all stack_garbage 64 16 = Ret c0
        /\ self_test_push c0 = Ret c1
        /\ self_test_pop c1 = Ret (c2, popped)
        /\ snd <$> popped = replicate 64 63).
Proof.
  destruct qsc_queue_pop_returns_last_tag as [Hpop Htest]. split.
  - destruct (Hpop 64 two_items
                (mk_queue (QMem [Some [5; 6; 0; 0]; Some [0; 0; 0; 0]; Some [0; 0; 0; 0]])
                   (20 :: replicate 63 0) 1 3 1 4)
                [9; 9; 9; 9] [1; 2; 3; 4] 4 20)
      as (b0 & t0 & rest & Hitems & Hout & Hrest & Hlast);
      [reflexivity | reflexivity | simpl; lia | simpl; lia | reflexivity |].
    eexists _, rest. split; [reflexivity|].
    injection Hitems as <- <- <-.
    split; [reflexivity|]. split; [reflexivity | exact Hlast].
  - destruct (Htest stack_garbage eq_refl)
      as (c0 & c1 & c2 & popped & H0 & H1 & H2 & _ & Htags & _).
    exists c0, c1, c2, popped. auto.
Defined.

(** The self test passes all the same: it never looks at the tags. *)
Example qsc_queue_self_test_passes :
  qsc_queue_self_test 64 alloc_all stack_garbage = Ret true.
Proof. vm_compute. reflexivity. Qed.

(** The smallest case: two items with the tags 10 and 20; the first pop
    writes the first item and returns the tag of the second. *)
Example qsc_queue_pop_two_items :
  qsc_queue_pop two_items [9; 9; 9; 9] 4
  = Ret (mk_queue (QMem [Some [5; 6; 0; 0]; Some [0; 0; 0; 0]; Some [0; 0; 0; 0]])
           (20 :: replicate 63 0) 1 3 1 4,
         [1; 2; 3; 4], 20).
Proof. vm_compute. reflexivity. Qed.

(** *** Flushing *)

Section Flush.

Variable QSC_QUEUE_MAX_DEPTH : Z.

Local Abbreviation queue_ok := (queue_ok QSC_QUEUE_MAX_DEPTH).
Local Abbreviation qsc_queue_initialize := (qsc_queue_initialize QSC_QUEUE_MAX_DEPTH).
Local Abbreviation qsc_queue_flush := (qsc_queue_flush QSC_QUEUE_MAX_DEPTH).
Local Abbreviation qsc_queue_destroy := (qsc_queue_destroy QSC_QUEUE_MAX_DEPTH).
Local Abbreviation queue_ok_spec := (queue_ok_spec QSC_QUEUE_MAX_DEPTH).
Local Abbreviation queue_ok_intro := (queue_ok_intro QSC_QUEUE_MAX_DEPTH).
Local Abbreviation queue_ok_slots_wf := (queue_ok_slots_wf QSC_QUEUE_MAX_DEPTH).

Local Abbreviation slots_wf w :=
  (Forall (fun s : option (list Z) => exists b, s = Some b /\ Z.of_nat (length b) = w)).

(** The slot of [w] zero bytes. *)
Local Abbreviation zero_slot w := (Some (replicate (Z.to_nat w) 0)).

(** The body of the loop of [qsc_queue_flush]. *)
Local Abbreviation flush_body w :=
  (fun (i : nat) '(q, out) =>
     p ← slot_ptr q (Z.of_nat i);
     match p with
     | Some b =>
         out' ← qsc_memutils_copy_at out (size_wrap (Z.of_nat i * w)) b w;
         b' ← qsc_memutils_clear b w;
         q' ← slot_store q (Z.of_nat i) b';
         Ret (q', out')
     | None => Ret (q, out)
     end).

Lemma qsc_memutils_copy_at_Ret (dst : list Z) (off : Z) (src : list Z) (len : Z) :
  off + len <= Z.of_nat (length dst) -> len <= Z.of_nat (length src) ->
  qsc_memutils_copy_at dst off src len
  = Ret (take (Z.to_nat off) dst ++ take (Z.to_nat len) src
           ++ drop (Z.to_nat (off + len)) dst).
Proof.
  intros H1 H2. unfold qsc_memutils_copy_at.
  destruct (off + len <=? Z.of_nat (length dst)) eqn:E1; [|lia].
  destruct (len <=? Z.of_nat (length src)) eqn:E2; [reflexivity | lia].
Qed.

(** One iteration: the bytes of slot [j] are written at offset
    [j * w] of the output and the slot is zeroed. *)
Lemma flush_body_step (w : nat) (slots : list (option (list Z))) (out b : list Z)
    (j : nat) :
  slots !! j = Some (Some b) -> length b = w ->
  (S j * w <= length out)%nat -> Z.of_nat (length out) <= SIZE_MAX ->
  flush_body (Z.of_nat w) j (QMem slots, out)
  = Ret (QMem (<[j := zero_slot (Z.of_nat w)]> slots),
         take (j * w) out ++ b ++ drop (S j * w) out).
Proof.
  intros Hb <- Hout Hmax.
  assert (Hj : (j < length slots)%nat) by (eapply lookup_lt_Some; eassumption).
  assert (Hjw : (j * length b + length b <= length out)%nat) by lia.
  cbn beta iota. unfold slot_ptr.
  rewrite (array_load_Ret slots (Z.of_nat j) (Some b)), bind_Ret
    by (rewrite Nat2Z.id; assumption).
  rewrite size_wrap_small by nia.
  rewrite qsc_memutils_copy_at_Ret, bind_Ret by nia.
  rewrite qsc_memutils_clear_all, bind_Ret.
  rewrite slot_store_Ret, bind_Ret by lia.
  rewrite !Nat2Z.id.
  replace (Z.to_nat (Z.of_nat j * Z.of_nat (length b))) with (j * length b)%nat by nia.
  replace (Z.to_nat (Z.of_nat j * Z.of_nat (length b) + Z.of_nat (length b)))
    with (S j * length b)%nat by nia.
  rewrite (take_ge b) by lia. reflexivity.
Qed.

(** The loop writes the slots it runs over one after the other and
    zeroes them. *)
Lemma flush_loop (w : nat) (m : nat) :
  forall (j : nat) (slots : list (option (list Z))) (out : list Z),
  slots_wf (Z.of_nat w) slots ->
  (j + m <= length slots)%nat ->
  ((j + m) * w <= length out)%nat -> Z.of_nat (length out) <= SIZE_MAX ->
  for_each (flush_body (Z.of_nat w)) (seq j m) (QMem slots, out)
  = Ret (QMem (take j slots ++ replicate m (zero_slot (Z.of_nat w)) ++ drop (j + m) slots),
         take (j * w) out ++ mjoin (default [] <$> take m (drop j slots))
           ++ drop ((j + m) * w) out).
Proof.
  induction m as [|m IH]; intros j slots out Hwf Hs Hout Hmax.
  - simpl. rewrite !Nat.add_0_r, !take_drop. reflexivity.
  - destruct (lookup_lt_is_Some_2 slots j) as [s Hsj]; [lia|].
    destruct (proj1 (Forall_lookup _ _) Hwf _ _ Hsj) as (b & -> & Hlb).
    assert (Hlb' : length b = w) by lia.
    cbn [seq for_each].
    rewrite (flush_body_step w slots out b j Hsj Hlb') by (assumption || nia).
    rewrite bind_Ret, IH.
    + f_equal. f_equal.
      * f_equal.
        rewrite (take_S_r _ _ (zero_slot (Z.of_nat w)))
          by (apply list_lookup_insert_eq; lia).
        rewrite take_insert_ge, drop_insert_lt by lia.
        rewrite <- app_assoc. simpl.
        replace (S (j + m)) with (j + S m)%nat by lia. reflexivity.
      * rewrite drop_insert_lt by lia.
        rewrite (drop_S _ _ _ Hsj). cbn [take fmap list_fmap default mjoin list_join].
        change (from_option id [] (Some b)) with b.
        assert (Hlt : length (take (j * w) out) = (j * w)%nat)
          by (rewrite length_take; nia).
        replace (S j * w)%nat with (j * w + w)%nat by lia.
        rewrite take_app_add' by (symmetry; exact Hlt).
        rewrite take_app_length' by (symmetry; exact Hlb').
        replace ((S j + m) * w)%nat with (j * w + (w + m * w))%nat by lia.
        rewrite drop_app_add' by (symmetry; exact Hlt).
        rewrite drop_app_add' by (symmetry; exact Hlb').
        rewrite drop_drop, <- !app_assoc.
        replace ((j + S m) * w)%nat with (j * w + w + m * w)%nat by lia.
        reflexivity.
    + apply Forall_insert; [assumption|].
      eexists. split; [reflexivity|]. rewrite length_replicate. lia.
    + rewrite length_insert. lia.
    + rewrite !length_app, length_take, length_drop. nia.
    + rewrite !length_app, length_take, length_drop. nia.
Qed.

Lemma clear_u64_bytes_all (a : list Z) :
  clear_u64_bytes a (SIZEOF_U64 * Z.of_nat (length a)) = Ret (replicate (length a) 0).
Proof.
  unfold clear_u64_bytes, SIZEOF_U64. rewrite Z.leb_refl.
  replace (8 * Z.of_nat (length a) / 8) with (Z.of_nat (length a))
    by (symmetry; rewrite Z.mul_comm; apply Z.div_mul; lia).
  rewrite Nat2Z.id, drop_all, app_nil_r. reflexivity.
Qed.

(** The bytes of the items are the bytes of the slots in use. *)
Lemma items_bytes (ctx : qsc_queue_state) (slots : list (option (list Z))) :
  queue_ok ctx = true -> queue ctx = QMem slots ->
  (items ctx).*1 = default [] <$> take (Z.to_nat (count ctx)) slots.
Proof.
  intros Hok Hq.
  destruct (queue_ok_spec ctx Hok)
    as (slots' & Hq' & Hlen & Hslots & Htags & Hd & Hmax & Hwidth & Hcount & Hpos).
  unfold items. rewrite Hq.
  apply fst_zip. rewrite length_fmap, !length_take. lia.
Qed.

(** On a well-formed queue, with room in the output for the items
    held, [qsc_queue_flush] writes the slots in use one after the
    other, zeroes them, zeroes all tags and resets [count] and
    [position]. *)
Lemma qsc_queue_flush_accepted (ctx : qsc_queue_state) (output : list Z) :
  queue_ok ctx = true ->
  count ctx * width ctx <= Z.of_nat (length output) ->
  Z.of_nat (length output) <= SIZE_MAX ->
  exists slots,
    queue ctx = QMem slots
    /\ qsc_queue_flush ctx output
       = Ret (mk_queue
                (QMem (replicate (Z.to_nat (count ctx)) (zero_slot (width ctx))
                         ++ drop (Z.to_nat (count ctx)) slots))
                (replicate (Z.to_nat QSC_QUEUE_MAX_DEPTH) 0)
                0 (depth ctx) 0 (width ctx),
              mjoin (default [] <$> take (Z.to_nat (count ctx)) slots)
                ++ drop (Z.to_nat (count ctx * width ctx)) output).
Proof.
  intros Hok Hroom Hmaxout.
  destruct (queue_ok_spec ctx Hok)
    as (slots & Hq & Hlen & Hslots & Htags & Hd & Hmax & Hwidth & Hcount & Hpos).
  pose proof (queue_ok_slots_wf ctx slots Hok Hq) as Hwf.
  exists slots. split; [assumption|].
  unfold Queue.qsc_queue_flush. rewrite Hq, <- Hpos.
  set (n := Z.to_nat (count ctx)).
  pose proof (flush_loop (Z.to_nat (width ctx)) n 0 slots output) as Hloop.
  rewrite Z2Nat.id in Hloop by lia.
  rewrite Hloop by (assumption || (simpl; nia)). clear Hloop.
  rewrite bind_Ret. unfold sizeof_tags. rewrite <- Htags.
  rewrite clear_u64_bytes_all, bind_Ret.
  rewrite Nat2Z.id. cbn [Nat.add Nat.mul].
  rewrite drop_0, !take_0. cbn [app].
  replace (n * Z.to_nat (width ctx))%nat with (Z.to_nat (count ctx * width ctx)) by nia.
  reflexivity.
Qed.

(** *** Destroying *)

Lemma qsc_memutils_clear_Ret (buf : list Z) (len : Z) :
  len <= Z.of_nat (length buf) ->
  qsc_memutils_clear buf len
  = Ret (replicate (Z.to_nat len) 0 ++ drop (Z.to_nat len) buf).
Proof.
  intros H. unfold qsc_memutils_clear.
  destruct (len <=? Z.of_nat (length buf)) eqn:E; [reflexivity | lia].
Qed.

(** The loop of [qsc_queue_destroy] runs over slots that are NULL or
    hold at least [w] bytes. *)
Lemma destroy_loop (w : Z) (slots : list (option (list Z))) (m : nat) :
  forall j : nat,
  Forall (fun s : option (list Z) => forall b, s = Some b -> w <= Z.of_nat (length b)) slots ->
  (j + m <= length slots)%nat ->
  for_each (fun i (_ : unit) =>
      p ← slot_ptr (QMem slots) (Z.of_nat i);
      match p with
      | Some b => _ ← qsc_memutils_clear b w; Ret tt
      | None => Ret tt
      end) (seq j m) tt
  = Ret tt.
Proof.
  induction m as [|m IH]; intros j Hall Hj; [reflexivity|].
  destruct (lookup_lt_is_Some_2 slots j) as [s Hs]; [lia|].
  cbn [seq for_each]. unfold slot_ptr.
  rewrite (array_load_Ret slots (Z.of_nat j) s), bind_Ret
    by (rewrite Nat2Z.id; assumption).
  destruct s as [b|].
  - pose proof (proj1 (Forall_lookup _ _) Hall _ _ Hs b eq_refl) as Hb.
    cbn beta iota. rewrite (qsc_memutils_clear_Ret b w Hb).
    rewrite !bind_Ret. apply IH; [assumption | lia].
  - cbn beta iota. rewrite bind_Ret. apply IH; [assumption | lia].
Qed.

Lemma qsc_queue_destroy_Ret (ctx : qsc_queue_state) (slots : list (option (list Z))) :
  queue ctx = QMem slots ->
  Z.of_nat (length slots) = depth ctx ->
  Forall (fun s : option (list Z) => forall b, s = Some b -> width ctx <= Z.of_nat (length b))
    slots ->
  Z.of_nat (length (tags ctx)) = QSC_QUEUE_MAX_DEPTH ->
  qsc_queue_destroy ctx
  = Ret (mk_queue QFreed (replicate (Z.to_nat QSC_QUEUE_MAX_DEPTH) 0) 0 0 0 0).
Proof.
  intros Hq Hlen Hall Htags. unfold Queue.qsc_queue_destroy. rewrite Hq.
  rewrite destroy_loop by (assumption || lia).
  rewrite !bind_Ret. unfold sizeof_tags. rewrite <- Htags.
  rewrite clear_u64_bytes_all, bind_Ret, Nat2Z.id. reflexivity.
Qed.

End Flush.
(** *** Unused slots stay zeroed *)

Section Wiped.

Variable QSC_QUEUE_MAX_DEPTH : Z.

Local Abbreviation queue_ok := (queue_ok QSC_QUEUE_MAX_DEPTH).
Local Abbreviation qsc_queue_initialize := (qsc_queue_initialize QSC_QUEUE_MAX_DEPTH).
Local Abbreviation qsc_queue_flush := (qsc_queue_flush QSC_QUEUE_MAX_DEPTH).
Local Abbreviation queue_ok_spec := (queue_ok_spec QSC_QUEUE_MAX_DEPTH).
Local Abbreviation queue_ok_intro := (queue_ok_intro QSC_QUEUE_MAX_DEPTH).
Local Abbreviation queue_ok_slots_wf := (queue_ok_slots_wf QSC_QUEUE_MAX_DEPTH).
Local Abbreviation qsc_queue_push_accepted := (qsc_queue_push_accepted QSC_QUEUE_MAX_DEPTH).
Local Abbreviation qsc_queue_pop_accepted := (qsc_queue_pop_accepted QSC_QUEUE_MAX_DEPTH).
Local Abbreviation qsc_queue_flush_accepted := (qsc_queue_flush_accepted QSC_QUEUE_MAX_DEPTH).

Local Abbreviation slots_wf w :=
  (Forall (fun s : option (list Z) => exists b, s = Some b /\ Z.of_nat (length b) = w)).
Local Abbreviation zero_slot w := (Some (replicate (Z.to_nat w) 0)).

Lemma forallb_Forall {A : Type} (f : A -> bool) (l : list A) :
  forallb f l = true <-> Forall (fun x => f x = true) l.
Proof.
  induction l as [|x l IH]; simpl.
  - split; [constructor | reflexivity].
  - rewrite andb_true_iff, Forall_cons, IH. reflexivity.
Qed.

Lemma slot_zero_replicate (n : nat) : slot_zero (Some (replicate n 0)) = true.
Proof.
  simpl. apply forallb_Forall, Forall_forall.
  intros x Hx. apply elem_of_replicate in Hx as [-> _]. reflexivity.
Qed.

Lemma slot_zero_eq (b : list Z) :
  slot_zero (Some b) = true -> b = replicate (length b) 0.
Proof.
  simpl. rewrite forallb_Forall. intros H.
  induction H as [|x l Hx _ IH]; [reflexivity|].
  simpl. apply Z.eqb_eq in Hx. congruence.
Qed.

Lemma wiped_spec (ctx : qsc_queue_state) (slots : list (option (list Z))) :
  queue ctx = QMem slots ->
  wiped ctx = true
  <-> Forall (fun s => slot_zero s = true) (drop (Z.to_nat (count ctx)) slots).
Proof. intros Hq. unfold wiped. rewrite Hq. apply forallb_Forall. Qed.

(** The slot an accepted push writes to holds zeros, so the item is
    the input followed by zeros. *)
Lemma qsc_queue_push_wiped (ctx : qsc_queue_state) (input : list Z) (inlen tag : Z) :
  queue_ok ctx = true -> wiped ctx = true ->
  qsc_queue_isfull ctx = false ->
  inlen <= width ctx ->
  0 <= inlen <= Z.of_nat (length input) ->
  exists ctx',
    qsc_queue_push ctx input inlen tag = Ret ctx'
    /\ queue_ok ctx' = true /\ wiped ctx' = true
    /\ count ctx' = count ctx + 1
    /\ depth ctx' = depth ctx /\ width ctx' = width ctx
    /\ items ctx'
       = items ctx ++ [(zero_padded (width ctx) (take (Z.to_nat inlen) input), tag)].
Proof.
  intros Hok Hwiped Hfull Hfit Hin.
  destruct (qsc_queue_push_accepted ctx input inlen tag Hok Hfull Hfit Hin)
    as (slots & b & Hq & Hb & Hpush).
  destruct (qsc_queue_push_ok QSC_QUEUE_MAX_DEPTH ctx input inlen tag Hok Hin)
    as (ctx' & Hpush' & Hok').
  destruct (qsc_queue_push_items QSC_QUEUE_MAX_DEPTH ctx ctx' input inlen tag
              Hok Hfull Hfit Hin Hpush') as (b' & Hitems).
  exists ctx'. split; [assumption|]. split; [assumption|].
  rewrite Hpush in Hpush'. injection Hpush' as <-.
  destruct (queue_ok_spec ctx Hok)
    as (slots' & Hq' & Hlen & Hslots & Htags & Hd & Hmax & Hwidth & Hcount & Hpos).
  rewrite Hq in Hq'. injection Hq' as <-.
  unfold qsc_queue_isfull in Hfull. apply Z.eqb_neq in Hfull.
  apply (wiped_spec ctx slots Hq) in Hwiped.
  rewrite <- Hpos in Hb.
  rewrite (drop_S _ _ _ Hb) in Hwiped. apply Forall_cons in Hwiped as [Hb0 Hrest].
  destruct (Hslots _ _ Hb) as (b0 & [= <-] & Hlb).
  split.
  { apply (wiped_spec _ (<[Z.to_nat (position ctx) :=
                            Some (take (Z.to_nat inlen) input ++ drop (Z.to_nat inlen) b)]> slots));
      [reflexivity|].
    cbn [count]. rewrite <- Hpos.
    replace (Z.to_nat (count ctx + 1)) with (S (Z.to_nat (count ctx))) by lia.
    rewrite drop_insert_lt by lia. assumption. }
  split; [reflexivity|]. split; [reflexivity|]. split; [reflexivity|].
  unfold items at 1. cbn [queue count tags]. rewrite <- Hpos.
  unfold items. rewrite Hq.
  replace (Z.to_nat (count ctx + 1)) with (S (Z.to_nat (count ctx))) by lia.
  assert (Hns : (Z.to_nat (count ctx) < length slots)%nat) by lia.
  assert (Hnt : (Z.to_nat (count ctx) < length (tags ctx))%nat) by lia.
  rewrite (take_S_r _ _ _ (list_lookup_insert_eq slots _ _ Hns)).
  rewrite (take_S_r _ _ _ (list_lookup_insert_eq (tags ctx) _ _ Hnt)).
  rewrite !take_insert_ge by lia.
  rewrite fmap_app. cbn [fmap list_fmap default from_option id].
  rewrite zip_with_app by (rewrite length_fmap, !length_take; lia).
  f_equal. cbn [zip_with]. f_equal. f_equal.
  unfold zero_padded. f_equal.
  rewrite (slot_zero_eq b Hb0), drop_replicate, length_take. f_equal. lia.
Qed.

(** The bytes of every item fill the width of a slot. *)
Lemma items_width (ctx : qsc_queue_state) :
  queue_ok ctx = true ->
  Forall (fun x : list Z * Z => Z.of_nat (length x.1) = width ctx) (items ctx).
Proof.
  intros Hok.
  destruct (queue_ok_spec ctx Hok)
    as (slots & Hq & Hlen & Hslots & Htags & Hd & Hmax & Hwidth & Hcount & Hpos).
  apply Forall_fmap with (f := fst) (P := fun b : list Z => Z.of_nat (length b) = width ctx).
  rewrite (items_bytes QSC_QUEUE_MAX_DEPTH ctx slots Hok Hq).
  apply Forall_fmap, Forall_take, Forall_lookup. intros i s Hs.
  destruct (Hslots _ _ Hs) as (b & -> & Hb). exact Hb.
Qed.

Lemma items_length (ctx : qsc_queue_state) :
  queue_ok ctx = true -> Z.of_nat (length (items ctx)) = count ctx.
Proof.
  intros Hok.
  destruct (queue_ok_spec ctx Hok)
    as (slots & Hq & Hlen & Hslots & Htags & Hd & Hmax & Hwidth & Hcount & Hpos).
  unfold items. rewrite Hq, length_zip_with, length_fmap, !length_take. lia.
Qed.

(** An accepted pop of a whole slot: the output is the oldest item. *)
Lemma qsc_queue_pop_wiped (ctx : qsc_queue_state) (output : list Z) (outlen : Z) :
  queue_ok ctx = true -> wiped ctx = true ->
  qsc_queue_isempty ctx = false ->
  0 <= outlen <= width ctx ->
  outlen <= Z.of_nat (length output) ->
  exists ctx' b0 t0 tag,
    qsc_queue_pop ctx output outlen
    = Ret (ctx', take (Z.to_nat outlen) b0 ++ drop (Z.to_nat outlen) output, tag)
    /\ queue_ok ctx' = true /\ wiped ctx' = true
    /\ count ctx' = count ctx - 1
    /\ depth ctx' = depth ctx /\ width ctx' = width ctx
    /\ items ctx = (b0, t0) :: items ctx'
    /\ last (items ctx).*2 = Some tag.
Proof.
  intros Hok Hwiped Hempty Hfit Hbuf.
  destruct (qsc_queue_pop_accepted ctx output outlen Hok Hempty Hfit Hbuf)
    as (slots & b0 & newest & Hq & Hb0 & Hnew & Hpop).
  destruct (qsc_queue_pop_ok QSC_QUEUE_MAX_DEPTH ctx output outlen Hok)
    as (ctx' & out & tag & Hpop' & Hok'); [lia|].
  destruct (qsc_queue_pop_items QSC_QUEUE_MAX_DEPTH ctx ctx' output out outlen tag
              Hok Hempty Hfit Hbuf Hpop') as (b0' & t0 & rest & Hitems & Hout & Hrest & Hlast).
  exists ctx', b0', t0, tag. rewrite Hpop', Hout.
  split; [reflexivity|]. split; [assumption|].
  rewrite Hpop in Hpop'. injection Hpop' as <- _ _.
  destruct (queue_ok_spec ctx Hok)
    as (slots' & Hq' & Hlen & Hslots & Htags & Hd & Hmax & Hwidth & Hcount & Hpos).
  rewrite Hq in Hq'. injection Hq' as <-.
  unfold qsc_queue_isempty in Hempty. apply Z.eqb_neq in Hempty.
  apply (wiped_spec ctx slots Hq) in Hwiped.
  split.
  { apply (wiped_spec _ (shift_down (Z.to_nat (count ctx))
                           (zero_slot (width ctx)) slots)); [reflexivity|].
    cbn [count]. unfold shift_down.
    replace (Z.to_nat (count ctx - 1)) with (Z.to_nat (count ctx) - 1)%nat by lia.
    rewrite drop_app_length' by (rewrite length_take, length_drop; lia).
    apply Forall_cons. split; [apply slot_zero_replicate | assumption]. }
  split; [reflexivity|]. split; [reflexivity|]. split; [reflexivity|].
  split; [rewrite Hitems, <- Hrest; reflexivity | exact Hlast].
Qed.

(** A flush leaves the queue well-formed, empty and zeroed. *)
Lemma qsc_queue_flush_wiped (ctx : qsc_queue_state) (output : list Z) :
  queue_ok ctx = true -> wiped ctx = true ->
  count ctx * width ctx <= Z.of_nat (length output) ->
  Z.of_nat (length output) <= SIZE_MAX ->
  exists ctx',
    qsc_queue_flush ctx output
    = Ret (ctx', mjoin (items ctx).*1 ++ drop (Z.to_nat (count ctx * width ctx)) output)
    /\ queue_ok ctx' = true /\ wiped ctx' = true
    /\ count ctx' = 0 /\ position ctx' = 0
    /\ depth ctx' = depth ctx /\ width ctx' = width ctx
    /\ tags ctx' = replicate (Z.to_nat QSC_QUEUE_MAX_DEPTH) 0
    /\ queue ctx' = QMem (replicate (Z.to_nat (depth ctx)) (zero_slot (width ctx))).
Proof.
  intros Hok Hwiped Hroom Hmaxout.
  destruct (qsc_queue_flush_accepted ctx output Hok Hroom Hmaxout) as (slots & Hq & Hflush).
  destruct (queue_ok_spec ctx Hok)
    as (slots' & Hq' & Hlen & Hslots & Htags & Hd & Hmax & Hwidth & Hcount & Hpos).
  rewrite Hq in Hq'. injection Hq' as <-.
  pose proof (queue_ok_slots_wf ctx slots Hok Hq) as Hwf.
  apply (wiped_spec ctx slots Hq) in Hwiped.
  assert (Hslots' : replicate (Z.to_nat (count ctx)) (zero_slot (width ctx))
                    ++ drop (Z.to_nat (count ctx)) slots
                    = replicate (Z.to_nat (depth ctx)) (zero_slot (width ctx))).
  { replace (Z.to_nat (depth ctx))
      with (Z.to_nat (count ctx) + (length slots - Z.to_nat (count ctx)))%nat by lia.
    rewrite replicate_add. f_equal.
    apply list_eq. intros i.
    destruct (drop (Z.to_nat (count ctx)) slots !! i) as [s|] eqn:Hs.
    - pose proof (proj1 (Forall_lookup _ _) Hwiped _ _ Hs) as Hz.
      rewrite lookup_drop in Hs.
      destruct (Hslots _ _ Hs) as (b & -> & Hb).
      apply lookup_lt_Some in Hs.
      rewrite lookup_replicate_2 by lia.
      rewrite (slot_zero_eq b Hz). do 3 f_equal. lia.
    - symmetry. apply lookup_ge_None_2. rewrite length_replicate.
      apply lookup_ge_None_1 in Hs. rewrite length_drop in Hs. lia. }
  eexists. rewrite Hflush, Hslots', (items_bytes QSC_QUEUE_MAX_DEPTH ctx slots Hok Hq).
  split; [reflexivity|]. cbn [count position depth width tags queue].
  split.
  { eapply queue_ok_intro; cbn [queue tags count depth position width];
      try reflexivity; rewrite ?length_replicate; try lia.
    apply Forall_replicate. eexists. split; [reflexivity|].
    rewrite length_replicate. lia. }
  split.
  { apply (wiped_spec _ (replicate (Z.to_nat (depth ctx)) (zero_slot (width ctx))));
      [reflexivity|].
    apply Forall_drop, Forall_replicate, slot_zero_replicate. }
  repeat (split; [reflexivity|]). reflexivity.
Qed.

End Wiped.
(** *** Initializing, and callers that push and pop in a row *)

Section Callers.

Variable QSC_QUEUE_MAX_DEPTH : Z.

Local Abbreviation queue_ok := (queue_ok QSC_QUEUE_MAX_DEPTH).
Local Abbreviation qsc_queue_initialize := (qsc_queue_initialize QSC_QUEUE_MAX_DEPTH).
Local Abbreviation queue_ok_spec := (queue_ok_spec QSC_QUEUE_MAX_DEPTH).
Local Abbreviation zero_slot w := (Some (replicate (Z.to_nat w) 0)).

(** The slots made by [qsc_queue_initialize] when every allocation
    succeeds. *)
Lemma initialize_slots (a : alloc) (d : nat) (w : Z) :
  (forall i, (i < d)%nat -> slot_ok a i = true) ->
  (fun i => if slot_ok a i then zero_slot w else None) <$> seq 0 d
  = replicate d (zero_slot w).
Proof.
  intros Hslot. apply list_eq. intros i.
  rewrite list_lookup_fmap.
  destruct (decide (i < d)%nat) as [Hi|Hi].
  - rewrite lookup_seq_lt, lookup_replicate_2 by assumption.
    simpl. rewrite Hslot by assumption. reflexivity.
  - rewrite lookup_seq_ge by lia. symmetry.
    apply lookup_ge_None_2. rewrite length_replicate. lia.
Qed.

Lemma qsc_queue_initialize_Ret (a : alloc) (ctx0 : qsc_queue_state) (d w : Z) :
  outer_ok a = true -> (forall i, (i < Z.to_nat d)%nat -> slot_ok a i = true) ->
  0 <= d -> d * SIZEOF_PTR <= SIZE_MAX ->
  0 <= QSC_QUEUE_MAX_DEPTH <= SIZEOF_U64 * Z.of_nat (length (tags ctx0)) ->
  exists t,
    clear_u64_bytes (tags ctx0) QSC_QUEUE_MAX_DEPTH = Ret t
    /\ length t = length (tags ctx0)
    /\ qsc_queue_initialize a ctx0 d w
       = Ret (mk_queue (QMem (replicate (Z.to_nat d) (zero_slot w))) t 0 d 0 w).
Proof.
  intros Ha Hslot Hd Hptr Htags. unfold Queue.qsc_queue_initialize.
  rewrite Ha. unfold SIZEOF_PTR in *.
  rewrite size_wrap_small by lia.
  replace (d * 8 / 8) with d by (symmetry; apply Z.div_mul; lia).
  rewrite Z.leb_refl.
  destruct (clear_u64_bytes (tags ctx0) QSC_QUEUE_MAX_DEPTH) as [t|f] eqn:Et.
  2:{ unfold clear_u64_bytes in Et.
      destruct (QSC_QUEUE_MAX_DEPTH <=? _) eqn:E; [discriminate | lia]. }
  exists t. split; [reflexivity|].
  split; [exact (clear_u64_bytes_length _ _ _ Et)|].
  rewrite bind_Ret, initialize_slots by assumption. reflexivity.
Qed.

Lemma queue_ok_zero_slots (t : list Z) (d w : Z) :
  0 <= d <= QSC_QUEUE_MAX_DEPTH -> d <= SIZE_MAX -> 0 <= w <= SIZE_MAX ->
  Z.of_nat (length t) = QSC_QUEUE_MAX_DEPTH ->
  queue_ok (mk_queue (QMem (replicate (Z.to_nat d) (zero_slot w))) t 0 d 0 w) = true
  /\ wiped (mk_queue (QMem (replicate (Z.to_nat d) (zero_slot w))) t 0 d 0 w) = true
  /\ items (mk_queue (QMem (replicate (Z.to_nat d) (zero_slot w))) t 0 d 0 w) = [].
Proof.
  intros Hd Hmax Hw Ht. split; [|split].
  - eapply queue_ok_intro; cbn [queue tags count depth position width];
      try reflexivity; rewrite ?length_replicate; try lia.
    apply Forall_replicate. eexists. split; [reflexivity|].
    rewrite length_replicate. lia.
  - unfold wiped. cbn [queue count]. apply forallb_Forall.
    apply Forall_drop, Forall_replicate, slot_zero_replicate.
  - reflexivity.
Qed.

(** Pushing the items [xs] into a well-formed, zeroed queue with room
    for them adds them, each filled up with zeros, after the items
    held. *)
Lemma push_all_Ret (xs : list (list Z * Z)) :
  forall ctx : qsc_queue_state,
  queue_ok ctx = true -> wiped ctx = true ->
  count ctx + Z.of_nat (length xs) <= depth ctx ->
  Forall (fun x : list Z * Z => Z.of_nat (length x.1) <= width ctx) xs ->
  exists ctx',
    push_all ctx xs = Ret ctx'
    /\ queue_ok ctx' = true /\ wiped ctx' = true
    /\ count ctx' = count ctx + Z.of_nat (length xs)
    /\ depth ctx' = depth ctx /\ width ctx' = width ctx
    /\ items ctx' = items ctx ++ (prod_map (zero_padded (width ctx)) id <$> xs).
Proof.
  induction xs as [|[b tag] xs IH]; intros ctx Hok Hwiped Hroom Hfit.
  - exists ctx. simpl. rewrite app_nil_r, Z.add_0_r. auto 10.
  - apply Forall_cons in Hfit as [Hb Hfit]. simpl in Hb.
    cbn [length] in Hroom.
    destruct (queue_ok_spec ctx Hok)
      as (slots & Hq & Hlen & Hslots & Htags & Hd & Hmax & Hwidth & Hcount & Hpos).
    destruct (qsc_queue_push_wiped QSC_QUEUE_MAX_DEPTH ctx b (Z.of_nat (length b)) tag)
      as (ctx1 & Hpush & Hok1 & Hwiped1 & Hc1 & Hd1 & Hw1 & Hitems1);
      try assumption; try lia.
    { unfold qsc_queue_isfull. apply Z.eqb_neq. lia. }
    destruct (IH ctx1 Hok1 Hwiped1) as (ctx' & Hall & Hok' & Hwiped' & Hc' & Hd' & Hw' & Hitems').
    { lia. }
    { rewrite Hw1. assumption. }
    exists ctx'. cbn [push_all]. rewrite Hpush, bind_Ret.
    split; [assumption|]. split; [assumption|]. split; [assumption|].
    split; [cbn [length]; lia|]. split; [congruence|]. split; [congruence|].
    rewrite Hitems', Hitems1, Hw1, <- app_assoc.
    rewrite Nat2Z.id, take_ge by lia. reflexivity.
Qed.

(** Popping [n] of the items of a well-formed queue, each into a buffer
    of [width] bytes, gives the bytes of the [n] oldest items, oldest
    first, and leaves the others. *)
Lemma pop_all_Ret (n : nat) :
  forall ctx : qsc_queue_state,
  queue_ok ctx = true -> wiped ctx = true ->
  Z.of_nat n <= count ctx ->
  exists ctx' popped,
    pop_all n ctx = Ret (ctx', popped)
    /\ queue_ok ctx' = true /\ wiped ctx' = true
    /\ count ctx' = count ctx - Z.of_nat n
    /\ depth ctx' = depth ctx /\ width ctx' = width ctx
    /\ popped.*1 = take n (items ctx).*1
    /\ items ctx' = drop n (items ctx).
Proof.
  induction n as [|n IH]; intros ctx Hok Hwiped Hn.
  - exists ctx, []. simpl. rewrite Z.sub_0_r. auto 10.
  - destruct (queue_ok_spec ctx Hok)
      as (slots & Hq & Hlen & Hslots & Htags & Hd & Hmax & Hwidth & Hcount & Hpos).
    destruct (qsc_queue_pop_wiped QSC_QUEUE_MAX_DEPTH ctx
                (replicate (Z.to_nat (width ctx)) 0) (width ctx))
      as (ctx1 & b0 & t0 & tag & Hpop & Hok1 & Hwiped1 & Hc1 & Hd1 & Hw1 & Hitems & _);
      try assumption; try (rewrite ?length_replicate; lia).
    { unfold qsc_queue_isempty. apply Z.eqb_neq. lia. }
    destruct (IH ctx1 Hok1 Hwiped1)
      as (ctx' & popped & Hall & Hok' & Hwiped' & Hc' & Hd' & Hw' & Hbytes & Hitems');
      [lia|].
    exists ctx', ((b0, tag) :: popped). cbn [pop_all].
    rewrite Hpop, bind_Ret. cbn beta iota. rewrite Hall, bind_Ret. cbn beta iota.
    pose proof (items_width QSC_QUEUE_MAX_DEPTH ctx Hok) as Hwid.
    rewrite Hitems in Hwid. apply Forall_cons in Hwid as [Hb0 _]. simpl in Hb0.
    rewrite take_ge, drop_ge, app_nil_r by (rewrite ?length_replicate; lia).
    split; [reflexivity|]. split; [assumption|]. split; [assumption|].
    split; [lia|]. split; [congruence|]. split; [congruence|].
    rewrite Hitems. cbn [fmap list_fmap take drop fst]. rewrite Hbytes.
    split; [reflexivity | assumption].
Qed.

End Callers.

(** *** What a user of the queue can rely on *)

Section QueueUse.

Variable QSC_QUEUE_MAX_DEPTH : Z.

Local Abbreviation queue_ok := (queue_ok QSC_QUEUE_MAX_DEPTH).
Local Abbreviation qsc_queue_initialize := (qsc_queue_initialize QSC_QUEUE_MAX_DEPTH).
Local Abbreviation qsc_queue_flush := (qsc_queue_flush QSC_QUEUE_MAX_DEPTH).
Local Abbreviation qsc_queue_destroy := (qsc_queue_destroy QSC_QUEUE_MAX_DEPTH).
Local Abbreviation queue_ok_spec := (queue_ok_spec QSC_QUEUE_MAX_DEPTH).
Local Abbreviation zero_slot w := (Some (replicate (Z.to_nat w) 0)).

(** X1.  When every allocation succeeds, [qsc_queue_initialize] turns any
    state object into an empty queue of [depth] slots of [width] zero
    bytes, whatever the object held before: the queue is well-formed,
    holds no item and is reported empty. *)
Theorem qsc_queue_initialize_fresh (a : alloc) (ctx0 : qsc_queue_state) (d w : Z) :
  outer_ok a = true -> (forall i, slot_ok a i = true) ->
  0 <= d <= QSC_QUEUE_MAX_DEPTH -> d * SIZEOF_PTR <= SIZE_MAX ->
  0 <= w <= SIZE_MAX ->
  Z.of_nat (length (tags ctx0)) = QSC_QUEUE_MAX_DEPTH ->
  exists ctx,
    qsc_queue_initialize a ctx0 d w = Ret ctx
    /\ queue ctx = QMem (replicate (Z.to_nat d) (zero_slot w))
    /\ count ctx = 0 /\ position ctx = 0 /\ depth ctx = d /\ width ctx = w
    /\ queue_ok ctx = true /\ wiped ctx = true
    /\ items ctx = [] /\ qsc_queue_isempty ctx = true.
Proof.
  intros Ha Hslot Hd Hptr Hw Htags.
  destruct (qsc_queue_initialize_Ret QSC_QUEUE_MAX_DEPTH a ctx0 d w)
    as (t & _ & Ht & Hinit); try assumption; try lia.
  { intros i _. apply Hslot. }
  { unfold SIZEOF_U64. lia. }
  destruct (queue_ok_zero_slots QSC_QUEUE_MAX_DEPTH t d w) as (Hok & Hwiped & Hitems);
    try lia.
  { unfold SIZEOF_PTR in Hptr. lia. }
  eexists. split; [exact Hinit|]. cbn [queue count position depth width].
  repeat (split; [reflexivity || assumption|]). reflexivity.
Qed.

(** X2.  [qsc_queue_initialize] clears [QSC_QUEUE_MAX_DEPTH] bytes of the tag
    array, not [QSC_QUEUE_MAX_DEPTH] tags: when the slot array is
    obtained, the tags below index [QSC_QUEUE_MAX_DEPTH / 8] are zeroed
    and the tags above it keep the values the state object held. *)
Theorem qsc_queue_initialize_tags (a : alloc) (ctx0 : qsc_queue_state) (d w : Z) :
  0 <= QSC_QUEUE_MAX_DEPTH ->
  Z.of_nat (length (tags ctx0)) = QSC_QUEUE_MAX_DEPTH ->
  outer_ok a = true ->
  0 <= d -> d * SIZEOF_PTR <= SIZE_MAX ->
  exists ctx,
    qsc_queue_initialize a ctx0 d w = Ret ctx
    /\ length (tags ctx) = length (tags ctx0)
    /\ (forall i : nat, Z.of_nat i < QSC_QUEUE_MAX_DEPTH / 8 -> tags ctx !! i = Some 0)
    /\ (forall i : nat, QSC_QUEUE_MAX_DEPTH / 8 < Z.of_nat i -> tags ctx !! i = tags ctx0 !! i).
Proof.
  intros Hmax Htags Ha Hd Hptr. unfold Queue.qsc_queue_initialize.
  rewrite Ha. unfold SIZEOF_PTR in *.
  rewrite size_wrap_small by lia.
  replace (d * 8 / 8) with d by (symmetry; apply Z.div_mul; lia).
  rewrite Z.leb_refl.
  destruct (clear_u64_bytes (tags ctx0) QSC_QUEUE_MAX_DEPTH) as [t|f] eqn:Ht.
  2:{ unfold clear_u64_bytes, SIZEOF_U64 in Ht.
      destruct (QSC_QUEUE_MAX_DEPTH <=? _) eqn:E; [discriminate | lia]. }
  rewrite bind_Ret. eexists. split; [reflexivity|]. cbn [tags].
  split; [exact (clear_u64_bytes_length _ _ _ Ht)|].
  unfold clear_u64_bytes, SIZEOF_U64 in Ht.
  destruct (QSC_QUEUE_MAX_DEPTH <=? _); [|discriminate].
  injection Ht as <-.
  assert (Hq : 0 <= QSC_QUEUE_MAX_DEPTH / 8 <= QSC_QUEUE_MAX_DEPTH).
  { split; [apply Z.div_pos; lia|]. apply Z.div_le_upper_bound; lia. }
  set (q := Z.to_nat (QSC_QUEUE_MAX_DEPTH / 8)) in *.
  split.
  - intros i Hi. rewrite lookup_app_l by (rewrite length_replicate; lia).
    apply lookup_replicate_2. lia.
  - intros i Hi. rewrite lookup_app_r by (rewrite length_replicate; lia).
    rewrite length_replicate.
    replace (tags ctx0 !! i) with (drop q (tags ctx0) !! (i - q)%nat)
      by (rewrite lookup_drop; f_equal; lia).
    destruct (drop q (tags ctx0)) as [|x rest]; [reflexivity|].
    replace (i - q)%nat with (S (i - q - 1)) by lia. reflexivity.
Qed.

(** X3.  [qsc_queue_initialize] takes any depth, also one above the
    [QSC_QUEUE_MAX_DEPTH] entries of the tag array.  In such a queue,
    once [QSC_QUEUE_MAX_DEPTH] items are held the queue is not full,
    and the next push writes its tag outside the tag array. *)
Theorem qsc_queue_push_beyond_tags (ctx : qsc_queue_state)
    (slots : list (option (list Z))) (input : list Z) (inlen tag : Z) :
  queue ctx = QMem slots ->
  Z.of_nat (length slots) = depth ctx ->
  Forall (fun s : option (list Z) => exists b, s = Some b /\ Z.of_nat (length b) = width ctx)
    slots ->
  Z.of_nat (length (tags ctx)) = QSC_QUEUE_MAX_DEPTH ->
  count ctx = QSC_QUEUE_MAX_DEPTH -> position ctx = QSC_QUEUE_MAX_DEPTH ->
  QSC_QUEUE_MAX_DEPTH < depth ctx ->
  0 <= inlen <= width ctx -> inlen <= Z.of_nat (length input) ->
  qsc_queue_isfull ctx = false
  /\ qsc_queue_push ctx input inlen tag = Undef OutOfBounds.
Proof.
  intros Hq Hlen Hwf Htags Hc Hp Hd Hin Hinput.
  assert (Hfull : qsc_queue_isfull ctx = false)
    by (unfold qsc_queue_isfull; apply Z.eqb_neq; lia).
  split; [assumption|].
  destruct (lookup_lt_is_Some_2 slots (Z.to_nat (position ctx))) as [s Hs]; [lia|].
  destruct (proj1 (Forall_lookup _ _) Hwf _ _ Hs) as (b & -> & Hb).
  unfold qsc_queue_push. rewrite Hfull.
  destruct (inlen <=? width ctx) eqn:E; [|lia]. cbn [negb andb].
  rewrite Hq, (slot_mem_Ret _ _ _ Hs), bind_Ret.
  rewrite qsc_memutils_copy_Ret, bind_Ret by lia.
  rewrite slot_store_Ret, bind_Ret by lia.
  unfold array_store.
  destruct (position ctx <? Z.of_nat (length (tags ctx))) eqn:E2; [lia | reflexivity].
Qed.

(** X5.  On a well-formed queue whose unused slots are zeroed, every call of
    [qsc_queue_push], [qsc_queue_pop] and [qsc_queue_flush] with
    buffers of the stated lengths is defined, and leaves the queue
    well-formed with its unused slots zeroed: no item that has left the
    queue remains in its memory. *)
Theorem queue_ok_wiped_kept (ctx : qsc_queue_state) :
  queue_ok ctx = true -> wiped ctx = true ->
  (forall input inlen tag,
     0 <= inlen <= Z.of_nat (length input) ->
     exists ctx',
       qsc_queue_push ctx input inlen tag = Ret ctx'
       /\ queue_ok ctx' = true /\ wiped ctx' = true)
  /\ (forall output outlen,
        0 <= outlen <= Z.of_nat (length output) ->
        exists ctx' out tag,
          qsc_queue_pop ctx output outlen = Ret (ctx', out, tag)
          /\ queue_ok ctx' = true /\ wiped ctx' = true)
  /\ (forall output,
        count ctx * width ctx <= Z.of_nat (length output) <= SIZE_MAX ->
        exists ctx' out,
          qsc_queue_flush ctx output = Ret (ctx', out)
          /\ queue_ok ctx' = true /\ wiped ctx' = true).
Proof.
  intros Hok Hwiped. split; [|split].
  - intros input inlen tag Hin.
    destruct (qsc_queue_isfull ctx) eqn:Hfull.
    { exists ctx. split; [apply qsc_queue_push_rejected|]; auto. }
    destruct (Z_lt_le_dec (width ctx) inlen) as [Hlong|Hfit].
    { exists ctx. split; [apply qsc_queue_push_rejected|]; auto. }
    destruct (qsc_queue_push_wiped QSC_QUEUE_MAX_DEPTH ctx input inlen tag
                Hok Hwiped Hfull Hfit Hin) as (ctx' & Hpush & Hok' & Hwiped' & _).
    exists ctx'. auto.
  - intros output outlen Hout.
    destruct (qsc_queue_isempty ctx) eqn:Hempty.
    { exists ctx, output, 0. split; [|auto].
      apply qsc_queue_pop_skipped. rewrite Hempty. reflexivity. }
    destruct (Z_lt_le_dec (width ctx) outlen) as [Hlong|Hfit].
    { exists ctx, output, 0. split; [|auto].
      apply qsc_queue_pop_skipped. apply andb_false_intro2. lia. }
    destruct (qsc_queue_pop_wiped QSC_QUEUE_MAX_DEPTH ctx output outlen Hok Hwiped Hempty)
      as (ctx' & b0 & t0 & tag & Hpop & Hok' & Hwiped' & _); [lia | lia |].
    eexists ctx', _, tag. eauto.
  - intros output Hout.
    destruct (qsc_queue_flush_wiped QSC_QUEUE_MAX_DEPTH ctx output Hok Hwiped)
      as (ctx' & Hflush & Hok' & Hwiped' & _); [lia | lia |].
    eexists ctx', _. eauto.
Qed.

(** X6.  An accepted push into a queue whose unused slots are zeroed adds
    one item after the items held: the first [inlen] bytes of the input
    followed by zeros up to the width of the slot, with the tag
    given. *)
Theorem qsc_queue_push_zero_padded (ctx : qsc_queue_state) (input : list Z)
    (inlen tag : Z) :
  queue_ok ctx = true -> wiped ctx = true ->
  qsc_queue_isfull ctx = false ->
  0 <= inlen <= width ctx ->
  inlen <= Z.of_nat (length input) ->
  exists ctx',
    qsc_queue_push ctx input inlen tag = Ret ctx'
    /\ items ctx'
       = items ctx ++ [(zero_padded (width ctx) (take (Z.to_nat inlen) input), tag)]
    /\ qsc_queue_items ctx' = qsc_queue_items ctx + 1.
Proof.
  intros Hok Hwiped Hfull Hfit Hin.
  destruct (qsc_queue_push_wiped QSC_QUEUE_MAX_DEPTH ctx input inlen tag Hok Hwiped Hfull)
    as (ctx' & Hpush & _ & _ & Hc & _ & _ & Hitems); [lia | lia |].
  exists ctx'. auto.
Qed.

(** X7.  On a well-formed queue, [qsc_queue_flush] into a buffer with room
    for the items held writes their bytes one after the other, oldest
    first, and leaves the rest of the buffer as it was; afterwards the
    queue is empty, every slot and every tag is zero, and depth and
    width are unchanged. *)
Theorem qsc_queue_flush_spec (ctx : qsc_queue_state) (output : list Z) :
  queue_ok ctx = true -> wiped ctx = true ->
  count ctx * width ctx <= Z.of_nat (length output) ->
  Z.of_nat (length output) <= SIZE_MAX ->
  qsc_queue_flush ctx output
  = Ret (mk_queue (QMem (replicate (Z.to_nat (depth ctx)) (zero_slot (width ctx))))
           (replicate (Z.to_nat QSC_QUEUE_MAX_DEPTH) 0) 0 (depth ctx) 0 (width ctx),
         mjoin (items ctx).*1 ++ drop (Z.to_nat (count ctx * width ctx)) output).
Proof.
  intros Hok Hwiped Hroom Hmax.
  destruct (qsc_queue_flush_wiped QSC_QUEUE_MAX_DEPTH ctx output Hok Hwiped Hroom Hmax)
    as (ctx' & Hflush & _ & _ & Hc & Hp & Hd & Hw & Ht & Hq).
  rewrite Hflush. destruct ctx' as [q' t' c' d' p' w']. simpl in *. congruence.
Qed.

(** X8.  [qsc_queue_destroy] of an allocated queue, some of whose slots may
    be NULL, zeroes the tags and all counters and releases the slot
    array, but leaves the released pointer in [queue].  Afterwards
    [qsc_queue_push], [qsc_queue_pop] and [qsc_queue_flush] do nothing,
    and a second [qsc_queue_destroy] releases the same array again. *)
Theorem qsc_queue_destroy_spec (ctx : qsc_queue_state) (slots : list (option (list Z)))
    (input output : list Z) (inlen outlen tag : Z) :
  0 <= QSC_QUEUE_MAX_DEPTH ->
  queue ctx = QMem slots ->
  Z.of_nat (length slots) = depth ctx ->
  Forall (fun s : option (list Z) => forall b, s = Some b -> width ctx <= Z.of_nat (length b))
    slots ->
  Z.of_nat (length (tags ctx)) = QSC_QUEUE_MAX_DEPTH ->
  exists ctx',
    qsc_queue_destroy ctx = Ret ctx'
    /\ ctx' = mk_queue QFreed (replicate (Z.to_nat QSC_QUEUE_MAX_DEPTH) 0) 0 0 0 0
    /\ qsc_queue_push ctx' input inlen tag = Ret ctx'
    /\ qsc_queue_pop ctx' output outlen = Ret (ctx', output, 0)
    /\ qsc_queue_flush ctx' output = Ret (ctx', output)
    /\ qsc_queue_destroy ctx' = Undef BadFree.
Proof.
  intros Hmax Hq Hlen Hall Htags.
  eexists. split; [apply (qsc_queue_destroy_Ret _ ctx slots); assumption|].
  split; [reflexivity|]. split; [reflexivity|]. split; [reflexivity|]. split.
  - unfold Queue.qsc_queue_flush. simpl. unfold sizeof_tags.
    pose proof (clear_u64_bytes_all (replicate (Z.to_nat QSC_QUEUE_MAX_DEPTH) 0)) as Hclear.
    rewrite length_replicate, Z2Nat.id in Hclear by lia.
    rewrite Hclear. reflexivity.
  - reflexivity.
Qed.

(** X9.  One item pushed into an empty queue comes back whole: the pop
    writes its bytes (filled up with zeros when [outlen] is larger than
    [inlen]), returns the tag it was pushed with, and leaves the queue
    empty. *)
Theorem push_then_pop_single (ctx : qsc_queue_state) (input output : list Z)
    (inlen outlen tag : Z) :
  queue_ok ctx = true -> wiped ctx = true ->
  count ctx = 0 -> 0 < depth ctx ->
  0 <= inlen <= width ctx -> inlen <= Z.of_nat (length input) ->
  0 <= outlen <= width ctx -> outlen <= Z.of_nat (length output) ->
  exists ctx1 ctx2,
    qsc_queue_push ctx input inlen tag = Ret ctx1
    /\ qsc_queue_pop ctx1 output outlen
       = Ret (ctx2,
              take (Z.to_nat outlen) (zero_padded (width ctx) (take (Z.to_nat inlen) input))
                ++ drop (Z.to_nat outlen) output,
              tag)
    /\ qsc_queue_isempty ctx2 = true /\ items ctx2 = [].
Proof.
  intros Hok Hwiped Hc Hd Hin Hinput Hout Houtput.
  destruct (qsc_queue_push_wiped QSC_QUEUE_MAX_DEPTH ctx input inlen tag Hok Hwiped)
    as (ctx1 & Hpush & Hok1 & Hwiped1 & Hc1 & Hd1 & Hw1 & Hitems1); [|lia|lia|].
  { unfold qsc_queue_isfull. apply Z.eqb_neq. lia. }
  assert (Hnil : items ctx = []).
  { apply length_zero_iff_nil, Nat2Z.inj.
    rewrite (items_length QSC_QUEUE_MAX_DEPTH ctx Hok). lia. }
  rewrite Hnil in Hitems1. cbn [app] in Hitems1.
  destruct (qsc_queue_pop_wiped QSC_QUEUE_MAX_DEPTH ctx1 output outlen Hok1 Hwiped1)
    as (ctx2 & b0 & t0 & tag' & Hpop & Hok2 & _ & Hc2 & _ & _ & Hitems & Hlast);
    [|lia|lia|].
  { unfold qsc_queue_isempty. apply Z.eqb_neq. lia. }
  rewrite Hitems1 in Hitems, Hlast.
  injection Hitems as <- <- Hnil2. injection Hlast as <-.
  exists ctx1, ctx2. split; [assumption|]. split; [exact Hpop|].
  split; [|auto]. unfold qsc_queue_isempty. apply Z.eqb_eq. lia.
Qed.

(** X10.  First in, first out: after the items [xs] are pushed into an empty
    queue with room for them, as many pops give back their bytes in
    the order they were pushed, each filled up with zeros to the width
    of a slot, and leave the queue empty. *)
Theorem push_all_then_pop_all (ctx : qsc_queue_state) (xs : list (list Z * Z)) :
  queue_ok ctx = true -> wiped ctx = true ->
  count ctx = 0 -> Z.of_nat (length xs) <= depth ctx ->
  Forall (fun x : list Z * Z => Z.of_nat (length x.1) <= width ctx) xs ->
  exists ctx1 ctx2 popped,
    push_all ctx xs = Ret ctx1
    /\ qsc_queue_items ctx1 = Z.of_nat (length xs)
    /\ pop_all (length xs) ctx1 = Ret (ctx2, popped)
    /\ popped.*1 = zero_padded (width ctx) <$> xs.*1
    /\ qsc_queue_isempty ctx2 = true /\ items ctx2 = [].
Proof.
  intros Hok Hwiped Hc Hroom Hfit.
  destruct (push_all_Ret QSC_QUEUE_MAX_DEPTH xs ctx Hok Hwiped)
    as (ctx1 & Hpush & Hok1 & Hwiped1 & Hc1 & Hd1 & Hw1 & Hitems1); [lia | assumption |].
  assert (Hnil : items ctx = []).
  { apply length_zero_iff_nil, Nat2Z.inj.
    rewrite (items_length QSC_QUEUE_MAX_DEPTH ctx Hok). lia. }
  rewrite Hnil in Hitems1. cbn [app] in Hitems1.
  destruct (pop_all_Ret QSC_QUEUE_MAX_DEPTH (length xs) ctx1 Hok1 Hwiped1)
    as (ctx2 & popped & Hpop & Hok2 & _ & Hc2 & _ & _ & Hbytes & Hrest); [lia|].
  exists ctx1, ctx2, popped. split; [assumption|].
  split; [unfold qsc_queue_items; lia|]. split; [assumption|].
  rewrite Hitems1 in Hbytes, Hrest. split; [|split].
  - rewrite Hbytes, take_ge by (rewrite !length_fmap; lia).
    rewrite <- !list_fmap_compose. reflexivity.
  - unfold qsc_queue_isempty. apply Z.eqb_eq. lia.
  - rewrite Hrest. apply drop_ge. rewrite length_fmap. lia.
Qed.

(** X11.  After the items [xs] are pushed into an empty queue with room for
    them, [qsc_queue_flush] writes them to the output one after the
    other in the order they were pushed, each filled up with zeros to
    the width of a slot. *)
Theorem push_all_then_flush (ctx : qsc_queue_state) (xs : list (list Z * Z))
    (output : list Z) :
  queue_ok ctx = true -> wiped ctx = true ->
  count ctx = 0 -> Z.of_nat (length xs) <= depth ctx ->
  Forall (fun x : list Z * Z => Z.of_nat (length x.1) <= width ctx) xs ->
  Z.of_nat (length xs) * width ctx <= Z.of_nat (length output) ->
  Z.of_nat (length output) <= SIZE_MAX ->
  exists ctx1 ctx2,
    push_all ctx xs = Ret ctx1
    /\ qsc_queue_flush ctx1 output
       = Ret (ctx2,
              mjoin (zero_padded (width ctx) <$> xs.*1)
                ++ drop (Z.to_nat (Z.of_nat (length xs) * width ctx)) output)
    /\ qsc_queue_isempty ctx2 = true /\ items ctx2 = [].
Proof.
  intros Hok Hwiped Hc Hroom Hfit Hout Hmax.
  destruct (push_all_Ret QSC_QUEUE_MAX_DEPTH xs ctx Hok Hwiped)
    as (ctx1 & Hpush & Hok1 & Hwiped1 & Hc1 & Hd1 & Hw1 & Hitems1); [lia | assumption |].
  assert (Hnil : items ctx = []).
  { apply length_zero_iff_nil, Nat2Z.inj.
    rewrite (items_length QSC_QUEUE_MAX_DEPTH ctx Hok). lia. }
  rewrite Hnil in Hitems1. cbn [app] in Hitems1.
  destruct (qsc_queue_flush_wiped QSC_QUEUE_MAX_DEPTH ctx1 output Hok1 Hwiped1)
    as (ctx2 & Hflush & Hok2 & _ & Hc2 & _); [rewrite Hc1, Hw1; lia | lia |].
  exists ctx1, ctx2. split; [assumption|]. split.
  - rewrite Hflush, Hitems1, Hc1, Hw1, Hc, Z.add_0_l.
    rewrite <- !list_fmap_compose. reflexivity.
  - split; [unfold qsc_queue_isempty; apply Z.eqb_eq; lia|].
    apply length_zero_iff_nil, Nat2Z.inj.
    rewrite (items_length QSC_QUEUE_MAX_DEPTH ctx2 Hok2). lia.
Qed.

(** X12.  On a well-formed queue the counters agree with the items held:
    [qsc_queue_items] is their number, [qsc_queue_isempty] holds
    exactly when there is none, and [qsc_queue_isfull] exactly when
    there are [depth] of them. *)
Theorem queue_counters (ctx : qsc_queue_state) :
  queue_ok ctx = true ->
  qsc_queue_items ctx = Z.of_nat (length (items ctx))
  /\ (qsc_queue_isempty ctx = true <-> items ctx = [])
  /\ (qsc_queue_isfull ctx = true <-> Z.of_nat (length (items ctx)) = depth ctx).
Proof.
  intros Hok. pose proof (items_length QSC_QUEUE_MAX_DEPTH ctx Hok) as Hlen.
  unfold qsc_queue_items, qsc_queue_isempty, qsc_queue_isfull.
  rewrite !Z.eqb_eq, <- length_zero_iff_nil. lia.
Qed.

(** X4.  [qsc_queue_initialize] does not report a slot whose allocation
    failed: it returns as usual, with the slot pointer NULL.  When the
    first slot is the one that failed, the first push dereferences the
    NULL pointer; [qsc_queue_destroy] skips the NULL slots and is
    defined. *)
Theorem qsc_queue_initialize_slot_failure (a : alloc) (ctx0 : qsc_queue_state)
    (input : list Z) (d w inlen tag : Z) :
  outer_ok a = true -> slot_ok a 0 = false ->
  0 < d -> d * SIZEOF_PTR <= SIZE_MAX -> 0 <= w ->
  0 <= QSC_QUEUE_MAX_DEPTH ->
  Z.of_nat (length (tags ctx0)) = QSC_QUEUE_MAX_DEPTH ->
  inlen <= w ->
  exists ctx,
    qsc_queue_initialize a ctx0 d w = Ret ctx
    /\ qsc_queue_isempty ctx = true
    /\ qsc_queue_push ctx input inlen tag = Undef NullDeref
    /\ qsc_queue_destroy ctx
       = Ret (mk_queue QFreed (replicate (Z.to_nat QSC_QUEUE_MAX_DEPTH) 0) 0 0 0 0).
Proof.
  intros Ha Hslot Hd Hptr Hw Hmax Htags Hin. unfold Queue.qsc_queue_initialize.
  rewrite Ha. unfold SIZEOF_PTR in *.
  rewrite size_wrap_small by lia.
  replace (d * 8 / 8) with d by (symmetry; apply Z.div_mul; lia).
  rewrite Z.leb_refl.
  destruct (clear_u64_bytes (tags ctx0) QSC_QUEUE_MAX_DEPTH) as [t|f] eqn:Et.
  2:{ unfold clear_u64_bytes, SIZEOF_U64 in Et.
      destruct (QSC_QUEUE_MAX_DEPTH <=? _) eqn:E; [discriminate | lia]. }
  rewrite bind_Ret. eexists. split; [reflexivity|].
  split; [reflexivity|]. split.
  - unfold qsc_queue_push, qsc_queue_isfull. cbn [count depth width queue position].
    destruct (0 =? d) eqn:E0; [lia|].
    destruct (inlen <=? w) eqn:E1; [|lia]. cbn [negb andb].
    replace (Z.to_nat d) with (S (Z.to_nat d - 1)) by lia.
    cbn [seq fmap list_fmap]. rewrite Hslot. reflexivity.
  - eapply qsc_queue_destroy_Ret; cbn [queue depth width tags].
    + reflexivity.
    + rewrite length_fmap, length_seq. lia.
    + apply Forall_fmap, Forall_forall. intros i _ b. cbn beta.
      destruct (slot_ok a i); [|discriminate].
      intros [= <-]. rewrite length_replicate. lia.
    + rewrite (clear_u64_bytes_length _ _ _ Et). assumption.
Qed.

End QueueUse.

(** The statements above at concrete queues, with
    [QSC_QUEUE_MAX_DEPTH] = 64. *)

Lemma qsc_queue_initialize_fresh_witness :
  exists ctx,
    qsc_queue_initialize 64 alloc_all stack_garbage 3 4 = Ret ctx
    /\ queue ctx = QMem (replicate 3 (Some (replicate 4 0)))
    /\ queue_ok 64 ctx = true /\ items ctx = [].
Proof.
  destruct (qsc_queue_initialize_fresh 64 alloc_all stack_garbage 3 4)
    as (ctx & Hinit & Hq & _ & _ & _ & _ & Hok & _ & Hitems & _);
    try reflexivity; try (unfold SIZEOF_PTR, SIZE_MAX; lia).
  exists ctx. auto.
Defined.

Lemma qsc_queue_initialize_tags_witness :
  exists ctx,
    qsc_queue_initialize 64 alloc_all stack_garbage 3 4 = Ret ctx
    /\ tags ctx !! 7%nat = Some 0
    /\ tags ctx !! 9%nat = Some 0xDEADBEEF.
Proof.
  destruct (qsc_queue_initialize_tags 64 alloc_all stack_garbage 3 4)
    as (ctx & Hinit & _ & Hzero & Hkeep);
    try reflexivity; try (unfold SIZEOF_PTR, SIZE_MAX; lia).
  exists ctx. split; [assumption|].
  split; [apply Hzero; reflexivity|].
  rewrite Hkeep by reflexivity. reflexivity.
Defined.

(** A queue of 65 slots, more than the 64 tags, after 64 pushes. *)
Lemma qsc_queue_push_beyond_tags_witness :
  exists c0 ctx,
    qsc_queue_initialize 64 alloc_all stack_garbage 65 2 = Ret c0
    /\ push_all c0 (replicate 64 ([1; 2], 5)) = Ret ctx
    /\ qsc_queue_isfull ctx = false
    /\ qsc_queue_push ctx [1; 2] 2 5 = Undef OutOfBounds.
Proof.
  exists (mk_queue (QMem (replicate 65 (Some [0; 0])))
            (replicate 8 0 ++ replicate 56 0xDEADBEEF) 0 65 0 2),
    (mk_queue (QMem (replicate 64 (Some [1; 2]) ++ [Some [0; 0]]))
       (replicate 64 5) 64 65 64 2).
  split; [vm_compute; reflexivity|]. split; [vm_compute; reflexivity|].
  apply (qsc_queue_push_beyond_tags 64 _
           (replicate 64 (Some [1; 2]) ++ [Some [0; 0]]));
    try reflexivity; try (simpl; lia).
  apply Forall_app. split.
  - apply Forall_replicate. exists [1; 2]. split; reflexivity.
  - repeat constructor. exists [0; 0]. split; reflexivity.
Defined.

Lemma queue_ok_wiped_kept_witness :
  (exists ctx',
     qsc_queue_push two_items [7; 8] 2 30 = Ret ctx'
     /\ queue_ok 64 ctx' = true /\ wiped ctx' = true)
  /\ (exists ctx' out tag,
        qsc_queue_pop two_items [9; 9; 9; 9] 4 = Ret (ctx', out, tag)
        /\ queue_ok 64 ctx' = true /\ wiped ctx' = true)
  /\ (exists ctx' out,
        qsc_queue_flush 64 two_items (replicate 8 9) = Ret (ctx', out)
        /\ queue_ok 64 ctx' = true /\ wiped ctx' = true).
Proof.
  destruct (queue_ok_wiped_kept 64 two_items eq_refl eq_refl) as (Hpush & Hpop & Hflush).
  split; [|split].
  - apply Hpush. simpl. lia.
  - apply Hpop. simpl. lia.
  - apply Hflush. unfold SIZE_MAX. simpl. lia.
Defined.

Lemma qsc_queue_push_zero_padded_witness :
  exists ctx',
    qsc_queue_push two_items [7; 8] 2 30 = Ret ctx'
    /\ items ctx' = [([1; 2; 3; 4], 10); ([5; 6; 0; 0], 20); ([7; 8; 0; 0], 30)]
    /\ qsc_queue_items ctx' = 3.
Proof.
  apply (qsc_queue_push_zero_padded 64 two_items [7; 8] 2 30);
    try reflexivity; simpl; lia.
Defined.

Lemma qsc_queue_flush_spec_witness :
  qsc_queue_flush 64 two_items (replicate 10 9)
  = Ret (mk_queue (QMem (replicate 3 (Some (replicate 4 0)))) (replicate 64 0) 0 3 0 4,
         [1; 2; 3; 4; 5; 6; 0; 0; 9; 9]).
Proof.
  apply (qsc_queue_flush_spec 64 two_items (replicate 10 9));
    try reflexivity; unfold SIZE_MAX; simpl; lia.
Defined.

Lemma qsc_queue_destroy_spec_witness :
  exists ctx',
    qsc_queue_destroy 64 two_items = Ret ctx'
    /\ ctx' = mk_queue QFreed (replicate 64 0) 0 0 0 0
    /\ qsc_queue_push ctx' [7; 8] 2 30 = Ret ctx'
    /\ qsc_queue_pop ctx' [9; 9; 9; 9] 4 = Ret (ctx', [9; 9; 9; 9], 0)
    /\ qsc_queue_flush 64 ctx' [9; 9; 9; 9] = Ret (ctx', [9; 9; 9; 9])
    /\ qsc_queue_destroy 64 ctx' = Undef BadFree.
Proof.
  apply (qsc_queue_destroy_spec 64 two_items
           [Some [1; 2; 3; 4]; Some [5; 6; 0; 0]; Some [0; 0; 0; 0]]);
    try reflexivity; try lia.
  repeat constructor; intros b [= <-]; simpl; lia.
Defined.

Lemma push_then_pop_single_witness :
  exists ctx1 ctx2,
    qsc_queue_push no_items [7; 8] 2 30 = Ret ctx1
    /\ qsc_queue_pop ctx1 [9; 9; 9; 9] 4 = Ret (ctx2, [7; 8; 0; 0], 30)
    /\ qsc_queue_isempty ctx2 = true /\ items ctx2 = [].
Proof.
  apply (push_then_pop_single 64 no_items [7; 8] [9; 9; 9; 9] 2 4 30);
    try reflexivity; simpl; lia.
Defined.

Lemma push_all_then_pop_all_witness :
  exists ctx1 ctx2 popped,
    push_all no_items [([1; 2; 3; 4], 10); ([5; 6], 20)] = Ret ctx1
    /\ qsc_queue_items ctx1 = 2
    /\ pop_all 2 ctx1 = Ret (ctx2, popped)
    /\ popped.*1 = [[1; 2; 3; 4]; [5; 6; 0; 0]]
    /\ qsc_queue_isempty ctx2 = true /\ items ctx2 = [].
Proof.
  apply (push_all_then_pop_all 64 no_items [([1; 2; 3; 4], 10); ([5; 6], 20)]);
    try reflexivity; try (simpl; lia).
  repeat constructor; simpl; lia.
Defined.

Lemma push_all_then_flush_witness :
  exists ctx1 ctx2,
    push_all no_items [([1; 2; 3; 4], 10); ([5; 6], 20)] = Ret ctx1
    /\ qsc_queue_flush 64 ctx1 (replicate 10 9)
       = Ret (ctx2, [1; 2; 3; 4; 5; 6; 0; 0; 9; 9])
    /\ qsc_queue_isempty ctx2 = true /\ items ctx2 = [].
Proof.
  apply (push_all_then_flush 64 no_items [([1; 2; 3; 4], 10); ([5; 6], 20)] (replicate 10 9));
    try reflexivity; try (unfold SIZE_MAX; simpl; lia).
  repeat constructor; simpl; lia.
Defined.

Lemma queue_counters_witness :
  qsc_queue_items two_items = 2
  /\ (qsc_queue_isempty two_items = true <-> items two_items = [])
  /\ (qsc_queue_isfull two_items = true <-> Z.of_nat (length (items two_items)) = 3).
Proof. apply (queue_counters 64 two_items). reflexivity. Defined.

Lemma qsc_queue_initialize_slot_failure_witness :
  exists ctx,
    qsc_queue_initialize 64 (mk_alloc true (fun i => negb (i =? 0)%nat)) stack_garbage 3 4
    = Ret ctx
    /\ qsc_queue_isempty ctx = true
    /\ qsc_queue_push ctx [7; 8] 2 30 = Undef NullDeref
    /\ qsc_queue_destroy 64 ctx = Ret (mk_queue QFreed (replicate 64 0) 0 0 0 0).
Proof.
  apply (qsc_queue_initialize_slot_failure 64 (mk_alloc true (fun i => negb (i =? 0)%nat))
           stack_garbage [7; 8] 3 4 2 30);
    try reflexivity; try (unfold SIZEOF_PTR, SIZE_MAX; lia).
Defined.

(** *** The self test *)

Lemma qsc_queue_initialize_alloc_all (a : alloc) (ctx0 : qsc_queue_state) (d w : Z) :
  outer_ok a = true -> (forall i, (i < Z.to_nat d)%nat -> slot_ok a i = true) ->
  qsc_queue_initialize 64 a ctx0 d w = qsc_queue_initialize 64 alloc_all ctx0 d w.
Proof.
  intros Ha Hslot. unfold qsc_queue_initialize. rewrite Ha. cbn [outer_ok alloc_all].
  rewrite (initialize_slots a (Z.to_nat d) w Hslot).
  rewrite (initialize_slots alloc_all (Z.to_nat d) w) by reflexivity.
  reflexivity.
Qed.

(** X13.  [qsc_queue_self_test] returns [true] whenever its allocations
    succeed, whatever the state object on the stack holds before: the
    64 items come back in order from the pops and from the flush.  (The
    test does not look at the tags the pops return.) *)
Theorem qsc_queue_self_test_true (a : alloc) (ctx0 : qsc_queue_state) :
  outer_ok a = true -> (forall i, (i < 64)%nat -> slot_ok a i = true) ->
  length (tags ctx0) = 64%nat ->
  qsc_queue_self_test 64 a ctx0 = Ret true.
Proof.
  intros Ha Hslot Hlen. unfold qsc_queue_self_test.
  rewrite (qsc_queue_initialize_alloc_all a ctx0 64 16 Ha Hslot).
  change (qsc_queue_self_test 64 alloc_all ctx0 = Ret true).
  destruct ctx0 as [q t c d p w]. simpl in Hlen.
  do 64 (destruct t as [|? t]; [discriminate|]).
  destruct t; [|discriminate]. clear Hlen.
  vm_compute. reflexivity.
Qed.

Lemma qsc_queue_self_test_true_witness :
  qsc_queue_self_test 64 alloc_all stack_garbage = Ret true.
Proof. apply qsc_queue_self_test_true; reflexivity. Defined.

End QueueFacts.


(** ** The thread pool *)

Module ThreadpoolFacts.
Import Threadpool.

(** While fewer than [QSC_THREADPOOL_THREADS_MAX] handles are held, the
    task is started, its handle is stored in the next entry and the
    call returns [true]. *)
Lemma qsc_threadpool_add_task_below (ctx : qsc_threadpool_state) (os : threads)
    (t : task) (handle : Z) :
  pool_ok ctx = true ->
  tcount ctx < QSC_THREADPOOL_THREADS_MAX ->
  qsc_threadpool_add_task ctx os t handle
  = Ret (mk_pool (<[Z.to_nat (tcount ctx) := handle]> (tpool ctx)) (tcount ctx + 1),
         os ++ [t], true).
Proof.
  unfold pool_ok, qsc_threadpool_add_task, QSC_THREADPOOL_THREADS_MAX.
  intros Hok Hlt.
  repeat (apply andb_prop in Hok as [Hok ?]).
  destruct (tcount ctx <=? 1024) eqn:E; [|lia].
  rewrite array_store_Ret, bind_Ret by lia.
  rewrite size_wrap_small by (unfold SIZE_MAX; lia). reflexivity.
Qed.

(** With more than [QSC_THREADPOOL_THREADS_MAX] handles the call
    returns [false] and changes nothing. *)
Lemma qsc_threadpool_add_task_above (ctx : qsc_threadpool_state) (os : threads)
    (t : task) (handle : Z) :
  QSC_THREADPOOL_THREADS_MAX < tcount ctx ->
  qsc_threadpool_add_task ctx os t handle = Ret (ctx, os, false).
Proof.
  unfold qsc_threadpool_add_task. intros H.
  destruct (tcount ctx <=? QSC_THREADPOOL_THREADS_MAX) eqn:E; [lia | reflexivity].
Qed.

(** C2, at the failing input.  When the registry already holds
    [QSC_THREADPOOL_THREADS_MAX] = 1024 handles the guard
    [tcount <= QSC_THREADPOOL_THREADS_MAX] still lets the call through:
    the task is started and its handle is written to [tpool[1024]],
    outside the array of 1024 entries; the call does not return [false]
    with the registry unchanged. *)
Theorem qsc_threadpool_add_task_full (ctx : qsc_threadpool_state) (os : threads)
    (t : task) (handle : Z) :
  pool_ok ctx = true ->
  tcount ctx = QSC_THREADPOOL_THREADS_MAX ->
  qsc_threadpool_add_task ctx os t handle = Undef OutOfBounds
  /\ qsc_threadpool_add_task ctx os t handle <> Ret (ctx, os, false).
Proof.
  unfold pool_ok, qsc_threadpool_add_task, QSC_THREADPOOL_THREADS_MAX.
  intros Hok Heq.
  repeat (apply andb_prop in Hok as [Hok ?]).
  rewrite Heq. simpl.
  unfold array_store.
  destruct (1024 <? Z.of_nat (length (tpool ctx))) eqn:E; [lia|].
  split; [reflexivity | discriminate].
Qed.

Lemma qsc_threadpool_add_task_full_witness :
  qsc_threadpool_add_task full_pool [] (mk_task 1 2) 7 = Undef OutOfBounds
  /\ qsc_threadpool_add_task full_pool [] (mk_task 1 2) 7 <> Ret (full_pool, [], false).
Proof. apply qsc_threadpool_add_task_full; reflexivity. Defined.

(** *** Below and above the capacity *)

Lemma pool_ok_spec (ctx : qsc_threadpool_state) :
  pool_ok ctx = true ->
  length (tpool ctx) = 1024%nat /\ 0 <= tcount ctx <= SIZE_MAX.
Proof.
  unfold pool_ok, QSC_THREADPOOL_THREADS_MAX. intros H.
  repeat (apply andb_prop in H as [H ?]). lia.
Qed.

Lemma pool_ok_intro (p : list Z) (n : Z) :
  length p = 1024%nat -> 0 <= n <= SIZE_MAX -> pool_ok (mk_pool p n) = true.
Proof.
  unfold pool_ok, QSC_THREADPOOL_THREADS_MAX. simpl. intros Hp Hn.
  repeat (apply andb_true_intro; split); lia.
Qed.

(** X14.  While fewer than 1024 handles are held, [qsc_threadpool_add_task]
    starts the task, stores its handle in entry [tcount] and in no
    other, adds one to [tcount] and returns [true], and the registry
    stays well-formed; with more than 1024 it returns [false] and
    changes nothing. *)
Theorem qsc_threadpool_add_task_registers (ctx : qsc_threadpool_state) (os : threads)
    (t : task) (handle : Z) :
  pool_ok ctx = true ->
  (tcount ctx < QSC_THREADPOOL_THREADS_MAX ->
   exists ctx',
     qsc_threadpool_add_task ctx os t handle = Ret (ctx', os ++ [t], true)
     /\ pool_ok ctx' = true
     /\ tcount ctx' = tcount ctx + 1
     /\ tpool ctx' !! Z.to_nat (tcount ctx) = Some handle
     /\ (forall i, i <> Z.to_nat (tcount ctx) -> tpool ctx' !! i = tpool ctx !! i))
  /\ (QSC_THREADPOOL_THREADS_MAX < tcount ctx ->
      qsc_threadpool_add_task ctx os t handle = Ret (ctx, os, false)).
Proof.
  intros Hok. destruct (pool_ok_spec ctx Hok) as [Hlen Hn]. split.
  - intros Hlt. unfold QSC_THREADPOOL_THREADS_MAX in Hlt.
    eexists. split; [apply qsc_threadpool_add_task_below; assumption|].
    simpl. split; [|split; [reflexivity|split]].
    + apply pool_ok_intro; [rewrite length_insert; assumption|].
      unfold SIZE_MAX. lia.
    + apply list_lookup_insert_eq. lia.
    + intros i Hi. apply list_lookup_insert_ne. congruence.
  - apply qsc_threadpool_add_task_above.
Qed.

Lemma qsc_threadpool_add_task_registers_witness :
  exists ctx',
    qsc_threadpool_add_task four_tasks [] (mk_task 1 2) 15 = Ret (ctx', [mk_task 1 2], true)
    /\ tcount ctx' = 5
    /\ tpool ctx' !! 4%nat = Some 15.
Proof.
  destruct (qsc_threadpool_add_task_registers four_tasks [] (mk_task 1 2) 15 eq_refl)
    as [Hbelow _].
  destruct Hbelow as (ctx' & Hadd & _ & Hn & Hh & _); [reflexivity|].
  exists ctx'. auto.
Defined.

(** *** Clearing *)

Lemma memset_tpool_Ret (p : list Z) :
  length p = 1024%nat -> memset_tpool p = Ret (replicate 1024 0).
Proof.
  intros Hp. unfold memset_tpool, QSC_THREADPOOL_THREADS_MAX.
  destruct (1024 <=? Z.of_nat (length p)) eqn:E; [|lia].
  rewrite drop_ge, app_nil_r by lia. reflexivity.
Qed.

(** The loop of [qsc_threadpool_clear] cancels the handles of the
    entries it runs over, in their order. *)
Lemma cancel_loop (p : list Z) (m : nat) :
  forall (j : nat) (log : cancelled),
  (j + m <= length p)%nat ->
  for_each (fun i log => h ← array_load p (Z.of_nat i); Ret (log ++ [h])) (seq j m) log
  = Ret (log ++ take m (drop j p)).
Proof.
  induction m as [|m IH]; intros j log Hj.
  - simpl. rewrite app_nil_r. reflexivity.
  - destruct (lookup_lt_is_Some_2 p j) as [h Hh]; [lia|].
    cbn [seq for_each].
    rewrite (array_load_Ret p (Z.of_nat j) h) by (rewrite Nat2Z.id; assumption).
    rewrite !bind_Ret, IH by lia.
    rewrite (drop_S _ _ _ Hh). simpl. rewrite <- app_assoc. reflexivity.
Qed.

Lemma qsc_threadpool_clear_Ret (ctx : qsc_threadpool_state) (log : cancelled) :
  pool_ok ctx = true ->
  tcount ctx <= QSC_THREADPOOL_THREADS_MAX ->
  qsc_threadpool_clear ctx log
  = Ret (mk_pool (replicate 1024 0) 0, log ++ take (Z.to_nat (tcount ctx)) (tpool ctx)).
Proof.
  intros Hok Hle. destruct (pool_ok_spec ctx Hok) as [Hlen Hn].
  unfold QSC_THREADPOOL_THREADS_MAX in Hle. unfold qsc_threadpool_clear.
  destruct (tcount ctx =? 0) eqn:E; simpl.
  - apply Z.eqb_eq in E. rewrite E. simpl.
    rewrite memset_tpool_Ret, app_nil_r by assumption. reflexivity.
  - rewrite cancel_loop, bind_Ret by lia.
    rewrite memset_tpool_Ret, drop_0 by assumption. reflexivity.
Qed.

(** X15.  On a well-formed registry of at most 1024 handles,
    [qsc_threadpool_clear] cancels the threads of the [tcount] handles
    held, each once and in the order of the entries, zeroes the whole
    handle array and resets [tcount]; a registry that holds more than
    1024 is read outside the array. *)
Theorem qsc_threadpool_clear_spec (ctx : qsc_threadpool_state) (log : cancelled) :
  pool_ok ctx = true ->
  (tcount ctx <= QSC_THREADPOOL_THREADS_MAX ->
   qsc_threadpool_clear ctx log
   = Ret (mk_pool (replicate 1024 0) 0, log ++ take (Z.to_nat (tcount ctx)) (tpool ctx)))
  /\ (QSC_THREADPOOL_THREADS_MAX < tcount ctx ->
      qsc_threadpool_clear ctx log = Undef OutOfBounds).
Proof.
  intros Hok. split; [apply qsc_threadpool_clear_Ret; assumption|].
  destruct (pool_ok_spec ctx Hok) as [Hlen Hn].
  unfold QSC_THREADPOOL_THREADS_MAX. intros Hgt. unfold qsc_threadpool_clear.
  destruct (tcount ctx =? 0) eqn:E; [lia|]. simpl.
  replace (Z.to_nat (tcount ctx)) with (1024 + S (Z.to_nat (tcount ctx) - 1025))%nat by lia.
  rewrite seq_app, for_each_app, cancel_loop by lia.
  rewrite bind_Ret. cbn [seq for_each Nat.add].
  unfold array_load. rewrite Nat2Z.id, lookup_ge_None_2 by lia. reflexivity.
Qed.

Lemma qsc_threadpool_clear_spec_witness :
  qsc_threadpool_clear four_tasks [] = Ret (mk_pool (replicate 1024 0) 0, [11; 12; 13; 14]).
Proof.
  destruct (qsc_threadpool_clear_spec four_tasks [] eq_refl) as [Hclear _].
  apply Hclear. unfold QSC_THREADPOOL_THREADS_MAX. simpl. lia.
Defined.

(** *** Adding, then clearing *)

Lemma add_tasks_Ret (ts : list (task * Z)) :
  forall (ctx : qsc_threadpool_state) (os : threads),
  pool_ok ctx = true ->
  tcount ctx + Z.of_nat (length ts) <= QSC_THREADPOOL_THREADS_MAX ->
  add_tasks ctx os ts
  = Ret (mk_pool (take (Z.to_nat (tcount ctx)) (tpool ctx) ++ ts.*2
                    ++ drop (Z.to_nat (tcount ctx) + length ts) (tpool ctx))
           (tcount ctx + Z.of_nat (length ts)),
         os ++ ts.*1).
Proof.
  induction ts as [|[t h] ts IH]; intros ctx os Hok Hle;
    destruct (pool_ok_spec ctx Hok) as [Hlen Hn];
    unfold QSC_THREADPOOL_THREADS_MAX in Hle.
  - simpl. rewrite Nat.add_0_r, take_drop, Z.add_0_r, app_nil_r.
    destruct ctx; reflexivity.
  - simpl in Hle. cbn [add_tasks].
    rewrite qsc_threadpool_add_task_below, bind_Ret
      by (unfold QSC_THREADPOOL_THREADS_MAX; lia || assumption).
    rewrite IH.
    2:{ apply pool_ok_intro; [rewrite length_insert; assumption | unfold SIZE_MAX; lia]. }
    2:{ unfold QSC_THREADPOOL_THREADS_MAX. simpl. lia. }
    cbn [tpool tcount fmap list_fmap fst snd length].
    f_equal. f_equal; [|rewrite <- app_assoc; reflexivity].
    f_equal; [|lia].
    set (k := Z.to_nat (tcount ctx)).
    replace (Z.to_nat (tcount ctx + 1)) with (S k) by lia.
    assert (Hk : (k < length (tpool ctx))%nat) by lia.
    rewrite (take_S_r _ _ h) by (apply list_lookup_insert_eq; assumption).
    rewrite take_insert_ge by lia.
    rewrite drop_insert_lt by lia.
    rewrite <- app_assoc. simpl.
    replace (S k + length ts)%nat with (k + S (length ts))%nat by lia.
    reflexivity || (rewrite Nat.add_succ_r; reflexivity).
Qed.

(** X16.  From an empty, well-formed registry, adding at most 1024 tasks
    starts each of them, and [qsc_threadpool_clear] then cancels
    exactly the handles of the threads started, each once and in the
    order they were added, and leaves the registry empty. *)
Theorem add_tasks_then_clear (ctx : qsc_threadpool_state) (os : threads)
    (ts : list (task * Z)) (log : cancelled) :
  pool_ok ctx = true ->
  tcount ctx = 0 ->
  Z.of_nat (length ts) <= QSC_THREADPOOL_THREADS_MAX ->
  exists ctx',
    add_tasks ctx os ts = Ret (ctx', os ++ ts.*1)
    /\ tcount ctx' = Z.of_nat (length ts)
    /\ qsc_threadpool_clear ctx' log = Ret (mk_pool (replicate 1024 0) 0, log ++ ts.*2).
Proof.
  intros Hok H0 Hle. destruct (pool_ok_spec ctx Hok) as [Hlen Hn].
  eexists. split; [apply add_tasks_Ret; [assumption | lia]|].
  unfold QSC_THREADPOOL_THREADS_MAX in Hle.
  rewrite H0. cbn [tpool tcount Z.to_nat take app Z.add Nat.add].
  split; [reflexivity|].
  rewrite qsc_threadpool_clear_Ret.
  - cbn [tpool tcount]. rewrite Z.add_0_l, Nat2Z.id. change (Z.to_nat 0) with 0%nat.
    rewrite take_0, app_nil_l.
    rewrite take_app_length' by (rewrite length_fmap; reflexivity). reflexivity.
  - apply pool_ok_intro; [|unfold SIZE_MAX; lia].
    rewrite !length_app, length_take, length_fmap, length_drop.
    change (Z.to_nat 0) with 0%nat. lia.
  - unfold QSC_THREADPOOL_THREADS_MAX. cbn [tcount]. lia.
Qed.

Lemma add_tasks_then_clear_witness :
  exists ctx',
    add_tasks (mk_pool (replicate 1024 0) 0) [] [(mk_task 1 2, 7); (mk_task 3 4, 8)]
    = Ret (ctx', [mk_task 1 2; mk_task 3 4])
    /\ tcount ctx' = 2
    /\ qsc_threadpool_clear ctx' [] = Ret (mk_pool (replicate 1024 0) 0, [7; 8]).
Proof.
  apply (add_tasks_then_clear (mk_pool (replicate 1024 0) 0) []
           [(mk_task 1 2, 7); (mk_task 3 4, 8)] []);
    [reflexivity | reflexivity | unfold QSC_THREADPOOL_THREADS_MAX; simpl; lia].
Defined.

(** *** Removing *)

Lemma qsc_threadpool_remove_task_below (ctx : qsc_threadpool_state) (log : cancelled)
    (index : Z) (h : Z) :
  pool_ok ctx = true ->
  0 <= index <= tcount ctx -> 0 < tcount ctx ->
  tpool ctx !! Z.to_nat index = Some h ->
  qsc_threadpool_remove_task ctx log index
  = Ret (mk_pool (tpool ctx) (tcount ctx - 1), log ++ [h]).
Proof.
  intros Hok Hi Hpos Hh. destruct (pool_ok_spec ctx Hok) as [Hlen Hn].
  unfold qsc_threadpool_remove_task.
  destruct (tcount ctx =? 0) eqn:E0; [lia|].
  destruct (index <=? tcount ctx) eqn:E1; [|lia]. simpl.
  rewrite (array_load_Ret _ _ _ Hh), bind_Ret.
  rewrite size_wrap_small by lia. reflexivity.
Qed.

(** X17.  [qsc_threadpool_remove_task] on a well-formed registry: with an
    index below [tcount] (and a registry that is not empty) it cancels
    the thread of that entry and takes one from [tcount], and writes
    nothing to the handle array, so the entries above keep their
    places; with an index above [tcount], or an empty registry, it does
    nothing. *)
Theorem qsc_threadpool_remove_task_spec (ctx : qsc_threadpool_state) (log : cancelled)
    (index : Z) :
  pool_ok ctx = true ->
  tcount ctx <= QSC_THREADPOOL_THREADS_MAX ->
  (0 <= index < tcount ctx ->
   exists h,
     tpool ctx !! Z.to_nat index = Some h
     /\ qsc_threadpool_remove_task ctx log index
        = Ret (mk_pool (tpool ctx) (tcount ctx - 1), log ++ [h]))
  /\ (tcount ctx = 0 \/ tcount ctx < index ->
      qsc_threadpool_remove_task ctx log index = Ret (ctx, log)).
Proof.
  intros Hok Hle. destruct (pool_ok_spec ctx Hok) as [Hlen Hn].
  unfold QSC_THREADPOOL_THREADS_MAX in Hle. unfold qsc_threadpool_remove_task. split.
  - intros Hi.
    destruct (lookup_lt_is_Some_2 (tpool ctx) (Z.to_nat index)) as [h Hh]; [lia|].
    exists h. split; [assumption|].
    fold (qsc_threadpool_remove_task ctx log index).
    apply qsc_threadpool_remove_task_below; (assumption || lia).
  - intros [H0|Hgt].
    + rewrite H0. reflexivity.
    + destruct (index <=? tcount ctx) eqn:E1; [lia|].
      rewrite andb_false_r. reflexivity.
Qed.

Lemma qsc_threadpool_remove_task_spec_witness :
  qsc_threadpool_remove_task four_tasks [] 1
  = Ret (mk_pool ([11; 12; 13; 14] ++ replicate 1020 99) 3, [12]).
Proof.
  destruct (qsc_threadpool_remove_task_spec four_tasks [] 1 eq_refl) as [Hin _].
  { unfold QSC_THREADPOOL_THREADS_MAX. simpl. lia. }
  destruct Hin as (h & Hh & Hrem); [simpl; lia|].
  injection Hh as <-. exact Hrem.
Defined.

(** X18.  After [qsc_threadpool_remove_task] of an entry that is not the last
    one held, the handle of the cancelled thread is still among the
    entries counted, and the handle of the last thread is not: a
    following [qsc_threadpool_clear] cancels the removed thread a
    second time and never cancels the last one. *)
Theorem remove_task_then_clear (ctx : qsc_threadpool_state) (log : cancelled)
    (index : Z) :
  pool_ok ctx = true ->
  tcount ctx <= QSC_THREADPOOL_THREADS_MAX ->
  0 <= index < tcount ctx - 1 ->
  NoDup (take (Z.to_nat (tcount ctx)) (tpool ctx)) ->
  exists ctx' h newest,
    tpool ctx !! Z.to_nat index = Some h
    /\ tpool ctx !! Z.to_nat (tcount ctx - 1) = Some newest
    /\ qsc_threadpool_remove_task ctx [] index = Ret (ctx', [h])
    /\ qsc_threadpool_clear ctx' [h]
       = Ret (mk_pool (replicate 1024 0) 0,
              h :: take (Z.to_nat (tcount ctx - 1)) (tpool ctx))
    /\ h ∈ take (Z.to_nat (tcount ctx - 1)) (tpool ctx)
    /\ newest ∉ h :: take (Z.to_nat (tcount ctx - 1)) (tpool ctx).
Proof.
  intros Hok Hle Hi Hnd. destruct (pool_ok_spec ctx Hok) as [Hlen Hn].
  unfold QSC_THREADPOOL_THREADS_MAX in Hle.
  destruct (lookup_lt_is_Some_2 (tpool ctx) (Z.to_nat index)) as [h Hh]; [lia|].
  assert (Hrem : qsc_threadpool_remove_task ctx [] index
                 = Ret (mk_pool (tpool ctx) (tcount ctx - 1), [] ++ [h]))
    by (apply qsc_threadpool_remove_task_below; (assumption || lia)).
  destruct (lookup_lt_is_Some_2 (tpool ctx) (Z.to_nat (tcount ctx - 1)))
    as [newest Hnew]; [lia|].
  eexists _, h, newest. split; [assumption|]. split; [assumption|].
  split; [exact Hrem|]. split.
  { rewrite qsc_threadpool_clear_Ret; [reflexivity | |].
    - apply pool_ok_intro; [assumption | lia].
    - unfold QSC_THREADPOOL_THREADS_MAX. simpl. lia. }
  set (k := Z.to_nat (tcount ctx - 1)) in *.
  assert (Hk : Z.to_nat (tcount ctx) = S k) by lia.
  rewrite Hk, (take_S_r _ _ _ Hnew) in Hnd.
  apply NoDup_app in Hnd as (_ & Hdisj & _).
  split.
  - apply list_elem_of_lookup. exists (Z.to_nat index).
    rewrite lookup_take_lt by lia. assumption.
  - intros Hel. apply elem_of_cons in Hel as [->|Hel].
    + apply (Hdisj h); [|left].
      apply list_elem_of_lookup. exists (Z.to_nat index).
      rewrite lookup_take_lt by lia. assumption.
    + apply (Hdisj newest); [assumption | left].
Qed.

Lemma remove_task_then_clear_witness :
  exists ctx',
    qsc_threadpool_remove_task four_tasks [] 1 = Ret (ctx', [12])
    /\ qsc_threadpool_clear ctx' [12] = Ret (mk_pool (replicate 1024 0) 0, [12; 11; 12; 13]).
Proof.
  destruct (remove_task_then_clear four_tasks [] 1 eq_refl)
    as (ctx' & h & newest & Hh & _ & Hrem & Hclear & _).
  - unfold QSC_THREADPOOL_THREADS_MAX. simpl. lia.
  - simpl. lia.
  - apply (bool_decide_unpack _). vm_compute. exact I.
  - injection Hh as <-. exists ctx'. split; [exact Hrem | exact Hclear].
Defined.

(** X19.  The guard of [qsc_threadpool_remove_task] lets [index == tcount]
    through: the entry read is one that holds no handle of the
    registry, and with 1024 handles held it is [tpool[1024]], outside
    the array. *)
Theorem qsc_threadpool_remove_task_at_count (ctx : qsc_threadpool_state)
    (log : cancelled) :
  pool_ok ctx = true ->
  0 < tcount ctx <= QSC_THREADPOOL_THREADS_MAX ->
  (tcount ctx < QSC_THREADPOOL_THREADS_MAX ->
   exists h,
     tpool ctx !! Z.to_nat (tcount ctx) = Some h
     /\ qsc_threadpool_remove_task ctx log (tcount ctx)
        = Ret (mk_pool (tpool ctx) (tcount ctx - 1), log ++ [h]))
  /\ (tcount ctx = QSC_THREADPOOL_THREADS_MAX ->
      qsc_threadpool_remove_task ctx log (tcount ctx) = Undef OutOfBounds).
Proof.
  intros Hok Hle. destruct (pool_ok_spec ctx Hok) as [Hlen Hn].
  unfold QSC_THREADPOOL_THREADS_MAX in *. unfold qsc_threadpool_remove_task.
  split.
  - intros Hlt.
    destruct (lookup_lt_is_Some_2 (tpool ctx) (Z.to_nat (tcount ctx))) as [h Hh]; [lia|].
    exists h. split; [assumption|].
    fold (qsc_threadpool_remove_task ctx log (tcount ctx)).
    apply qsc_threadpool_remove_task_below; (assumption || lia).
  - intros Heq. destruct (tcount ctx =? 0) eqn:E0; [lia|].
    rewrite Z.leb_refl. simpl. unfold array_load.
    rewrite lookup_ge_None_2 by lia. reflexivity.
Qed.

Lemma qsc_threadpool_remove_task_at_count_witness :
  qsc_threadpool_remove_task four_tasks [] 4
  = Ret (mk_pool ([11; 12; 13; 14] ++ replicate 1020 99) 3, [99])
  /\ qsc_threadpool_remove_task full_pool [] 1024 = Undef OutOfBounds.
Proof.
  split.
  - destruct (qsc_threadpool_remove_task_at_count four_tasks [] eq_refl) as [Hin _].
    { unfold QSC_THREADPOOL_THREADS_MAX. simpl. lia. }
    destruct Hin as (h & Hh & Hrem); [unfold QSC_THREADPOOL_THREADS_MAX; simpl; lia|].
    injection Hh as <-. exact Hrem.
  - destruct (qsc_threadpool_remove_task_at_count full_pool [] eq_refl) as [_ Hfull].
    { unfold QSC_THREADPOOL_THREADS_MAX. simpl. lia. }
    apply Hfull. reflexivity.
Defined.

(** *** Initializing *)

(** X20.  [qsc_threadpool_initialize] zeroes the handle array and leaves
    [tcount] as it is: on a registry that holds handles, the handles
    are lost while they are still counted, and a following
    [qsc_threadpool_clear] cancels the handle 0 once for each of
    them. *)
Theorem qsc_threadpool_initialize_keeps_tcount (ctx : qsc_threadpool_state)
    (log : cancelled) :
  pool_ok ctx = true ->
  tcount ctx <= QSC_THREADPOOL_THREADS_MAX ->
  qsc_threadpool_initialize ctx = Ret (mk_pool (replicate 1024 0) (tcount ctx))
  /\ qsc_threadpool_clear (mk_pool (replicate 1024 0) (tcount ctx)) log
     = Ret (mk_pool (replicate 1024 0) 0, log ++ replicate (Z.to_nat (tcount ctx)) 0).
Proof.
  intros Hok Hle. destruct (pool_ok_spec ctx Hok) as [Hlen Hn].
  unfold QSC_THREADPOOL_THREADS_MAX in Hle. split.
  - unfold qsc_threadpool_initialize.
    rewrite memset_tpool_Ret by assumption. reflexivity.
  - rewrite qsc_threadpool_clear_Ret.
    + cbn [tpool tcount]. rewrite take_replicate, Nat.min_l by lia. reflexivity.
    + apply pool_ok_intro; [reflexivity | lia].
    + unfold QSC_THREADPOOL_THREADS_MAX. cbn [tcount]. lia.
Qed.

Lemma qsc_threadpool_initialize_keeps_tcount_witness :
  qsc_threadpool_initialize four_tasks = Ret (mk_pool (replicate 1024 0) 4)
  /\ qsc_threadpool_clear (mk_pool (replicate 1024 0) 4) []
     = Ret (mk_pool (replicate 1024 0) 0, [0; 0; 0; 0]).
Proof.
  apply (qsc_threadpool_initialize_keeps_tcount four_tasks []);
    [reflexivity | unfold QSC_THREADPOOL_THREADS_MAX; simpl; lia].
Defined.

End ThreadpoolFacts.

(** ** The test timer *)

Module TimerFacts.
Import Timer.

(** X21.  While the clock has not run backwards and the product with 1000
    fits 64 bits, [hkdstest_timer_elapsed] is the time since
    [hkdstest_timer_start] in whole milliseconds, rounded down; it is 0
    at the start and never decreases as the clock advances. *)
Theorem hkdstest_timer_elapsed_floor (cps start now later : Z) :
  0 < cps -> 0 <= start <= now -> now <= later ->
  (later - start) * 1000 <= SIZE_MAX ->
  hkdstest_timer_elapsed cps now (hkdstest_timer_start start) * cps
    <= (now - start) * 1000
    < (hkdstest_timer_elapsed cps now (hkdstest_timer_start start) + 1) * cps
  /\ hkdstest_timer_elapsed cps now (hkdstest_timer_start start)
     <= hkdstest_timer_elapsed cps later (hkdstest_timer_start start)
  /\ hkdstest_timer_elapsed cps start (hkdstest_timer_start start) = 0.
Proof.
  intros Hcps Hstart Hlater Hfit.
  unfold hkdstest_timer_elapsed, hkdstest_timer_start. cbn zeta.
  assert (Hmax : 0 < SIZE_MAX) by (unfold SIZE_MAX; lia).
  rewrite !(size_wrap_small (now - start)) by lia.
  rewrite !(size_wrap_small (later - start)) by lia.
  rewrite !(size_wrap_small ((now - start) * 1000)) by lia.
  rewrite !(size_wrap_small ((later - start) * 1000)) by lia.
  rewrite Z.sub_diag. split; [|split].
  - pose proof (Z_div_mod_eq_full ((now - start) * 1000) cps) as Hdiv.
    pose proof (Z.mod_pos_bound ((now - start) * 1000) cps Hcps) as Hmod.
    lia.
  - apply Z.div_le_mono; lia.
  - reflexivity.
Qed.

Lemma hkdstest_timer_elapsed_floor_witness :
  hkdstest_timer_elapsed 1000000 3500 (hkdstest_timer_start 1000) = 2
  /\ hkdstest_timer_elapsed 1000000 3500 (hkdstest_timer_start 1000)
     <= hkdstest_timer_elapsed 1000000 9000 (hkdstest_timer_start 1000).
Proof.
  destruct (hkdstest_timer_elapsed_floor 1000000 1000 3500 9000) as (_ & Hmono & _);
    try (unfold SIZE_MAX; lia).
  split; [reflexivity | exact Hmono].
Defined.

End TimerFacts.


(** ** Keccak: constants *)

Module Sha3Facts.
Import Sha3.

(** C3. The domain-separation constants are SHA3 = 0x06, SHAKE = 0x1F,
    cSHAKE = 0x04, KMAC = 0x04 (the same as cSHAKE) and KPA = 0x41. *)
Theorem domain_ids :
  QSC_KECCAK_SHA3_DOMAIN_ID = 0x06
  /\ QSC_KECCAK_SHAKE_DOMAIN_ID = 0x1F
  /\ QSC_KECCAK_CSHAKE_DOMAIN_ID = 0x04
  /\ QSC_KECCAK_KMAC_DOMAIN_ID = 0x04
  /\ QSC_KECCAK_CSHAKE_DOMAIN_ID = QSC_KECCAK_KMAC_DOMAIN_ID
  /\ QSC_KECCAK_KPA_DOMAIN_ID = 0x41.
Proof. repeat split. Qed.

(** SHA3, SHAKE, cSHAKE/KMAC and KPA are told apart by the domain id. *)
Lemma domain_ids_distinct :
  QSC_KECCAK_SHA3_DOMAIN_ID <> QSC_KECCAK_SHAKE_DOMAIN_ID
  /\ QSC_KECCAK_SHA3_DOMAIN_ID <> QSC_KECCAK_CSHAKE_DOMAIN_ID
  /\ QSC_KECCAK_SHA3_DOMAIN_ID <> QSC_KECCAK_KPA_DOMAIN_ID
  /\ QSC_KECCAK_SHAKE_DOMAIN_ID <> QSC_KECCAK_CSHAKE_DOMAIN_ID
  /\ QSC_KECCAK_SHAKE_DOMAIN_ID <> QSC_KECCAK_KPA_DOMAIN_ID
  /\ QSC_KECCAK_CSHAKE_DOMAIN_ID <> QSC_KECCAK_KPA_DOMAIN_ID.
Proof. repeat split; discriminate. Qed.

(** C4. The Keccak state has 200 bytes; the rates of the 128-, 256- and
    512-bit security levels are 168, 136 and 72 bytes; and for every
    rate, the rate plus the remaining capacity is the 200 bytes of the
    state. *)
Theorem rate_plus_capacity :
  QSC_KECCAK_STATE_BYTE_SIZE = 200
  /\ rate_bytes qsc_keccak_rate_128 = 168
  /\ rate_bytes qsc_keccak_rate_256 = 136
  /\ rate_bytes qsc_keccak_rate_512 = 72
  /\ (forall rate, rate_security rate = 128 -> rate_bytes rate = 168)
  /\ (forall rate, rate_security rate = 256 -> rate_bytes rate = 136)
  /\ (forall rate, rate_security rate = 512 -> rate_bytes rate = 72)
  /\ (forall rate, capacity_bytes rate = 200 - rate_bytes rate)
  /\ (forall rate, rate_bytes rate + capacity_bytes rate = QSC_KECCAK_STATE_BYTE_SIZE).
Proof.
  repeat split; try (intros []; (reflexivity || discriminate)).
Qed.

(** The state bytes are the 25 lanes of 8 bytes; a rate is a whole
    number of lanes; the capacity is twice the security level. *)
Lemma rate_facts (rate : qsc_keccak_rate) :
  QSC_KECCAK_STATE_BYTE_SIZE = 8 * QSC_KECCAK_STATE_SIZE
  /\ rate_bytes rate mod 8 = 0
  /\ 0 < rate_bytes rate < QSC_KECCAK_STATE_BYTE_SIZE
  /\ 8 * capacity_bytes rate = 2 * rate_security rate.
Proof. destruct rate; repeat split. Qed.
(** X22.  The sizes of sha3.h fit together: the state bytes are the 25 lanes
    of 8 bytes; every rate is a whole number of lanes and leaves a
    capacity of twice the security level; a SHA3 hash is half the
    capacity of its level and fits one block of the rate; the SHAKE,
    KMAC and KPA keys have the bytes of their security level; the
    rounds of KPA and the default rounds lie between the minimum and
    the maximum; and the KPA buffer holds one state per lane. *)
Theorem keccak_sizes (rate : qsc_keccak_rate) :
  QSC_KECCAK_STATE_BYTE_SIZE = SIZEOF_U64 * QSC_KECCAK_STATE_SIZE
  /\ rate_bytes rate mod SIZEOF_U64 = 0
  /\ 0 < rate_bytes rate < QSC_KECCAK_STATE_BYTE_SIZE
  /\ 8 * capacity_bytes rate = 2 * rate_security rate
  /\ 2 * QSC_SHA3_128_HASH_SIZE = capacity_bytes qsc_keccak_rate_128
  /\ 2 * QSC_SHA3_256_HASH_SIZE = capacity_bytes qsc_keccak_rate_256
  /\ 2 * QSC_SHA3_512_HASH_SIZE = capacity_bytes qsc_keccak_rate_512
  /\ QSC_SHA3_256_HASH_SIZE <= rate_bytes qsc_keccak_rate_256
  /\ QSC_SHA3_512_HASH_SIZE <= rate_bytes qsc_keccak_rate_512
  /\ 8 * QSC_SHAKE_256_KEY_SIZE = rate_security qsc_keccak_rate_256
  /\ 8 * QSC_SHAKE512_KEY_SIZE = rate_security qsc_keccak_rate_512
  /\ 8 * QSC_KMAC_256_KEY_SIZE = rate_security qsc_keccak_rate_256
  /\ 8 * QSC_KMAC_512_KEY_SIZE = rate_security qsc_keccak_rate_512
  /\ 8 * QSC_KPA_128_KEY_SIZE = rate_security qsc_keccak_rate_128
  /\ 8 * QSC_KPA_256_KEY_SIZE = rate_security qsc_keccak_rate_256
  /\ 8 * QSC_KPA_512_KEY_SIZE = rate_security qsc_keccak_rate_512
  /\ QSC_KECCAK_PERMUTATION_MIN_ROUNDS <= QSC_KPA_ROUNDS
     <= QSC_KECCAK_PERMUTATION_ROUNDS
  /\ QSC_KECCAK_PERMUTATION_ROUNDS <= QSC_KECCAK_PERMUTATION_MAX_ROUNDS
  /\ kpa_buffer_size = 1600.
Proof. destruct rate; repeat split; discriminate. Qed.


(** ** Keccak: the two permutations *)

Section PermutationFacts.

Context {W : Type} `{Lane W}.

(** On a state of 25 lanes, the table-driven round computes what the
    written-out round computes. *)
Lemma keccak_round_unrolled (rc : W) (st : list W) :
  length st = 25%nat -> keccak_round rc st = round_unrolled rc st.
Proof.
  intros Hlen.
  do 25 (destruct st as [|? st]; [discriminate|]).
  destruct st; [reflexivity | discriminate].
Qed.

Lemma round_unrolled_length (rc : W) (st : list W) :
  length (round_unrolled rc st) = length st.
Proof.
  do 25 (destruct st as [|? st]; [reflexivity|]).
  destruct st; reflexivity.
Qed.

Lemma keccak_round_length (rc : W) (st : list W) :
  length st = 25%nat -> length (keccak_round rc st) = 25%nat.
Proof.
  intros Hlen. rewrite keccak_round_unrolled, round_unrolled_length by assumption.
  assumption.
Qed.

(** The compact permutation as a sequence of written-out rounds. *)
Lemma permute_p1600c_unrolled (rcs : list Z) (st : list W) :
  length st = 25%nat ->
  foldl (fun st rc => keccak_round (lconst rc) st) st rcs
  = foldl (fun st rc => round_unrolled (lconst rc) st) st rcs.
Proof.
  revert st. induction rcs as [|rc rcs IH]; intros st Hlen; simpl; [reflexivity|].
  rewrite keccak_round_unrolled by assumption.
  apply IH. rewrite round_unrolled_length. assumption.
Qed.

Lemma qsc_keccak_permute_p1600c_length (st : list W) (rounds : Z) :
  length st = 25%nat -> length (qsc_keccak_permute_p1600c st rounds) = 25%nat.
Proof.
  unfold qsc_keccak_permute_p1600c.
  generalize (take (Z.to_nat rounds) KECCAK_ROUND_CONSTANTS). intros rcs.
  revert st. induction rcs as [|rc rcs IH]; intros st Hlen; simpl; [assumption|].
  apply IH, keccak_round_length, Hlen.
Qed.

Lemma xor_block_length (st blk : list W) :
  length (xor_block st blk) = length st.
Proof.
  revert blk. induction st as [|s st IH]; intros [|b blk]; simpl; auto.
Qed.

Lemma absorb_blocks_length (st : list W) (blocks : list (list W)) (rounds : Z) :
  length st = 25%nat -> length (absorb_blocks st blocks rounds) = 25%nat.
Proof.
  unfold absorb_blocks. revert st.
  induction blocks as [|blk blocks IH]; intros st Hlen; simpl; [assumption|].
  apply IH, qsc_keccak_permute_p1600c_length. rewrite xor_block_length. assumption.
Qed.

Lemma permute_p1600c_24 (st : list W) :
  length st = 25%nat ->
  qsc_keccak_permute_p1600c st QSC_KECCAK_PERMUTATION_ROUNDS
  = qsc_keccak_permute_p1600u st.
Proof.
  intros Hlen. unfold qsc_keccak_permute_p1600c.
  rewrite permute_p1600c_unrolled by assumption.
  cbv [QSC_KECCAK_PERMUTATION_ROUNDS KECCAK_ROUND_CONSTANTS Z.to_nat Pos.to_nat
       Pos.iter_op Nat.add take foldl qsc_keccak_permute_p1600u].
  reflexivity.
Qed.

End PermutationFacts.

(** C5, as amended.  For every state of 25 lanes, the compact
    permutation run with the standard 24 rounds and the unrolled
    permutation, which takes no round count, give the same state. *)
Theorem permute_compact_24_unrolled (st : list Z) :
  length st = 25%nat ->
  qsc_keccak_permute_p1600c st 24 = qsc_keccak_permute_p1600u st.
Proof. apply permute_p1600c_24. Qed.

Lemma permute_compact_24_unrolled_witness :
  qsc_keccak_permute_p1600c (W := Z) zero_state 24
  = qsc_keccak_permute_p1600u zero_state.
Proof. apply permute_compact_24_unrolled. reflexivity. Defined.

(** The permutation of the all-zero state, as published for
    Keccak-f[1600]. *)
Example permute_zero_state :
  take 2 (qsc_keccak_permute_p1600u (W := Z) zero_state)
  = [0xF1258F7940E1DDE7; 0x84D5CCF933C0478A].
Proof. vm_compute. reflexivity. Qed.

(** C5, as stated, fails: with 12 rounds, a count the compact
    permutation accepts, the all-zero state is taken to another state
    than by the unrolled permutation, whose rounds are fixed. *)
Lemma permute_compact_12_differs :
  ~ (forall (st : list Z) (rounds : Z),
       length st = 25%nat -> 1 <= rounds <= 48 ->
       qsc_keccak_permute_p1600c st rounds = qsc_keccak_permute_p1600u st).
Proof.
  intros Hall.
  specialize (Hall zero_state 12 eq_refl ltac:(lia)).
  vm_compute in Hall. discriminate Hall.
Qed.

(** ** Keccak: cSHAKE and SHAKE *)

(** C6. With an empty name and an empty customization string cSHAKE is
    SHAKE: for every key, rate and number of blocks,
    [qsc_cshake_initialize] followed by [qsc_cshake_squeezeblocks] gives
    the bytes of [qsc_shake_initialize] followed by
    [qsc_shake_squeezeblocks], whatever the two state objects held
    before; and so do the one-call functions for every output length. *)
Theorem cshake_empty_is_shake (ctx ctx' : qsc_keccak_state) (rate : qsc_keccak_rate)
    (key : list Z) (nblocks outlen : Z) :
  qsc_cshake_initialize ctx rate key [] [] = qsc_shake_initialize ctx' rate key
  /\ snd (qsc_cshake_squeezeblocks (qsc_cshake_initialize ctx rate key [] []) rate nblocks)
     = snd (qsc_shake_squeezeblocks (qsc_shake_initialize ctx' rate key) rate nblocks)
  /\ qsc_cshake_compute rate outlen key [] [] = qsc_shake_compute rate outlen key.
Proof.
  assert (Hinit : qsc_cshake_initialize ctx rate key [] []
                  = qsc_shake_initialize ctx' rate key) by reflexivity.
  split; [exact Hinit|]. split.
  - rewrite Hinit. reflexivity.
  - reflexivity.
Qed.

(** Known answers (FIPS 202 and NIST SP 800-185 samples). *)
Example sha3_256_empty :
  qsc_sha3_compute256 []
  = [0xa7; 0xff; 0xc6; 0xf8; 0xbf; 0x1e; 0xd7; 0x66; 0x51; 0xc1; 0x47; 0x56;
     0xa0; 0x61; 0xd6; 0x62; 0xf5; 0x80; 0xff; 0x4d; 0xe4; 0x3b; 0x49; 0xfa;
     0x82; 0xd8; 0x0a; 0x4b; 0x80; 0xf8; 0x43; 0x4a].
Proof. vm_compute. reflexivity. Qed.

Example shake128_empty :
  qsc_shake128_compute 16 []
  = [0x7f; 0x9c; 0x2b; 0xa4; 0xe8; 0x8f; 0x82; 0x7d;
     0x61; 0x60; 0x45; 0x50; 0x76; 0x05; 0x85; 0x3e].
Proof. vm_compute. reflexivity. Qed.

Example cshake128_sample :
  qsc_cshake128_compute 32 [0; 1; 2; 3] [] sample_custom
  = [0xC1; 0xC3; 0x69; 0x25; 0xB6; 0x40; 0x9A; 0x04; 0xF1; 0xB5; 0x04; 0xFC;
     0xBC; 0xA9; 0xD8; 0x2B; 0x40; 0x17; 0x27; 0x7C; 0xB5; 0xED; 0x2B; 0x20;
     0x65; 0xFC; 0x1D; 0x38; 0x14; 0xD5; 0xAA; 0xF5].
Proof. vm_compute. reflexivity. Qed.

Example kmac128_sample :
  qsc_kmac128_compute 32 [0; 1; 2; 3] ((fun i => 0x40 + Z.of_nat i) <$> seq 0 32) []
  = [0xE5; 0x78; 0x0B; 0x0D; 0x3E; 0xA6; 0xF7; 0xD3; 0xA4; 0x29; 0xC5; 0x70;
     0x6A; 0xA4; 0x3A; 0x00; 0xFA; 0xDB; 0xD7; 0xD4; 0x96; 0x28; 0x83; 0x9E;
     0x31; 0x87; 0x24; 0x3F; 0x45; 0x6E; 0xE1; 0x4E].
Proof. vm_compute. reflexivity. Qed.

(** A customization string does change the output. *)
Example cshake128_custom_differs :
  qsc_cshake128_compute 32 [0; 1; 2; 3] [] sample_custom
  <> qsc_shake128_compute 32 [0; 1; 2; 3].
Proof. vm_compute. discriminate. Qed.

(** ** Keccak: lanes in lock-step *)

(** A map between two kinds of lanes that commutes with the lane
    operations commutes with the permutation and with the sponge. *)
Section LaneHom.

Context {W W' : Type} {LW : Lane W} {LW' : Lane W'} (h : W -> W').

Hypothesis h_xor : forall a b, h (lxor a b) = lxor (h a) (h b).
Hypothesis h_andn : forall a b, h (landn a b) = landn (h a) (h b).
Hypothesis h_rotl : forall a r, h (lrotl a r) = lrotl (h a) r.
Hypothesis h_const : forall c, h (lconst c) = lconst c.

Lemma round_unrolled_hom (rc : W) (st : list W) :
  h <$> round_unrolled rc st = round_unrolled (h rc) (h <$> st).
Proof.
  do 25 (destruct st as [|? st]; [reflexivity|]).
  destruct st; [|reflexivity].
  cbn [round_unrolled fmap list_fmap].
  repeat (progress rewrite ?h_xor, ?h_andn, ?h_rotl).
  reflexivity.
Qed.

Lemma permute_p1600c_hom (st : list W) (rounds : Z) :
  length st = 25%nat ->
  h <$> qsc_keccak_permute_p1600c st rounds
  = qsc_keccak_permute_p1600c (W := W') (h <$> st) rounds.
Proof.
  intros Hlen. unfold qsc_keccak_permute_p1600c.
  rewrite !permute_p1600c_unrolled by (rewrite ?length_fmap; assumption).
  generalize (take (Z.to_nat rounds) KECCAK_ROUND_CONSTANTS). intros rcs.
  clear Hlen. revert st.
  induction rcs as [|rc rcs IH]; intros st; simpl; [reflexivity|].
  rewrite IH, round_unrolled_hom, h_const. reflexivity.
Qed.

Lemma xor_block_hom (st blk : list W) :
  h <$> xor_block st blk = xor_block (W := W') (h <$> st) (h <$> blk).
Proof.
  revert blk. induction st as [|s st IH]; intros [|b blk]; simpl; try reflexivity.
  rewrite h_xor, IH. reflexivity.
Qed.

Lemma absorb_blocks_hom (st : list W) (blocks : list (list W)) (rounds : Z) :
  length st = 25%nat ->
  h <$> absorb_blocks st blocks rounds
  = absorb_blocks (W := W') (h <$> st) (fmap (M := list) h <$> blocks) rounds.
Proof.
  unfold absorb_blocks. revert st.
  induction blocks as [|blk blocks IH]; intros st Hlen; simpl; [reflexivity|].
  rewrite IH.
  - rewrite permute_p1600c_hom, xor_block_hom; [reflexivity|].
    rewrite xor_block_length. assumption.
  - apply qsc_keccak_permute_p1600c_length. rewrite xor_block_length. assumption.
Qed.

Lemma squeeze_next_hom (st : list W) (more nwords : nat) (rounds : Z) :
  length st = 25%nat ->
  squeeze_next (W := W') (h <$> st) more nwords rounds
  = prod_map (fmap (M := list) (fmap (M := list) h)) (fmap (M := list) h) (squeeze_next st more nwords rounds).
Proof.
  revert st. induction more as [|more IH]; intros st Hlen; simpl; [reflexivity|].
  rewrite <- permute_p1600c_hom by assumption.
  rewrite IH by (apply qsc_keccak_permute_p1600c_length; assumption).
  destruct (squeeze_next _ more nwords rounds) as [blocks st'']. simpl.
  rewrite fmap_take. reflexivity.
Qed.

Lemma squeeze_blocks_hom (st : list W) (nblocks nwords : nat) (rounds : Z) :
  length st = 25%nat ->
  squeeze_blocks (W := W') (h <$> st) nblocks nwords rounds
  = prod_map (fmap (M := list) (fmap (M := list) h)) (fmap (M := list) h) (squeeze_blocks st nblocks nwords rounds).
Proof.
  intros Hlen. destruct nblocks as [|more]; simpl; [reflexivity|].
  rewrite squeeze_next_hom by assumption.
  destruct (squeeze_next st more nwords rounds) as [blocks st']. simpl.
  rewrite fmap_take. reflexivity.
Qed.

End LaneHom.

(** ** Keccak: the multi-lane functions *)

Section LockStep.

Context {n : nat}.

(** Taking element [j] of every vector commutes with the lane
    operations: a vector operation acts on the elements one by one. *)
Lemma vlookup_lxor (j : fin n) (a b : vec Z n) :
  lxor a b !!! j = lxor (a !!! j) (b !!! j).
Proof. apply vlookup_zip_with. Qed.

Lemma vlookup_landn (j : fin n) (a b : vec Z n) :
  landn a b !!! j = landn (a !!! j) (b !!! j).
Proof. apply vlookup_zip_with. Qed.

Lemma vlookup_lrotl (j : fin n) (a : vec Z n) (r : Z) :
  lrotl a r !!! j = lrotl (a !!! j) r.
Proof. apply (vlookup_map (fun x => lrotl x r)). Qed.

Lemma vlookup_lconst (j : fin n) (c : Z) :
  lconst (W := vec Z n) c !!! j = lconst c.
Proof. apply vlookup_replicate. Qed.

Lemma zero_state_lane (j : fin n) :
  (fun v : vec Z n => v !!! j) <$> zero_state = zero_state.
Proof. unfold zero_state. rewrite fmap_replicate, vlookup_lconst. reflexivity. Qed.

(** Reading back the words of a list. *)
Lemma nth_seq_length (l : list Z) :
  (fun i => nth i l 0) <$> seq 0 (length l) = l.
Proof.
  apply list_eq. intros i. rewrite list_lookup_fmap.
  destruct (decide (i < length l)%nat) as [Hi|Hi].
  - rewrite lookup_seq_lt by assumption. simpl.
    destruct (lookup_lt_is_Some_2 l i Hi) as [x Hx].
    rewrite (nth_lookup_Some _ _ _ _ Hx), Hx. reflexivity.
  - rewrite lookup_seq_ge, lookup_ge_None_2 by lia. reflexivity.
Qed.

Lemma pack_words_lane (ws : vec (list Z) n) (nwords : nat) (j : fin n) :
  length (ws !!! j) = nwords ->
  (fun v : vec Z n => v !!! j) <$> pack_words ws nwords = ws !!! j.
Proof.
  intros <-. unfold pack_words. rewrite <- list_fmap_compose.
  rewrite <- (nth_seq_length (ws !!! j)) at 2.
  apply list_fmap_ext. intros i x _. simpl.
  rewrite vlookup_map. reflexivity.
Qed.

Lemma block_words_length (blk : list Z) :
  length (block_words blk) = (length blk / 8)%nat.
Proof. unfold block_words. rewrite length_fmap, length_seq. reflexivity. Qed.

Lemma full_block_length (rate : nat) (msg : list Z) (k : nat) :
  (k < length msg / rate)%nat -> length (full_block rate msg k) = rate.
Proof.
  intros Hk. unfold full_block. rewrite length_take, length_drop.
  assert (rate <> 0%nat) by (intros ->; simpl in Hk; lia).
  pose proof (Nat.div_mod_eq (length msg) rate).
  pose proof (Nat.mod_upper_bound (length msg) rate).
  nia.
Qed.

Lemma final_block_length (rate : nat) (msg : list Z) (domain : Z) :
  (0 < rate)%nat -> length (final_block rate msg domain) = rate.
Proof.
  intros Hr. unfold final_block.
  rewrite length_insert, !length_app, length_replicate, length_drop. simpl.
  pose proof (Nat.div_mod_eq (length msg) rate).
  pose proof (Nat.mod_upper_bound (length msg) rate).
  nia.
Qed.

Lemma rate_nat_pos (rate : qsc_keccak_rate) : (0 < rate_nat rate)%nat.
Proof. destruct rate; vm_compute; lia. Qed.

(** The full blocks of instance [j]. *)
Lemma full_blocks_xn_lane (rate : qsc_keccak_rate) (msgs : vec (list Z) n) (j : fin n) :
  fmap (M := list) (fun v : vec Z n => v !!! j)
    <$> full_blocks_xn rate msgs (length (msgs !!! j))
  = full_blocks rate (msgs !!! j).
Proof.
  unfold full_blocks_xn, full_blocks. rewrite <- list_fmap_compose.
  apply list_fmap_ext. intros i k Hk. simpl.
  apply lookup_seq in Hk as [-> Hk]. simpl.
  rewrite pack_words_lane; rewrite vlookup_map; [reflexivity|].
  rewrite block_words_length, full_block_length by assumption. reflexivity.
Qed.

(** Absorption: the state of instance [j] is the state of a single-lane
    absorption of its input. *)
Lemma qsc_keccakxn_absorb_lane (st : list (vec Z n)) (rate : qsc_keccak_rate)
    (inp : vec (list Z) n) (inplen domain : Z) (j : fin n)
    (buf : list Z) (pos : Z) :
  length st = 25%nat ->
  Z.of_nat (length (inp !!! j)) = inplen ->
  (fun v : vec Z n => v !!! j) <$> qsc_keccakxn_absorb st rate inp inplen domain
  = state (qsc_keccak_absorb (mk_keccak ((fun v : vec Z n => v !!! j) <$> st) buf pos)
             rate (inp !!! j) domain QSC_KECCAK_PERMUTATION_ROUNDS).
Proof.
  intros Hst Hlen. unfold qsc_keccakxn_absorb, qsc_keccak_absorb. simpl.
  rewrite (absorb_blocks_hom (fun v : vec Z n => v !!! j)
             (vlookup_lxor j) (vlookup_landn j) (vlookup_lrotl j) (vlookup_lconst j))
    by assumption.
  f_equal. rewrite fmap_app. simpl.
  assert (Htake : vmap (take (Z.to_nat inplen)) inp !!! j = inp !!! j).
  { rewrite vlookup_map. apply take_ge. lia. }
  assert (Hn : Z.to_nat inplen = length (vmap (take (Z.to_nat inplen)) inp !!! j)).
  { rewrite Htake. lia. }
  rewrite Hn at 2. rewrite full_blocks_xn_lane, Htake.
  rewrite pack_words_lane; rewrite vlookup_map, ?Htake; [reflexivity|].
  rewrite block_words_length, final_block_length by apply rate_nat_pos.
  reflexivity.
Qed.

(** Absorption of whole blocks only. *)
Lemma absorb_full_blocks_xn_lane (st : list (vec Z n)) (rate : qsc_keccak_rate)
    (msgs : vec (list Z) n) (len : nat) (j : fin n) :
  length st = 25%nat ->
  length (msgs !!! j) = len ->
  (fun v : vec Z n => v !!! j)
    <$> absorb_blocks st (full_blocks_xn rate msgs len) QSC_KECCAK_PERMUTATION_ROUNDS
  = absorb_blocks ((fun v : vec Z n => v !!! j) <$> st) (full_blocks rate (msgs !!! j))
      QSC_KECCAK_PERMUTATION_ROUNDS.
Proof.
  intros Hst <-.
  rewrite (absorb_blocks_hom (fun v : vec Z n => v !!! j)
             (vlookup_lxor j) (vlookup_landn j) (vlookup_lrotl j) (vlookup_lconst j))
    by assumption.
  rewrite full_blocks_xn_lane. reflexivity.
Qed.

(** Extraction: the output of instance [j] is the output of a
    single-lane extraction from its state. *)
Lemma qsc_keccakxn_squeezeblocks_lane (st : list (vec Z n)) (rate : qsc_keccak_rate)
    (nblocks : Z) (j : fin n) (buf : list Z) (pos : Z) :
  length st = 25%nat ->
  snd (qsc_keccakxn_squeezeblocks st rate nblocks) !!! j
  = snd (qsc_keccak_squeezeblocks (mk_keccak ((fun v : vec Z n => v !!! j) <$> st) buf pos)
           nblocks rate QSC_KECCAK_PERMUTATION_ROUNDS).
Proof.
  intros Hst. unfold qsc_keccakxn_squeezeblocks, qsc_keccak_squeezeblocks. simpl.
  rewrite (squeeze_blocks_hom (fun v : vec Z n => v !!! j)
             (vlookup_lxor j) (vlookup_landn j) (vlookup_lrotl j) (vlookup_lconst j))
    by assumption.
  destruct (squeeze_blocks st _ _ _) as [blocks st']. simpl.
  rewrite lookup_fun_to_vec. unfold unpack_bytes.
  rewrite <- list_fmap_compose. reflexivity.
Qed.

End LockStep.

Lemma encode_string_length (s : list Z) :
  length (encode_string s) = encode_string_len (length s).
Proof. unfold encode_string, encode_string_len. rewrite length_app. reflexivity. Qed.

Lemma bytepad_length (x : list Z) (w : nat) :
  length (bytepad x w) = bytepad_len (length x) w.
Proof.
  unfold bytepad, bytepad_len. cbv zeta.
  rewrite !length_app, length_replicate. reflexivity.
Qed.

Section Lanes.

Context {n : nat}.

(** Instance [j] of a multi-lane SHAKE is the single-lane SHAKE of its
    input. *)
Lemma shake_xn_lane (rate : qsc_keccak_rate) (outlen : Z) (inp : vec (list Z) n)
    (inplen : Z) (j : fin n) :
  Z.of_nat (length (inp !!! j)) = inplen ->
  shake_xn rate outlen inp inplen !!! j = qsc_shake_compute rate outlen (inp !!! j).
Proof.
  intros Hlen. unfold shake_xn, qsc_shake_compute, qsc_shake_squeezeblocks.
  rewrite vlookup_map.
  rewrite (qsc_keccakxn_squeezeblocks_lane _ _ _ _
             (replicate (Z.to_nat QSC_KECCAK_STATE_BYTE_SIZE) 0) 0)
    by (apply absorb_blocks_length; reflexivity).
  rewrite (qsc_keccakxn_absorb_lane _ _ _ _ _ _
             (replicate (Z.to_nat QSC_KECCAK_STATE_BYTE_SIZE) 0) 0)
    by (reflexivity || assumption).
  rewrite zero_state_lane. reflexivity.
Qed.

(** Instance [j] of a multi-lane KMAC is the single-lane KMAC of its
    key, customization string and message. *)
Lemma kmac_xn_lane (rate : qsc_keccak_rate) (outlen : Z)
    (key : vec (list Z) n) (keylen : Z) (cst : vec (list Z) n) (cstlen : Z)
    (msg : vec (list Z) n) (msglen : Z) (j : fin n) :
  Z.of_nat (length (key !!! j)) = keylen ->
  Z.of_nat (length (cst !!! j)) = cstlen ->
  Z.of_nat (length (msg !!! j)) = msglen ->
  kmac_xn rate outlen key keylen cst cstlen msg msglen !!! j
  = qsc_kmac_compute rate outlen (msg !!! j) (key !!! j) (cst !!! j).
Proof.
  intros <- <- <-. unfold kmac_xn, qsc_kmac_compute, qsc_keccak_absorb_custom.
  cbv zeta. simpl state. simpl buffer. simpl Sha3.position.
  rewrite !Nat2Z.id, vlookup_map.
  rewrite (qsc_keccakxn_squeezeblocks_lane _ _ _ _
             (replicate (Z.to_nat QSC_KECCAK_STATE_BYTE_SIZE) 0) 0)
    by (apply absorb_blocks_length, absorb_blocks_length, absorb_blocks_length;
        reflexivity).
  f_equal. f_equal. f_equal.
  rewrite (qsc_keccakxn_absorb_lane _ _ _ _ _ _
             (replicate (Z.to_nat QSC_KECCAK_STATE_BYTE_SIZE) 0) 0).
  - rewrite !absorb_full_blocks_xn_lane.
    + rewrite zero_state_lane, !vlookup_map.
      rewrite !take_ge by lia. reflexivity.
    + reflexivity.
    + rewrite vlookup_map, take_ge by lia.
      rewrite bytepad_length, length_app, !encode_string_length. reflexivity.
    + apply absorb_blocks_length. reflexivity.
    + rewrite vlookup_map, take_ge by lia.
      rewrite bytepad_length, encode_string_length. reflexivity.
  - apply absorb_blocks_length, absorb_blocks_length. reflexivity.
  - rewrite vlookup_map, length_app, take_ge by lia. lia.
Qed.

(** C7. For [n] = 4 or 8 (or any other number of) independent tuples
    of key, customization string and message, whose arrays have the
    lengths passed to the call, every instance of the multi-lane SHAKE
    and KMAC functions writes, for every output length, the bytes that
    the single-lane SHAKE or KMAC call on the inputs of that instance
    writes.  [shake128x4] to [shake512x8] and [kmac128x4] to
    [kmac512x8] are [shake_xn] and [kmac_xn] at each rate, with 4 and 8
    instances. *)
Theorem multilane_is_sequential (rate : qsc_keccak_rate) (outlen : Z)
    (inp : vec (list Z) n) (inplen : Z)
    (key : vec (list Z) n) (keylen : Z) (cst : vec (list Z) n) (cstlen : Z)
    (msg : vec (list Z) n) (msglen : Z) :
  (forall j, Z.of_nat (length (inp !!! j)) = inplen) ->
  (forall j, Z.of_nat (length (key !!! j)) = keylen) ->
  (forall j, Z.of_nat (length (cst !!! j)) = cstlen) ->
  (forall j, Z.of_nat (length (msg !!! j)) = msglen) ->
  shake_xn rate outlen inp inplen = vmap (qsc_shake_compute rate outlen) inp
  /\ (forall j, kmac_xn rate outlen key keylen cst cstlen msg msglen !!! j
                = qsc_kmac_compute rate outlen (msg !!! j) (key !!! j) (cst !!! j)).
Proof.
  intros Hinp Hkey Hcst Hmsg. split.
  - apply vec_eq. intros j. rewrite vlookup_map. apply shake_xn_lane, Hinp.
  - intros j. apply kmac_xn_lane; auto.
Qed.

End Lanes.

(** The four outputs of [shake256x4]. *)
Corollary shake256x4_sequential (outlen : Z) (inp0 inp1 inp2 inp3 : list Z) (inplen : Z) :
  Z.of_nat (length inp0) = inplen -> Z.of_nat (length inp1) = inplen ->
  Z.of_nat (length inp2) = inplen -> Z.of_nat (length inp3) = inplen ->
  vec_to_list (shake256x4 outlen inp0 inp1 inp2 inp3 inplen)
  = [qsc_shake256_compute outlen inp0; qsc_shake256_compute outlen inp1;
     qsc_shake256_compute outlen inp2; qsc_shake256_compute outlen inp3].
Proof.
  intros H0 H1 H2 H3. unfold shake256x4.
  assert (Hall : forall j : fin 4,
             Z.of_nat (length ([# inp0; inp1; inp2; inp3] !!! j)) = inplen).
  { intros j. repeat (inv_fin j; [simpl; assumption | intros j]). inv_fin j. }
  assert (Heq : shake_xn qsc_keccak_rate_256 outlen [# inp0; inp1; inp2; inp3] inplen
                = vmap (qsc_shake_compute qsc_keccak_rate_256 outlen)
                    [# inp0; inp1; inp2; inp3]).
  { apply vec_eq. intros j. rewrite vlookup_map. apply shake_xn_lane, Hall. }
  rewrite Heq. reflexivity.
Qed.

(** The eight outputs of [kmac256x8]. *)
Corollary kmac256x8_sequential (outlen : Z) (key cst msg : vec (list Z) 8)
    (keylen cstlen msglen : Z) (j : fin 8) :
  (forall i, Z.of_nat (length (key !!! i)) = keylen) ->
  (forall i, Z.of_nat (length (cst !!! i)) = cstlen) ->
  (forall i, Z.of_nat (length (msg !!! i)) = msglen) ->
  kmac256x8 outlen key cst msg keylen cstlen msglen !!! j
  = qsc_kmac256_compute outlen (msg !!! j) (key !!! j) (cst !!! j).
Proof.
  intros Hkey Hcst Hmsg. unfold kmac256x8.
  apply kmac_xn_lane; auto.
Qed.

Lemma multilane_is_sequential_witness :
  shake_xn qsc_keccak_rate_256 40 [# [1; 2]; [3; 4]; [5; 6]; [7; 8]] 2
  = vmap (qsc_shake_compute qsc_keccak_rate_256 40) [# [1; 2]; [3; 4]; [5; 6]; [7; 8]]
  /\ (forall j, kmac_xn qsc_keccak_rate_256 40
                  [# [1; 2]; [3; 4]; [5; 6]; [7; 8]] 2
                  [# [1]; [2]; [3]; [4]] 1
                  [# [1; 2; 3]; [4; 5; 6]; [7; 8; 9]; [0; 0; 0]] 3 !!! j
                = qsc_kmac_compute qsc_keccak_rate_256 40
                    ([# [1; 2; 3]; [4; 5; 6]; [7; 8; 9]; [0; 0; 0]] !!! j)
                    ([# [1; 2]; [3; 4]; [5; 6]; [7; 8]] !!! j)
                    ([# [1]; [2]; [3]; [4]] !!! j)).
Proof.
  apply multilane_is_sequential;
    intros j; repeat (inv_fin j; [reflexivity | intros j]); inv_fin j.
Defined.

End Sha3Facts.
